(** * Client-side network interception model (playwright-core, client/network.ts)

    A shallow embedding of [RawHeaders], [Request], [Route], [WebSocketRoute]
    and [RouteHandler], followed by the properties proved about them.

    Conventions of the embedding:
    - a JavaScript string is a [string] holding its UTF-8 bytes, so that
      [Buffer.from(s, 'utf-8')] and [buf.toString('utf-8')] are the two
      conversions between [string] and [list byte], and
      [Buffer.byteLength(s)] is [String.length s];
    - a [Buffer] is a [list byte];
    - a plain JavaScript object used as a dictionary is an association list
      in insertion order with unique keys ([obj_set] overwrites in place);
      the order in which the engine enumerates keys that look like array
      indices is not modelled, and no property below depends on it;
    - [undefined] and [null] are [None];
    - a function that can throw returns a [Result]. *)

From Stdlib Require Import ZArith NArith Lia Ascii String List Bool DecimalString.
From Stdlib Require Strings.Byte.
From stdpp Require Import base list strings.

Local Open Scope string_scope.
Local Open Scope list_scope.

(** ** JavaScript runtime pieces used by the source *)

(** Errors thrown by the modelled code. [AlreadyHandled] is
    [Error('Route is already handled!')], [AmbiguousFulfillOptions] the failed
    [assert(options.body === undefined, ...)], [MalformedPostData] the
    [Error('POST data is not a valid JSON object: ' + postData)],
    [AlreadyConnected] is [Error('Already connected to the server')],
    [TypeError] the engine's error on reading a property of [null], and
    [ChannelError] a rejection coming from the channel or the file system. *)
Inductive Error : Type :=
| AlreadyHandled
| AmbiguousFulfillOptions
| MalformedPostData (postData : string)
| AlreadyConnected
| TypeError
| ChannelError (message : string).

Inductive Result (A : Type) : Type :=
| Ok (a : A)
| Throw (e : Error).
Arguments Ok {A} a.
Arguments Throw {A} e.

Definition message_of (e : Error) : string :=
  match e with
  | AlreadyHandled => "Route is already handled!"
  | AmbiguousFulfillOptions => "Can specify either body or json parameters"
  | MalformedPostData postData => "POST data is not a valid JSON object: " +:+ postData
  | AlreadyConnected => "Already connected to the server"
  | TypeError => "Cannot read properties of null (reading 'resolve')"
  | ChannelError message => message
  end.

(** [String.prototype.toLowerCase] of a string of ASCII characters: the
    letters A to Z are lowered and nothing else changes. Beyond ASCII the
    engine follows the Unicode case mapping, which is not modelled: the
    properties that lower a name are stated for ASCII names ([is_ascii]
    below), which the field names of HTTP are. *)
Definition lower_ascii (c : ascii) : ascii :=
  let n := N_of_ascii c in
  if ((65 <=? n) && (n <=? 90))%N then ascii_of_N (n + 32) else c.

Fixpoint toLowerCase (s : string) : string :=
  match s with
  | EmptyString => EmptyString
  | String c s' => String (lower_ascii c) (toLowerCase s')
  end.

(** [String.prototype.includes]. *)
Fixpoint includes (needle s : string) : bool :=
  if String.prefix needle s then true
  else match s with
       | EmptyString => false
       | String _ s' => includes needle s'
       end.

(** [Array.prototype.join]. *)
Definition join (sep : string) (values : list string) : string :=
  String.concat sep values.

(** [String(n)] for a non-negative integer. *)
Definition String_of_N (n : N) : string :=
  NilZero.string_of_uint (N.to_uint n).

(** [String(n)] for an integer. *)
Definition String_of_Z (z : Z) : string :=
  match z with
  | Z0 => "0"
  | Zpos p => String_of_N (Npos p)
  | Zneg p => "-" +:+ String_of_N (Npos p)
  end.

(** A plain object with string keys. Assigning to the key [__proto__] of a
    plain object goes through the accessor of [Object.prototype], which
    ignores a value that is not an object: no own property is created. *)
Definition JSObject (V : Type) : Type := list (string * V).

Fixpoint obj_update {V} (key : string) (v : V) (o : JSObject V) : JSObject V :=
  match o with
  | [] => [(key, v)]
  | (k, w) :: o' =>
      if String.eqb k key then (k, v) :: o' else (k, w) :: obj_update key v o'
  end.

(** [o[key] = v] for a value that is a primitive. *)
Definition obj_set {V} (key : string) (v : V) (o : JSObject V) : JSObject V :=
  if String.eqb key "__proto__" then o else obj_update key v o.

(** [key in o] for an own property. *)
Fixpoint obj_has {V} (key : string) (o : JSObject V) : bool :=
  match o with
  | [] => false
  | (k, _) :: o' => if String.eqb k key then true else obj_has key o'
  end.

(** [Object.keys(o)]. *)
Definition obj_keys {V} (o : JSObject V) : list string := map fst o.

(** Header objects ([Headers] of client/types.ts): the value of a key may be
    [undefined], which the source filters or stringifies explicitly. *)
Definition Headers : Type := JSObject (option string).

(** [o[key]]: [undefined] for a missing key as for an undefined value. *)
Fixpoint obj_get (key : string) (o : Headers) : option string :=
  match o with
  | [] => None
  | (k, v) :: o' => if String.eqb k key then v else obj_get key o'
  end.

Record Header : Type := { name : string; value : string }.
Definition HeadersArray : Type := list Header.

(** Modelled from the spec: [MultiMap] of utils/isomorphic/multimap.ts, the
    "lowercase-keyed multimap index" of the header store. It wraps a [Map]
    from keys to arrays: [set] pushes the value on the array of the key,
    creating the array (and so the key, last in iteration order) when the key
    is new; [get] returns the array of the key, or an empty one. *)
Module MultiMap.
Definition t : Type := list (string * list string).

Definition empty : t := [].

Fixpoint set (key value : string) (m : t) : t :=
  match m with
  | [] => [(key, [value])]
  | (k, values) :: m' =>
      if String.eqb k key then (k, values ++ [value]) :: m'
      else (k, values) :: set key value m'
  end.

Fixpoint get (key : string) (m : t) : list string :=
  match m with
  | [] => []
  | (k, values) :: m' => if String.eqb k key then values else get key m'
  end.

Definition keys (m : t) : list string := map fst m.
End MultiMap.

(** ** RawHeaders *)

Module RawHeaders.
Record t : Type := mk {
  _headersArray : HeadersArray;
  _headersMap : MultiMap.t
}.

(** The constructor: keeps the array and indexes every header under its
    lower-cased name, in array order. *)
Definition new (headers : HeadersArray) : t :=
  {| _headersArray := headers;
     _headersMap :=
       fold_left (fun m header => MultiMap.set (toLowerCase (name header)) (value header) m)
                 headers MultiMap.empty |}.

Definition getAll (this : t) (name : string) : list string :=
  MultiMap.get (toLowerCase name) (_headersMap this).

Definition get (this : t) (name : string) : option string :=
  let values := getAll this name in
  if Nat.eqb (length values) 0 then None
  else Some (join (if String.eqb (toLowerCase name) "set-cookie"
                   then String "010" EmptyString else ", ") values).

(** [headers()]: one entry per key of the index; [get] cannot be null for
    a key of the index, the [!] of the source. *)
Definition headers (this : t) : Headers :=
  fold_left (fun result name => obj_set name (get this name) result)
            (MultiMap.keys (_headersMap this)) [].

Definition headersArray (this : t) : HeadersArray := _headersArray this.

(** [_fromHeadersObjectLossy]: the entries of the object whose value is
    not [undefined]. *)
Definition _fromHeadersObjectLossy (headers : Headers) : t :=
  new (omap (fun '(name, value) =>
               match value with
               | Some v => Some {| name := name; value := v |}
               | None => None
               end) headers).
End RawHeaders.


(** ** JSON values and [JSON.stringify]

    Numbers are integers, and an object is given by its members in the
    order in which the engine enumerates them. [JSON_stringify] is the
    engine's on the values whose numbers are safe integers
    ([safe_integers] below), which the engine writes in plain decimal
    notation; it writes a larger number with an exponent, or cannot hold
    it, and the properties that rest on the text of a value are stated for
    safe integers. *)
#[warnings="-register-all"]
Inductive JSON : Type :=
| JNull
| JBool (b : bool)
| JNumber (z : Z)
| JString (s : string)
| JArray (items : list JSON)
| JObject (members : list (string * JSON)).

(** Truthiness of a value, as tested by [if (v)]. *)
Definition truthy (v : JSON) : bool :=
  match v with
  | JNull => false
  | JBool b => b
  | JNumber z => negb (Z.eqb z 0)
  | JString s => negb (String.eqb s "")
  | JArray _ | JObject _ => true
  end.

(** Truthiness of an optional string: [undefined] and [''] are falsy. *)
Definition truthy_string (o : option string) : bool :=
  match o with
  | Some s => negb (String.eqb s "")
  | None => false
  end.

(** [o || d] for an optional string [o] and a string [d]. *)
Definition js_or (o : option string) (d : string) : string :=
  match o with
  | Some s => if String.eqb s "" then d else s
  | None => d
  end.

Definition hex_digit (n : N) : ascii :=
  ascii_of_N (if (n <? 10)%N then 48 + n else 87 + n).

(** The escape [JSON.stringify] writes for one character of a string. *)
Definition escape_char (c : ascii) : string :=
  let n := N_of_ascii c in
  if (n =? 34)%N then "\" +:+ String c EmptyString
  else if (n =? 92)%N then "\\"
  else if (n =? 8)%N then "\b"
  else if (n =? 12)%N then "\f"
  else if (n =? 10)%N then "\n"
  else if (n =? 13)%N then "\r"
  else if (n =? 9)%N then "\t"
  else if (n <? 32)%N then
    "\u00" +:+ String (hex_digit (n / 16)) (String (hex_digit (n mod 16)) EmptyString)
  else String c EmptyString.

Fixpoint escape_chars (s : string) : string :=
  match s with
  | EmptyString => EmptyString
  | String c s' => escape_char c +:+ escape_chars s'
  end.

Definition dquote : string := String (ascii_of_N 34) EmptyString.

Definition quote (s : string) : string := dquote +:+ escape_chars s +:+ dquote.

Fixpoint JSON_stringify (v : JSON) : string :=
  match v with
  | JNull => "null"
  | JBool true => "true"
  | JBool false => "false"
  | JNumber z => String_of_Z z
  | JString s => quote s
  | JArray items => "[" +:+ join "," (map JSON_stringify items) +:+ "]"
  | JObject members =>
      "{" +:+ join "," (map (fun kv => quote (fst kv) +:+ ":" +:+ JSON_stringify (snd kv)) members)
          +:+ "}"
  end.

(** ** [URLSearchParams]: the application/x-www-form-urlencoded parser

    The parser decodes the names and the values as UTF-8 after the
    percent-decoding, substituting U+FFFD where the bytes are not UTF-8.
    The substitution is not modelled: [URLSearchParams] below is the
    engine's where every decoded name and value is well-formed UTF-8
    ([utf8_text] below), and the properties of a form body are stated
    there. *)

Fixpoint split_on (sep : ascii) (s : string) : list string :=
  match s with
  | EmptyString => [EmptyString]
  | String c s' =>
      if Ascii.eqb c sep then EmptyString :: split_on sep s'
      else match split_on sep s' with
           | [] => [String c EmptyString]
           | x :: xs => String c x :: xs
           end
  end.

(** The part before the first [sep] and the part after it, when there is one. *)
Fixpoint break_at (sep : ascii) (s : string) : option (string * string) :=
  match s with
  | EmptyString => None
  | String c s' =>
      if Ascii.eqb c sep then Some (EmptyString, s')
      else match break_at sep s' with
           | Some (before, after) => Some (String c before, after)
           | None => None
           end
  end.

Fixpoint plus_to_space (s : string) : string :=
  match s with
  | EmptyString => EmptyString
  | String c s' => String (if Ascii.eqb c "+" then " "%char else c) (plus_to_space s')
  end.

Definition hex_value (c : ascii) : option N :=
  let n := N_of_ascii c in
  if ((48 <=? n) && (n <=? 57))%N then Some (n - 48)%N
  else if ((65 <=? n) && (n <=? 70))%N then Some (n - 55)%N
  else if ((97 <=? n) && (n <=? 102))%N then Some (n - 87)%N
  else None.

Fixpoint percent_decode (s : string) : string :=
  match s with
  | EmptyString => EmptyString
  | String c s' =>
      if Ascii.eqb c "%" then
        match s' with
        | String a (String b rest) =>
            match hex_value a, hex_value b with
            | Some h, Some l => String (ascii_of_N (16 * h + l)) (percent_decode rest)
            | _, _ => String c (percent_decode s')
            end
        | _ => String c (percent_decode s')
        end
      else String c (percent_decode s')
  end.

Definition form_component (s : string) : string := percent_decode (plus_to_space s).

(** [new URLSearchParams(init).entries()] for a string [init]: a leading
    [?] is dropped, the rest is split on [&], empty pieces are skipped and
    each piece is split at its first [=]. *)
Definition URLSearchParams (init : string) : list (string * string) :=
  let input := match init with
               | String c rest => if Ascii.eqb c "?" then rest else init
               | EmptyString => init
               end in
  omap (fun piece =>
          if String.eqb piece "" then None
          else match break_at "=" piece with
               | Some (k, v) => Some (form_component k, form_component v)
               | None => Some (form_component piece, "")
               end)
       (split_on "&" input).

(** ** Buffers *)

Definition Buffer : Type := list Init.Byte.byte.

(** [Buffer.from(s, 'utf-8')]. *)
Definition Buffer_from_utf8 (s : string) : Buffer := list_byte_of_string s.

(** [buf.toString('utf-8')], for a buffer that holds well-formed UTF-8
    ([utf8_buffer] below); elsewhere the engine substitutes U+FFFD, which
    is not modelled. *)
Definition Buffer_toString_utf8 (b : Buffer) : string := string_of_list_byte b.

(** *** base64, as [buf.toString('base64')] writes it and
    [Buffer.from(s, 'base64')] reads it *)

Definition byte_of_N (n : N) : Init.Byte.byte :=
  match Byte.of_N n with
  | Some b => b
  | None => Init.Byte.x00
  end.

Definition base64_alphabet : string :=
  "ABCDEFGHIJKLMNOPQRSTUVWXYZabcdefghijklmnopqrstuvwxyz0123456789+/".

Definition base64_char (n : N) : ascii :=
  match String.get (N.to_nat n) base64_alphabet with
  | Some c => c
  | None => "="%char
  end.

(** The encoder: three bytes give four characters; a last group of one or
    two bytes is padded with [=]. *)
Fixpoint Buffer_toString_base64 (b : Buffer) : string :=
  match b with
  | [] => EmptyString
  | [x] =>
      let n := Byte.to_N x in
      String (base64_char (n / 4))
        (String (base64_char (n mod 4 * 16)) "==")
  | [x; y] =>
      let n := Byte.to_N x in
      let m := Byte.to_N y in
      String (base64_char (n / 4))
        (String (base64_char (n mod 4 * 16 + m / 16))
           (String (base64_char (m mod 16 * 4)) "="))
  | x :: y :: z :: rest =>
      let n := Byte.to_N x in
      let m := Byte.to_N y in
      let k := Byte.to_N z in
      String (base64_char (n / 4))
        (String (base64_char (n mod 4 * 16 + m / 16))
           (String (base64_char (m mod 16 * 4 + k / 64))
              (String (base64_char (k mod 64)) (Buffer_toString_base64 rest))))
  end%N.

(** The value of a character of the base64 alphabet; the decoder accepts the
    URL-safe characters [-] and [_] as well. *)
Definition base64_value (c : ascii) : option N :=
  let n := N_of_ascii c in
  if ((65 <=? n) && (n <=? 90))%N then Some (n - 65)%N
  else if ((97 <=? n) && (n <=? 122))%N then Some (n - 71)%N
  else if ((48 <=? n) && (n <=? 57))%N then Some (n + 4)%N
  else if ((n =? 43) || (n =? 45))%N then Some 62%N
  else if ((n =? 47) || (n =? 95))%N then Some 63%N
  else None.

(** The decoder reads up to the first [=] and skips the characters that are
    not in the alphabet (white space for instance). *)
Fixpoint base64_sextets (s : string) : list N :=
  match s with
  | EmptyString => []
  | String c s' =>
      if Ascii.eqb c "=" then []
      else match base64_value c with
           | Some v => v :: base64_sextets s'
           | None => base64_sextets s'
           end
  end.

Fixpoint bytes_of_sextets (l : list N) : Buffer :=
  match l with
  | a :: b :: c :: d :: rest =>
      byte_of_N (a * 4 + b / 16) :: byte_of_N (b mod 16 * 16 + c / 4)
        :: byte_of_N (c mod 4 * 64 + d) :: bytes_of_sextets rest
  | [a; b; c] => [byte_of_N (a * 4 + b / 16); byte_of_N (b mod 16 * 16 + c / 4)]
  | [a; b] => [byte_of_N (a * 4 + b / 16)]
  | _ => []
  end%N.

Definition Buffer_from_base64 (s : string) : Buffer :=
  bytes_of_sextets (base64_sextets s).

(** ** Request *)

Module Request.
(** [overrides.postData]: a [Buffer], or a string or another serializable
    value (a string is the [JString] case). *)
Inductive PostData : Type :=
| PostBuffer (b : Buffer)
| PostValue (v : JSON).

Record FallbackOverrides : Type := {
  fo_url : option string;
  fo_method : option string;
  fo_headers : option Headers;
  fo_postData : option PostData
}.

Record SerializedFallbackOverrides : Type := {
  url_override : option string;
  method_override : option string;
  headers_override : option Headers;
  postDataBuffer_override : option Buffer
}.

(** The fields of [channels.RequestInitializer] the class reads. A channel
    to another request is the address of that request in the store. *)
Record Initializer : Type := {
  init_url : string;
  init_resourceType : string;
  init_method : string;
  init_postData : option Buffer;
  init_headers : HeadersArray;
  init_isNavigationRequest : bool;
  init_redirectedFrom : option nat
}.

Record t : Type := mk {
  _initializer : Initializer;
  _redirectedFrom : option nat;
  _redirectedTo : option nat;
  _provisionalHeaders : RawHeaders.t;
  _fallbackOverrides : SerializedFallbackOverrides
}.

Definition no_overrides : SerializedFallbackOverrides :=
  {| url_override := None; method_override := None;
     headers_override := None; postDataBuffer_override := None |}.

Definition url (this : t) : string :=
  js_or (url_override (_fallbackOverrides this)) (init_url (_initializer this)).

Definition resourceType (this : t) : string := init_resourceType (_initializer this).

Definition method (this : t) : string :=
  js_or (method_override (_fallbackOverrides this)) (init_method (_initializer this)).

(** [postDataBuffer()]: a Buffer is an object and so truthy, even empty. *)
Definition postDataBuffer (this : t) : option Buffer :=
  match postDataBuffer_override (_fallbackOverrides this) with
  | Some b => Some b
  | None => init_postData (_initializer this)
  end.

Definition postData (this : t) : option string :=
  match postDataBuffer this with
  | Some b =>
      let s := Buffer_toString_utf8 b in
      if String.eqb s "" then None else Some s
  | None => None
  end.

Definition headers (this : t) : Headers :=
  match headers_override (_fallbackOverrides this) with
  | Some h => RawHeaders.headers (RawHeaders._fromHeadersObjectLossy h)
  | None => RawHeaders.headers (_provisionalHeaders this)
  end.

Definition isNavigationRequest (this : t) : bool :=
  init_isNavigationRequest (_initializer this).

Section PostDataJSON.
(** [JSON.parse] of the engine: [None] where it throws a SyntaxError. *)
Variable JSON_parse : string -> option JSON.

Definition postDataJSON (this : t) : Result JSON :=
  match postData this with
  | None => Ok JNull
  | Some postData =>
      let contentType := obj_get "content-type" (headers this) in
      if match contentType with
         | Some ct => includes "application/x-www-form-urlencoded" ct
         | None => false
         end
      then
        let entries :=
          fold_left (fun entries kv => obj_set (fst kv) (snd kv) entries)
                    (URLSearchParams postData) [] in
        Ok (JObject (map (fun kv => (fst kv, JString (snd kv))) entries))
      else
        match JSON_parse postData with
        | Some v => Ok v
        | None => Throw (MalformedPostData postData)
        end
  end.
End PostDataJSON.

Definition with_overrides (this : t) (o : SerializedFallbackOverrides) : t :=
  {| _initializer := _initializer this;
     _redirectedFrom := _redirectedFrom this;
     _redirectedTo := _redirectedTo this;
     _provisionalHeaders := _provisionalHeaders this;
     _fallbackOverrides := o |}.

Definition _applyFallbackOverrides (this : t) (overrides : FallbackOverrides) : t :=
  let o := _fallbackOverrides this in
  with_overrides this
    {| url_override :=
         if truthy_string (fo_url overrides) then fo_url overrides else url_override o;
       method_override :=
         if truthy_string (fo_method overrides) then fo_method overrides
         else method_override o;
       headers_override :=
         match fo_headers overrides with
         | Some h => Some h
         | None => headers_override o
         end;
       postDataBuffer_override :=
         match fo_postData overrides with
         | Some (PostValue (JString s)) => Some (Buffer_from_utf8 s)
         | Some (PostBuffer b) => Some b
         | Some (PostValue v) =>
             if truthy v then Some (Buffer_from_utf8 (JSON_stringify v))
             else postDataBuffer_override o
         | None => postDataBuffer_override o
         end |}.

Definition _fallbackOverridesForContinue (this : t) : SerializedFallbackOverrides :=
  _fallbackOverrides this.

(** *** The store of Request objects

    Requests refer to each other, and the constructor writes into an
    existing one: the objects live in a store, addressed by position. *)
Abbreviation Store := (list t).

Definition set_redirectedTo (r : t) (to : option nat) : t :=
  {| _initializer := _initializer r;
     _redirectedFrom := _redirectedFrom r;
     _redirectedTo := to;
     _provisionalHeaders := _provisionalHeaders r;
     _fallbackOverrides := _fallbackOverrides r |}.

(** The object the constructor makes. *)
Definition fresh (initializer : Initializer) : t :=
  {| _initializer := initializer;
     _redirectedFrom := init_redirectedFrom initializer;
     _redirectedTo := None;
     _provisionalHeaders := RawHeaders.new (init_headers initializer);
     _fallbackOverrides := no_overrides |}.

(** The constructor: the new object is allocated at the end of the store,
    and the request it is redirected from, if any, is made to point to it. *)
Definition new (st : Store) (initializer : Initializer) : Store * nat :=
  let this := length st in
  let st1 := st ++ [fresh initializer] in
  match init_redirectedFrom initializer with
  | Some from =>
      (match st1 !! from with
       | Some r => <[from := set_redirectedTo r (Some this)]> st1
       | None => st1
       end, this)
  | None => (st1, this)
  end.

Definition redirectedFrom (st : Store) (this : nat) : option nat :=
  r ← st !! this; _redirectedFrom r.

Definition redirectedTo (st : Store) (this : nat) : option nat :=
  r ← st !! this; _redirectedTo r.

(** [_finalRequest]: the recursion follows [_redirectedTo]; [fuel] bounds
    its depth, and [None] is the recursion that does not end within it. *)
Fixpoint _finalRequest_within (fuel : nat) (st : Store) (this : nat) : option nat :=
  match fuel with
  | O => None
  | S fuel' =>
      match redirectedTo st this with
      | Some to => _finalRequest_within fuel' st to
      | None => Some this
      end
  end.

Definition _finalRequest (st : Store) (this : nat) : option nat :=
  _finalRequest_within (length st) st this.
End Request.

(** ** WebSocketRoute *)

Module WebSocketRoute.
(** A message given to [send] or to a message handler: [string | Buffer]. *)
Inductive Message : Type :=
| Text (s : string)
| Binary (b : Buffer).

(** The payload of the [messageFromPage] and [messageFromServer] events and
    of the [sendToPage] and [sendToServer] commands. *)
Record Frame : Type := { message : string; isBase64 : bool }.

Record CloseParams : Type := {
  code : option Z;
  reason : option string;
  wasClean : bool
}.

Record CloseOptions : Type := { opt_code : option Z; opt_reason : option string }.

(** The commands issued on [this._channel]; their rejections are discarded
    by the [.catch(() => {})] that follows each of them. *)
Inductive Command : Type :=
| sendToServer (f : Frame)
| sendToPage (f : Frame)
| closeServer (c : CloseParams)
| closePage (c : CloseParams)
| connect
| ensureOpened.

(** A user callback is known by its identity only; calling it is an effect
    of the event handler, like issuing a command. *)
Definition Callback : Type := nat.

Inductive Effect : Type :=
| Issue (c : Command)
| CallOnMessage (handler : Callback) (m : Message)
| CallOnClose (handler : Callback) (code : option Z) (reason : option string).

Record t : Type := mk {
  url : string;
  _onPageMessage : option Callback;
  _onPageClose : option Callback;
  _onServerMessage : option Callback;
  _onServerClose : option Callback;
  _connected : bool
}.

(** The object as the constructor leaves it. *)
Definition new (url : string) : t :=
  {| url := url; _onPageMessage := None; _onPageClose := None;
     _onServerMessage := None; _onServerClose := None; _connected := false |}.

(** [isString(message) ? { message, isBase64: false }
     : { message: message.toString('base64'), isBase64: true }] *)
Definition frame_of (m : Message) : Frame :=
  match m with
  | Text s => {| message := s; isBase64 := false |}
  | Binary b => {| message := Buffer_toString_base64 b; isBase64 := true |}
  end.

(** [isBase64 ? Buffer.from(message, 'base64') : message] *)
Definition payload_of (f : Frame) : Message :=
  if isBase64 f then Binary (Buffer_from_base64 (message f)) else Text (message f).

(** *** The channel event handlers installed by the constructor *)

Definition on_messageFromPage (this : t) (f : Frame) : list Effect :=
  match _onPageMessage this with
  | Some handler => [CallOnMessage handler (payload_of f)]
  | None => if _connected this then [Issue (sendToServer f)] else []
  end.

Definition on_messageFromServer (this : t) (f : Frame) : list Effect :=
  match _onServerMessage this with
  | Some handler => [CallOnMessage handler (payload_of f)]
  | None => [Issue (sendToPage f)]
  end.

Definition on_closePage (this : t) (c : CloseParams) : list Effect :=
  match _onPageClose this with
  | Some handler => [CallOnClose handler (code c) (reason c)]
  | None => [Issue (closeServer c)]
  end.

Definition on_closeServer (this : t) (c : CloseParams) : list Effect :=
  match _onServerClose this with
  | Some handler => [CallOnClose handler (code c) (reason c)]
  | None => [Issue (closePage c)]
  end.

(** *** The page-side methods *)

Definition close (this : t) (options : CloseOptions) : list Effect :=
  [Issue (closePage {| code := opt_code options; reason := opt_reason options;
                       wasClean := true |})].

Definition connectToServer (this : t) : Result (t * list Effect) :=
  if _connected this then Throw AlreadyConnected
  else Ok ({| url := url this; _onPageMessage := _onPageMessage this;
              _onPageClose := _onPageClose this;
              _onServerMessage := _onServerMessage this;
              _onServerClose := _onServerClose this; _connected := true |},
           [Issue connect]).

Definition send (this : t) (m : Message) : list Effect :=
  [Issue (sendToPage (frame_of m))].

Definition onMessage (this : t) (handler : Callback) : t :=
  {| url := url this; _onPageMessage := Some handler; _onPageClose := _onPageClose this;
     _onServerMessage := _onServerMessage this; _onServerClose := _onServerClose this;
     _connected := _connected this |}.

Definition onClose (this : t) (handler : Callback) : t :=
  {| url := url this; _onPageMessage := _onPageMessage this; _onPageClose := Some handler;
     _onServerMessage := _onServerMessage this; _onServerClose := _onServerClose this;
     _connected := _connected this |}.

Definition _afterHandle (this : t) : list Effect :=
  if _connected this then [] else [Issue ensureOpened].

(** *** The methods of [this._server], the server-side control object *)

Definition server_onMessage (this : t) (handler : Callback) : t :=
  {| url := url this; _onPageMessage := _onPageMessage this;
     _onPageClose := _onPageClose this;
     _onServerMessage := Some handler; _onServerClose := _onServerClose this;
     _connected := _connected this |}.

Definition server_onClose (this : t) (handler : Callback) : t :=
  {| url := url this; _onPageMessage := _onPageMessage this;
     _onPageClose := _onPageClose this;
     _onServerMessage := _onServerMessage this; _onServerClose := Some handler;
     _connected := _connected this |}.

Definition server_close (this : t) (options : CloseOptions) : list Effect :=
  [Issue (closeServer {| code := opt_code options; reason := opt_reason options;
                         wasClean := true |})].

Definition server_send (this : t) (m : Message) : list Effect :=
  [Issue (sendToServer (frame_of m))].
End WebSocketRoute.

(** ** Route *)

Module Route.
(** What [fulfill] reads of an [APIResponse] (client/fetch.ts):
    [status()], [headers()], whether
    [response._request._connection === this._connection], [_fetchUid()]
    and the outcome of [await response.body()]. *)
Record APIResponse : Type := {
  response_status : Z;
  response_headers : Headers;
  response_sameConnection : bool;
  response_fetchUid : string;
  response_body : Result Buffer
}.

Inductive Body : Type :=
| BodyString (s : string)
| BodyBuffer (b : Buffer).

Record FulfillOptions : Type := {
  response : option APIResponse;
  status : option Z;
  headers : option Headers;
  contentType : option string;
  body : option Body;
  json : option JSON;
  path : option string
}.

(** The parameters of the [fulfill] command. *)
Record FulfillParams : Type := {
  fulfill_status : Z;
  fulfill_headers : HeadersArray;
  fulfill_body : option string;
  fulfill_isBase64 : bool;
  fulfill_fetchResponseUid : option string
}.

(** The parameters of the [continue] command. *)
Record ContinueParams : Type := {
  continue_url : option string;
  continue_method : option string;
  continue_headers : option HeadersArray;
  continue_postData : option Buffer;
  continue_isFallback : bool
}.

Inductive Command : Type :=
| CmdAbort (errorCode : option string)
| CmdRedirectNavigationRequest (url : string)
| CmdFulfill (params : FulfillParams)
| CmdContinue (params : ContinueParams).

(** The collaborators that are not part of the class: the file system of
    the platform, [getMimeTypeForPath] and [headersObjectToArray]. *)
Record Environment : Type := {
  readFile : string -> Result Buffer;
  getMimeTypeForPath : string -> option string;
  headersObjectToArray : Headers -> HeadersArray
}.

(** The Route object. [_handlingPromise] holds the ManualPromise made by
    [_startHandling], known by its position among the promises made. *)
Record t : Type := mk {
  _handlingPromise : option nat;
  _didThrow : bool
}.

(** What the methods of a Route act on: the Route itself, the Request it
    belongs to (whose overrides [continue] and [fallback] change), the
    ManualPromises made so far with the value each was resolved with, and
    the commands issued on the channel, oldest first. *)
Record World : Type := {
  route : t;
  request : Request.t;
  promises : list (option bool);
  channel : list Command
}.

(** The state and error monad of the methods. *)
Definition M (A : Type) : Type := World -> Result A * World.

Definition ret {A} (a : A) : M A := fun w => (Ok a, w).
Definition throw {A} (e : Error) : M A := fun w => (Throw e, w).
Definition bind {A B} (m : M A) (k : A -> M B) : M B :=
  fun w => match m w with
           | (Ok a, w') => k a w'
           | (Throw e, w') => (Throw e, w')
           end.
(** [try { m } catch (e) { handler(e) }] *)
Definition try_catch {A} (m : M A) (handler : Error -> M A) : M A :=
  fun w => match m w with
           | (Ok a, w') => (Ok a, w')
           | (Throw e, w') => handler e w'
           end.
Definition modify (f : World -> World) : M unit := fun w => (Ok tt, f w).
Definition of_result {A} (r : Result A) : M A := fun w => (r, w).

Notation "'let*' x := m 'in' k" := (bind m (fun x => k))
  (at level 10, x name, m at level 100, k at level 200).
Notation "m >> k" := (bind m (fun _ => k))
  (at level 100, k at level 200, right associativity).

Definition set_route (r : t) (w : World) : World :=
  {| route := r; request := request w; promises := promises w; channel := channel w |}.

Definition set_request (r : Request.t) (w : World) : World :=
  {| route := route w; request := r; promises := promises w; channel := channel w |}.

(** [this._channel.<command>(...)]: the command leaves at the call. *)
Definition issue (c : Command) : M unit :=
  modify (fun w => {| route := route w; request := request w; promises := promises w;
                      channel := channel w ++ [c] |}).

(** [ManualPromise.resolve]: a promise that is settled stays as it is. *)
Definition resolve (chain : nat) (done : bool) (w : World) : World :=
  {| route := route w; request := request w;
     promises := match promises w !! chain with
                 | Some None => <[chain := Some done]> (promises w)
                 | _ => promises w
                 end;
     channel := channel w |}.

(** [_startHandling]: a new ManualPromise, which the caller awaits. *)
Definition _startHandling : M nat :=
  fun w =>
    let chain := length (promises w) in
    (Ok chain,
     {| route := {| _handlingPromise := Some chain; _didThrow := _didThrow (route w) |};
        request := request w;
        promises := promises w ++ [None];
        channel := channel w |}).

Definition _checkNotHandled : M unit :=
  fun w => match _handlingPromise (route w) with
           | Some _ => (Ok tt, w)
           | None => (Throw AlreadyHandled, w)
           end.

(** [_reportHandled]: [chain.resolve(done)] on a null [chain] is the
    engine's TypeError, raised after [_handlingPromise] was set to null. *)
Definition _reportHandled (done : bool) : M unit :=
  fun w => match _handlingPromise (route w) with
           | Some chain =>
               (Ok tt,
                resolve chain done
                  (set_route {| _handlingPromise := None; _didThrow := _didThrow (route w) |} w))
           | None =>
               (Throw TypeError,
                set_route {| _handlingPromise := None; _didThrow := _didThrow (route w) |} w)
           end.

Definition applyFallbackOverrides (options : Request.FallbackOverrides) : M unit :=
  modify (fun w => set_request (Request._applyFallbackOverrides (request w) options) w).

(** [fallback] has no await: it runs to its end at the call. *)
Definition fallback (options : Request.FallbackOverrides) : M unit :=
  _checkNotHandled >>
  applyFallbackOverrides options >>
  _reportHandled false.

Definition set_didThrow (b : bool) (w : World) : World :=
  set_route {| _handlingPromise := _handlingPromise (route w); _didThrow := b |} w.

Section WithEnvironment.
Variable env : Environment.

(** [headers[header.toLowerCase()] = String(headersOption[header])] *)
Definition set_given_header (given headers : Headers) (header : string) : Headers :=
  obj_set (toLowerCase header) (Some (default "undefined" (obj_get header given))) headers.

(** The [headers] object [_innerFulfill] builds from the headers option
    (the caller's, or those of the response), the options and the
    length of the body. *)
Definition fulfill_headers_object
    (options : FulfillOptions) (headersOption : option Headers) (length : nat) : Headers :=
  let given := default [] headersOption in
  let headers0 := fold_left (set_given_header given) (obj_keys given) [] in
  let headers1 :=
    if truthy_string (contentType options) then
      obj_set "content-type" (Some (default "" (contentType options))) headers0
    else if match json options with Some j => truthy j | None => false end then
      obj_set "content-type" (Some "application/json") headers0
    else if truthy_string (path options) then
      obj_set "content-type"
        (Some (js_or (getMimeTypeForPath env (default "" (path options)))
                     "application/octet-stream")) headers0
    else headers0 in
  if negb (Nat.eqb length 0) && negb (obj_has "content-length" headers1)
  then obj_set "content-length" (Some (String_of_N (N.of_nat length))) headers1
  else headers1.

(** [_innerFulfill] up to its last statement: the parameters of the
    [fulfill] command, or the error thrown on the way (the assertion, or
    a rejected read of the response body or of the file). *)
Definition fulfill_params (options : FulfillOptions) : Result FulfillParams :=
  (* if (options.json !== undefined) *)
  match (match json options with
         | Some j =>
             match body options with
             | Some _ => Throw AmbiguousFulfillOptions
             | None => Ok (Some (BodyString (JSON_stringify j)))
             end
         | None => Ok (body options)
         end) with
  | Throw e => Throw e
  | Ok body1 =>
      (* if (options.response instanceof APIResponse) *)
      match (match response options with
             | Some r =>
                 let statusOption :=
                   match status options with
                   | Some s => Some s
                   | None => Some (response_status r)
                   end in
                 let headersOption :=
                   match headers options with
                   | Some h => Some h
                   | None => Some (response_headers r)
                   end in
                 match body1, path options with
                 | None, None =>
                     if response_sameConnection r
                     then Ok (statusOption, headersOption, body1, Some (response_fetchUid r))
                     else match response_body r with
                          | Ok b => Ok (statusOption, headersOption, Some (BodyBuffer b), None)
                          | Throw e => Throw e
                          end
                 | _, _ => Ok (statusOption, headersOption, body1, None)
                 end
             | None => Ok (status options, headers options, body1, None)
             end) with
      | Throw e => Throw e
      | Ok (statusOption, headersOption, body2, fetchResponseUid) =>
          (* if (options.path) ... else if (isString(body)) ... else if (body) *)
          match (if truthy_string (path options) then
                   match readFile env (default "" (path options)) with
                   | Ok buffer => Ok (Some (Buffer_toString_base64 buffer), true, length buffer)
                   | Throw e => Throw e
                   end
                 else match body2 with
                      | Some (BodyString s) => Ok (Some s, false, String.length s)
                      | Some (BodyBuffer b) => Ok (Some (Buffer_toString_base64 b), true, length b)
                      | None => Ok (None, false, 0)
                      end) with
          | Throw e => Throw e
          | Ok (body3, isBase64, length) =>
              Ok {| fulfill_status :=
                      match statusOption with
                      | Some s => if Z.eqb s 0 then 200%Z else s
                      | None => 200%Z
                      end;
                    fulfill_headers :=
                      headersObjectToArray env
                        (fulfill_headers_object options headersOption length);
                    fulfill_body := body3;
                    fulfill_isBase64 := isBase64;
                    fulfill_fetchResponseUid := fetchResponseUid |}
          end
      end
  end.

Definition _innerFulfill (options : FulfillOptions) : M unit :=
  let* params := of_result (fulfill_params options) in
  issue (CmdFulfill params).

Definition _innerContinue (isFallback : bool) : M unit :=
  fun w =>
    let options := Request._fallbackOverridesForContinue (request w) in
    issue (CmdContinue
             {| continue_url := Request.url_override options;
                continue_method := Request.method_override options;
                continue_headers :=
                  match Request.headers_override options with
                  | Some h => Some (headersObjectToArray env h)
                  | None => None
                  end;
                continue_postData := Request.postDataBuffer_override options;
                continue_isFallback := isFallback |}) w.

(** The resolving methods that go through [_handleRoute]. *)
Inductive Call : Type :=
| abort (errorCode : option string)
| _redirectNavigationRequest (url : string)
| fulfill (options : FulfillOptions)
| continue (options : Request.FallbackOverrides).

(** The callback a method hands to [_handleRoute], run up to the point
    where it awaits the reply to its command. What the callback reads
    before the command (the file, the body of the response) is read at
    the call: the command of a [fulfill] that reads leaves at the call
    here, and only once the read is over in the source, where other calls
    can run in between. The outcome of the calls and the promises do not
    depend on it; what is said of the channel is said of schedules in
    which this makes no difference. *)
Definition callback (c : Call) : M unit :=
  match c with
  | abort errorCode => issue (CmdAbort errorCode)
  | _redirectNavigationRequest url => issue (CmdRedirectNavigationRequest url)
  | fulfill options => _innerFulfill options
  | continue options => applyFallbackOverrides options >> _innerContinue false
  end.

(** A call of a resolving method is an async function: it runs to its
    first await when it is called and from there when the awaited promise
    settles. [Pending failed] is a call suspended in [await callback()],
    [failed] holding the error of a callback that threw before any
    command; [Settled r] is a call that returned or threw. *)
Inductive CallState : Type :=
| Pending (failed : option Error)
| Settled (r : Result unit).

(** [_handleRoute] from its start to [await callback()]. *)
Definition _handleRoute_begin (c : Call) (w : World) : CallState * World :=
  match _checkNotHandled w with
  | (Throw e, w1) => (Settled (Throw e), w1)
  | (Ok _, w1) =>
      match callback c w1 with
      | (Ok _, w2) => (Pending None, w2)
      | (Throw e, w2) => (Pending (Some e), w2)
      end
  end.

(** [_handleRoute] from the point where [await callback()] settles, with
    [outcome] the way it settled: the command was answered (or the
    target was closed first, which [safeRace] turns into a plain
    return), or the callback threw. *)
Definition _handleRoute_resume (outcome : Result unit) : M unit :=
  try_catch (of_result outcome >> _reportHandled true)
            (fun e => modify (set_didThrow true) >> throw e).

(** *** Schedules

    The events of a Route under cooperative scheduling: a resolving
    method is called, the reply to the command of a suspended call
    arrives, or the dispatcher starts a handler on the Route. Calls are
    numbered in the order they are made. *)
Inductive Event : Type :=
| Invoke (c : Call)
| InvokeFallback (options : Request.FallbackOverrides)
| Reply (call : nat) (r : Result unit)
| StartHandling.

Record Run : Type := { world : World; calls : list CallState }.

Definition step (run : Run) (ev : Event) : Run :=
  match ev with
  | Invoke c =>
      let '(state, w) := _handleRoute_begin c (world run) in
      {| world := w; calls := calls run ++ [state] |}
  | InvokeFallback options =>
      let '(r, w) := fallback options (world run) in
      {| world := w; calls := calls run ++ [Settled r] |}
  | Reply i r =>
      match calls run !! i with
      | Some (Pending failed) =>
          let outcome := match failed with Some e => Throw e | None => r end in
          let '(res, w) := _handleRoute_resume outcome (world run) in
          {| world := w; calls := <[i := Settled res]> (calls run) |}
      | _ => run
      end
  | StartHandling =>
      {| world := snd (_startHandling (world run)); calls := calls run |}
  end.

Definition exec (run : Run) (events : list Event) : Run :=
  fold_left step events run.

(** A resolving call that is awaited before anything else happens:
    [await route.abort()] and the like, with the reply its command gets. *)
Inductive Awaited : Type :=
| AwaitCall (c : Call) (reply : Result unit)
| AwaitFallback (options : Request.FallbackOverrides).

Fixpoint sequential (next : nat) (script : list Awaited) : list Event :=
  match script with
  | [] => []
  | AwaitCall c reply :: rest => Invoke c :: Reply next reply :: sequential (S next) rest
  | AwaitFallback options :: rest => InvokeFallback options :: sequential (S next) rest
  end.
End WithEnvironment.

(** A Route as its constructor leaves it, for the Request [r]. *)
Definition new (r : Request.t) : World :=
  {| route := {| _handlingPromise := None; _didThrow := false |};
     request := r; promises := []; channel := [] |}.

(** A Route as a handler receives it: [_startHandling] was called. *)
Definition handed_over (r : Request.t) : World := snd (_startHandling (new r)).
End Route.

(** ** RouteHandler *)

Module RouteHandler.
Definition MAX_SAFE_INTEGER : Z := 9007199254740991.

Record t : Type := mk {
  handledCount : Z;
  _times : Z;
  _ignoreException : bool
}.

(** The constructor; [times] defaults to [Number.MAX_SAFE_INTEGER]. *)
Definition new (times : option Z) : t :=
  {| handledCount := 0;
     _times := default MAX_SAFE_INTEGER times;
     _ignoreException := false |}.

Definition willExpire (this : t) : bool :=
  (handledCount this + 1 >=? _times this)%Z.

(** [_handleInternal] up to the call of the user's handler:
    [++this.handledCount] and [route._startHandling()]. The result holds
    the handler, the promise the invocation awaits and the Route. *)
Definition _handleInternal_begin (this : t) (w : Route.World) : t * Result nat * Route.World :=
  let this' := {| handledCount := handledCount this + 1;
                  _times := _times this;
                  _ignoreException := _ignoreException this |} in
  let '(handledPromise, w') := Route._startHandling w in
  (this', handledPromise, w').

(** [stop('ignoreErrors')]. *)
Definition stop_ignoreErrors (this : t) : t :=
  {| handledCount := handledCount this; _times := _times this; _ignoreException := true |}.
End RouteHandler.

(** Modelled from the spec: the dispatcher ([_onRoute] of the page and of the
    browser context is not among the sources). For a request that a
    registered handler matches, [willExpire()] is "checked before starting a
    new invocation so handlers can be safely removed": the handler is taken
    off the registered ones when it holds, and then the invocation starts.
    One handler is registered here and every request matches it. *)
Module Dispatcher.
Record t : Type := {
  registered : option RouteHandler.t;
  started : nat   (* the invocations of the handler started so far *)
}.

Definition register (h : RouteHandler.t) : t :=
  {| registered := Some h; started := 0 |}.

Definition onRoute (d : t) (w : Route.World) : t :=
  match registered d with
  | Some h =>
      {| registered :=
           if RouteHandler.willExpire h then None
           else Some (fst (fst (RouteHandler._handleInternal_begin h w)));
         started := S (started d) |}
  | None => d
  end.

Definition onRoutes (d : t) (ws : list Route.World) : t := fold_left onRoute ws d.
End Dispatcher.

(** ** Vocabulary of the properties *)

(** A POST request with a form body, used where a property is run on a
    concrete request. *)
Definition form_request : Request.t :=
  Request.fresh
         {| Request.init_url := "http://localhost/submit";
            Request.init_resourceType := "fetch";
            Request.init_method := "POST";
            Request.init_postData := Some (Buffer_from_utf8 "a=1&b=2");
            Request.init_headers :=
              [ {| name := "Content-Type"; value := "application/x-www-form-urlencoded" |} ];
            Request.init_isNavigationRequest := false;
            Request.init_redirectedFrom := None |}.

(** The handler after it was started on each of the Routes [ws] in turn. *)
Definition started_on (h : RouteHandler.t) (ws : list Route.World) : RouteHandler.t :=
  fold_left (fun h w => fst (fst (RouteHandler._handleInternal_begin h w))) ws h.

(** The values indexed under a key are those of the headers whose
    lower-cased name is the key, in array order. *)
Definition values_named (key : string) (headers : HeadersArray) : list string :=
  map value (List.filter (fun header => String.eqb (toLowerCase (name header)) key) headers).

Definition newline : string := String "010" EmptyString.

(** Linear arithmetic with division and remainder by constants. *)
Ltac div_lia := zify; Z.to_euclidean_division_equations; lia.

(** A leg with no handler: neither [onMessage] nor [onClose] was called on it. *)
Definition page_leg_unclaimed (this : WebSocketRoute.t) : Prop :=
  WebSocketRoute._onPageMessage this = None /\ WebSocketRoute._onPageClose this = None.

Definition server_leg_unclaimed (this : WebSocketRoute.t) : Prop :=
  WebSocketRoute._onServerMessage this = None /\ WebSocketRoute._onServerClose this = None.

(** The stores of Request objects that the constructor builds: a request is
    redirected from a request that exists when it is made. *)
Inductive created : Request.Store -> Prop :=
| created_empty : created []
| created_new (st : Request.Store) (initializer : Request.Initializer) :
    created st ->
    (forall from, Request.init_redirectedFrom initializer = Some from -> from < length st) ->
    created (fst (Request.new st initializer)).

(** [follows st this tail]: [tail] is where following [redirectedTo] from
    [this] arrives at a request that is not redirected. *)
Inductive follows (st : Request.Store) : nat -> nat -> Prop :=
| follows_end (this : nat) :
    Request.redirectedTo st this = None -> follows st this this
| follows_redirect (this to tail : nat) :
    Request.redirectedTo st this = Some to -> follows st to tail -> follows st this tail.

(** An initializer of a request redirected from [from]. *)
Definition redirect_initializer (url : string) (from : option nat) : Request.Initializer :=
  {| Request.init_url := url;
     Request.init_resourceType := "document";
     Request.init_method := "GET";
     Request.init_postData := None;
     Request.init_headers := [];
     Request.init_isNavigationRequest := true;
     Request.init_redirectedFrom := from |}.

(** The chain A -> B -> C: A at 0, B at 1, C at 2. *)
Definition chain_ABC : Request.Store :=
  let '(st, A) := Request.new [] (redirect_initializer "http://localhost/a" None) in
  let '(st, B) := Request.new st (redirect_initializer "http://localhost/b" (Some A)) in
  let '(st, C) := Request.new st (redirect_initializer "http://localhost/c" (Some B)) in
  st.





(** A request captured with an empty body, and with no overrides. *)
Definition bodiless_request : Request.t :=
  Request.fresh
    {| Request.init_url := "http://localhost/submit";
       Request.init_resourceType := "fetch";
       Request.init_method := "POST";
       Request.init_postData := Some [];
       Request.init_headers := [];
       Request.init_isNavigationRequest := false;
       Request.init_redirectedFrom := None |}.


(** The header store a request answers from: the overriding headers when
    there are some, and else the headers it was captured with. *)
Definition effective_headers (this : Request.t) : RawHeaders.t :=
  match Request.headers_override (Request._fallbackOverrides this) with
  | Some h => RawHeaders._fromHeadersObjectLossy h
  | None => Request._provisionalHeaders this
  end.

(** The content-type header includes application/x-www-form-urlencoded. *)
Definition form_urlencoded (this : Request.t) : bool :=
  match RawHeaders.get (effective_headers this) "content-type" with
  | Some contentType => includes "application/x-www-form-urlencoded" contentType
  | None => false
  end.

(** The own property [key] of an object. *)
Fixpoint obj_lookup {V} (key : string) (o : JSObject V) : option V :=
  match o with
  | [] => None
  | (k, v) :: o' => if String.eqb k key then Some v else obj_lookup key o'
  end.

(** The value of the last pair of name [key]. *)
Fixpoint last_value (key : string) (pairs : list (string * string)) : option string :=
  match pairs with
  | [] => None
  | (k, v) :: rest =>
      match last_value key rest with
      | Some v' => Some v'
      | None => if String.eqb k key then Some v else None
      end
  end.

(** The body of the JSON example, [{"a":1}]. *)
Definition json_body : string := "{" +:+ dquote +:+ "a" +:+ dquote +:+ ":1}".

(** [JSON.parse] on the two bodies of the examples: it returns the object
    [{a: 1}] for [json_body] and throws for "not json". *)
Definition JSON_parse_examples (s : string) : option JSON :=
  if String.eqb s json_body then Some (JObject [("a", JNumber 1)]) else None.

(** A request with the body [body] and no content-type header. *)
Definition plain_request (body : string) : Request.t :=
  Request.fresh
    {| Request.init_url := "http://localhost/submit";
       Request.init_resourceType := "fetch";
       Request.init_method := "POST";
       Request.init_postData := Some (Buffer_from_utf8 body);
       Request.init_headers := [];
       Request.init_isNavigationRequest := false;
       Request.init_redirectedFrom := None |}.

(** The last of [names] whose lower-cased form is [key]. *)
Fixpoint last_named (key : string) (names : list string) : option string :=
  match names with
  | [] => None
  | n :: rest =>
      match last_named key rest with
      | Some n' => Some n'
      | None => if String.eqb (toLowerCase n) key then Some n else None
      end
  end.

(** The value a headers option gives to the header [key], as the string
    [fulfill] makes of it; [None] when the option does not name the header. *)
Definition given_header (key : string) (headersOption : option Headers) : option string :=
  (fun n => default "undefined" (obj_get n (default [] headersOption)))
    <$> last_named key (obj_keys (default [] headersOption)).

(** The headers option in effect in [fulfill]: the caller's, or else the
    headers of the response that is passed on. *)
Definition headers_in_effect (options : Route.FulfillOptions) : option Headers :=
  match Route.headers options with
  | Some h => Some h
  | None => Route.response_headers <$> Route.response options
  end.


(** An environment to run examples in: no file can be read, no mime type is
    known, and a headers object is listed entry by entry. *)
Definition example_env : Route.Environment :=
  {| Route.readFile := fun _ => Throw (ChannelError "ENOENT");
     Route.getMimeTypeForPath := fun _ => None;
     Route.headersObjectToArray :=
       omap (fun kv => (fun v => {| name := fst kv; value := v |}) <$> snd kv) |}.


(** A response with status 404 received on another connection. *)
Definition not_found_response : Route.APIResponse :=
  {| Route.response_status := 404;
     Route.response_headers := [("content-type", Some "text/plain")];
     Route.response_sameConnection := false;
     Route.response_fetchUid := "fetch@1";
     Route.response_body := Ok (Buffer_from_utf8 "Not Found") |}.


(** [fulfill({ json: {a: 1}, path: 'page.html' })], and an environment where
    that file holds "hi" and has the mime type text/html. *)
Definition fulfill_json_path_options : Route.FulfillOptions :=
  {| Route.response := None; Route.status := None; Route.headers := None;
     Route.contentType := None; Route.body := None;
     Route.json := Some (JObject [("a", JNumber 1)]); Route.path := Some "page.html" |}.

Definition page_env : Route.Environment :=
  {| Route.readFile := fun _ => Ok (Buffer_from_utf8 "hi");
     Route.getMimeTypeForPath := fun _ => Some "text/html";
     Route.headersObjectToArray := Route.headersObjectToArray example_env |}.

(** [fulfill({ json: 0 })]. *)
Definition fulfill_json_zero_options : Route.FulfillOptions :=
  {| Route.response := None; Route.status := None; Route.headers := None;
     Route.contentType := None; Route.body := None;
     Route.json := Some (JNumber 0); Route.path := None |}.


(** A schedule starts with no call made. *)
Definition no_calls (w : Route.World) : Route.Run :=
  {| Route.world := w; Route.calls := [] |}.

(** An awaited call from its start to its end, and a script of them. *)
Definition await_one (env : Route.Environment) (a : Route.Awaited) (w : Route.World)
    : Result unit * Route.World :=
  match a with
  | Route.AwaitCall c reply =>
      match Route._handleRoute_begin env c w with
      | (Route.Settled r, w1) => (r, w1)
      | (Route.Pending failed, w1) =>
          Route._handleRoute_resume
            (match failed with Some e => Throw e | None => reply end) w1
      end
  | Route.AwaitFallback options => Route.fallback options w
  end.

Fixpoint await_all (env : Route.Environment) (script : list Route.Awaited) (w : Route.World)
    : list (Result unit) * Route.World :=
  match script with
  | [] => ([], w)
  | a :: rest =>
      let '(r, w1) := await_one env a w in
      let '(rs, w2) := await_all env rest w1 in
      (r :: rs, w2)
  end.

(** The command of an awaited call does not fail: the callback does not
    throw and the reply is not a rejection. A [fallback] has no command. *)
Definition command_succeeds (env : Route.Environment) (a : Route.Awaited) (w : Route.World)
    : Prop :=
  match a with
  | Route.AwaitCall c reply => fst (Route.callback env c w) = Ok tt /\ reply = Ok tt
  | Route.AwaitFallback _ => True
  end.

(** The error with which a call rejects when its command fails: the error
    the callback throws, or else the rejection of the reply. *)
Definition command_failure (env : Route.Environment) (c : Route.Call) (reply : Result unit)
    (w : Route.World) : option Error :=
  match fst (Route.callback env c w) with
  | Throw e => Some e
  | Ok _ => match reply with Throw e => Some e | Ok _ => None end
  end.

(** Two [abort()] made one after the other before any reply, then the
    replies. *)
Definition concurrent_aborts : list Route.Event :=
  [ Route.Invoke (Route.abort None); Route.Invoke (Route.abort None);
    Route.Reply 0 (Ok tt); Route.Reply 1 (Ok tt) ].

(** An [abort()] whose command is rejected, awaited, then a second
    [abort()]. *)
Definition abort_after_rejected_abort : list Route.Event :=
  [ Route.Invoke (Route.abort None); Route.Reply 0 (Throw (ChannelError "net::ERR_FAILED"));
    Route.Invoke (Route.abort None) ].

(** [await route.abort()], [await route.continue()], [await
    route.fallback()], each command answered. *)
Definition three_awaited_calls : list Route.Awaited :=
  [ Route.AwaitCall (Route.abort None) (Ok tt);
    Route.AwaitCall (Route.continue
                       {| Request.fo_url := None; Request.fo_method := None;
                          Request.fo_headers := None; Request.fo_postData := None |}) (Ok tt);
    Route.AwaitFallback
      {| Request.fo_url := None; Request.fo_method := None;
         Request.fo_headers := None; Request.fo_postData := None |} ].

(** The call numbered [i] of a schedule succeeded. *)
Definition succeeded (run : Route.Run) (i : nat) : Prop :=
  Route.calls run !! i = Some (Route.Settled (Ok tt)).

(** The schedules in which the dispatcher does not start a handler on the
    Route again. *)
Definition no_restart (events : list Route.Event) : Prop :=
  Forall (fun ev => ev <> Route.StartHandling) events.

(** The invariant of a schedule with no restart: a Route of which a call
    succeeded is handled, and no two calls succeeded. *)
Definition resolved_once (run : Route.Run) : Prop :=
  ((exists i, succeeded run i) -> Route._handlingPromise (Route.route (Route.world run)) = None)
  /\ (forall i j, succeeded run i -> succeeded run j -> i = j).

(** From the call numbered [n] on, the calls of a schedule were refused with
    AlreadyHandled, and the Route is handled. *)
Definition refused_from (n : nat) (run : Route.Run) : Prop :=
  Route._handlingPromise (Route.route (Route.world run)) = None
  /\ n <= length (Route.calls run)
  /\ (forall j, n <= j -> j < length (Route.calls run) ->
        Route.calls run !! j = Some (Route.Settled (Throw AlreadyHandled))).


(** A route connected to the server, with no handler on either leg. *)
Definition connected_route : WebSocketRoute.t :=
  {| WebSocketRoute.url := "ws://localhost/";
     WebSocketRoute._onPageMessage := None;
     WebSocketRoute._onPageClose := None;
     WebSocketRoute._onServerMessage := None;
     WebSocketRoute._onServerClose := None;
     WebSocketRoute._connected := true |}.

Definition text_frame : WebSocketRoute.Frame :=
  {| WebSocketRoute.message := "hi"; WebSocketRoute.isBase64 := false |}.

Definition normal_close : WebSocketRoute.CloseParams :=
  {| WebSocketRoute.code := Some 1000%Z; WebSocketRoute.reason := Some "";
     WebSocketRoute.wasClean := true |}.

(** ** The domain of the embedding

    Where a definition above is the engine's on a part of its inputs only,
    the properties that rest on it are stated for that part, which the
    predicates below delimit. *)

(** A string of ASCII characters. *)
Definition is_ascii (s : string) : bool :=
  forallb (fun c => (N_of_ascii c <? 128)%N) (list_ascii_of_string s).

(** Headers whose names are ASCII, and an object whose keys are. *)
Definition ascii_names (headers : HeadersArray) : Prop :=
  Forall (fun h => is_ascii (name h) = true) headers.

Definition ascii_keys {V} (o : JSObject V) : Prop :=
  Forall (fun k => is_ascii k = true) (obj_keys o).

(** A value all of whose numbers are safe integers. *)
Fixpoint safe_integers (v : JSON) : bool :=
  match v with
  | JNumber z => (Z.abs z <=? RouteHandler.MAX_SAFE_INTEGER)%Z
  | JArray items => forallb safe_integers items
  | JObject members => forallb (fun kv => safe_integers (snd kv)) members
  | JNull | JBool _ | JString _ => true
  end.

(** Well-formed UTF-8 (the Unicode Standard, table 3-7): the byte
    sequences that a UTF-8 decoder reads without a substitution. *)
Definition continuation (b : N) : bool := ((128 <=? b) && (b <=? 191))%N.

Fixpoint well_formed_utf8 (bytes : list N) : bool :=
  match bytes with
  | [] => true
  | a :: rest1 =>
      if (a <=? 127)%N then well_formed_utf8 rest1
      else
        match rest1 with
        | [] => false
        | b :: rest2 =>
            if ((194 <=? a) && (a <=? 223))%N then continuation b && well_formed_utf8 rest2
            else
              match rest2 with
              | [] => false
              | c :: rest3 =>
                  if ((224 <=? a) && (a <=? 239))%N then
                    ((if (a =? 224)%N then (160 <=? b) && (b <=? 191)
                      else if (a =? 237)%N then (128 <=? b) && (b <=? 159)
                           else continuation b)%N)
                    && continuation c && well_formed_utf8 rest3
                  else
                    match rest3 with
                    | [] => false
                    | d :: rest4 =>
                        ((240 <=? a) && (a <=? 244))%N
                        && ((if (a =? 240)%N then (144 <=? b) && (b <=? 191)
                             else if (a =? 244)%N then (128 <=? b) && (b <=? 143)
                                  else continuation b)%N)
                        && continuation c && continuation d && well_formed_utf8 rest4
                    end
              end
        end
  end.

(** A buffer that holds UTF-8 text, and a string that is one. *)
Definition utf8_buffer (b : Buffer) : bool := well_formed_utf8 (map Byte.to_N b).

Definition utf8_text (s : string) : bool :=
  well_formed_utf8 (map N_of_ascii (list_ascii_of_string s)).

(** The names and the values of a decoded form are UTF-8 texts. *)
Definition utf8_form (pairs : list (string * string)) : Prop :=
  Forall (fun kv => utf8_text (fst kv) = true /\ utf8_text (snd kv) = true) pairs.

(** * Further parts of client/network.ts *)

(** ** Interception patterns *)

(** [URLMatch] of utils/isomorphic/urlMatch.ts: a glob string, a regular
    expression known by its source and flags, or a predicate function, known
    by its identity only. *)
Inductive URLMatch : Type :=
| MatchString (glob : string)
| MatchRegExp (source flags : string)
| MatchPredicate (predicate : nat).

(** An entry of the [patterns] parameter of the interception commands. *)
Inductive InterceptionPattern : Type :=
| PatternGlob (glob : string)
| PatternRegex (regexSource regexFlags : string).

(** [RouteHandler.prepareInterceptionPatterns] and
    [WebSocketRouteHandler.prepareInterceptionPatterns], which have the same
    body; [urls] holds the [url] field of each handler, in order. The loop
    keeps the patterns pushed so far and the [all] flag. *)
Definition prepareInterceptionPatterns (urls : list URLMatch) : list InterceptionPattern :=
  let '(patterns, all) :=
    fold_left (fun '(patterns, all) url =>
                 match url with
                 | MatchString glob => (patterns ++ [PatternGlob glob], all)
                 | MatchRegExp source flags => (patterns ++ [PatternRegex source flags], all)
                 | MatchPredicate _ => (patterns, true)
                 end)
              urls ([], false) in
  if all then [PatternGlob "**/*"] else patterns.

(** ** validateHeaders *)

(** [typeof value] for a value that is not [undefined]. *)
Definition typeof (v : JSON) : string :=
  match v with
  | JNull => "object"
  | JBool _ => "boolean"
  | JNumber _ => "number"
  | JString _ => "string"
  | JArray _ | JObject _ => "object"
  end.

(** [validateHeaders]: the message of the Error it throws, or [None] when it
    returns. The object is given with the values a caller can pass, which
    need not be strings. The loop goes over [Object.keys(headers)] and reads
    [headers[key]]. *)
Fixpoint validateHeaders_keys (headers : JSObject (option JSON)) (keys : list string)
    : option string :=
  match keys with
  | [] => None
  | key :: rest =>
      match default None (obj_lookup key headers) with
      | None => validateHeaders_keys headers rest
      | Some (JString _) => validateHeaders_keys headers rest
      | Some v =>
          Some ("Expected value of header " +:+ dquote +:+ key +:+ dquote
                +:+ " to be String, but " +:+ dquote +:+ typeof v +:+ dquote +:+ " is found.")
      end
  end.

Definition validateHeaders (headers : JSObject (option JSON)) : option string :=
  validateHeaders_keys headers (obj_keys headers).

(** A headers object of string values, as a caller's object. *)
Definition as_values (headers : Headers) : JSObject (option JSON) :=
  map (fun kv => (fst kv, JString <$> snd kv)) headers.

(** ** WebSocket *)

Module WebSocket.
(** The events of the channel the constructor listens to. *)
Inductive ChannelEvent : Type :=
| frameSent (opcode : Z) (data : string)
| frameReceived (opcode : Z) (data : string)
| socketError (error : string)
| close.

(** The events the object emits to its listeners. *)
Inductive Emitted : Type :=
| FrameSent (payload : WebSocketRoute.Message)
| FrameReceived (payload : WebSocketRoute.Message)
| SocketError (error : string)
| Close.

Record t : Type := mk { url : string; _isClosed : bool }.

Definition new (url : string) : t := {| url := url; _isClosed := false |}.

Definition isClosed (this : t) : bool := _isClosed this.

(** The payload of a frame: text for opcode 1, the decoded bytes for opcode
    2, and no event for another opcode. *)
Definition frame_payload (opcode : Z) (data : string) : option WebSocketRoute.Message :=
  if Z.eqb opcode 1 then Some (WebSocketRoute.Text data)
  else if Z.eqb opcode 2 then Some (WebSocketRoute.Binary (Buffer_from_base64 data))
  else None.

Definition on_event (this : t) (ev : ChannelEvent) : t * list Emitted :=
  match ev with
  | frameSent opcode data =>
      (this, match frame_payload opcode data with
             | Some payload => [FrameSent payload]
             | None => []
             end)
  | frameReceived opcode data =>
      (this, match frame_payload opcode data with
             | Some payload => [FrameReceived payload]
             | None => []
             end)
  | socketError error => (this, [SocketError error])
  | close => ({| url := url this; _isClosed := true |}, [Close])
  end.

(** The object after a sequence of channel events, with all it emitted. *)
Definition on_events (this : t) (events : list ChannelEvent) : t * list Emitted :=
  fold_left (fun '(this, emitted) ev =>
               let '(this', more) := on_event this ev in (this', emitted ++ more))
            events (this, []).
End WebSocket.

(** ** WebSocketRoute: sequences of operations *)

(** What can happen to a WebSocketRoute: a method of the page side or of
    the server side is called, an event of the channel arrives, or the
    handler that was given the route returns. *)
Inductive WebSocketRouteOp : Type :=
| OpOnMessage (handler : WebSocketRoute.Callback)
| OpOnClose (handler : WebSocketRoute.Callback)
| OpServerOnMessage (handler : WebSocketRoute.Callback)
| OpServerOnClose (handler : WebSocketRoute.Callback)
| OpConnectToServer
| OpSend (m : WebSocketRoute.Message)
| OpServerSend (m : WebSocketRoute.Message)
| OpClose (options : WebSocketRoute.CloseOptions)
| OpServerClose (options : WebSocketRoute.CloseOptions)
| OpAfterHandle
| EvMessageFromPage (f : WebSocketRoute.Frame)
| EvMessageFromServer (f : WebSocketRoute.Frame)
| EvClosePage (c : WebSocketRoute.CloseParams)
| EvCloseServer (c : WebSocketRoute.CloseParams).

(** The route after an operation, what the operation did, and whether it
    threw. *)
Definition websocket_op (this : WebSocketRoute.t) (op : WebSocketRouteOp)
    : WebSocketRoute.t * list WebSocketRoute.Effect * option Error :=
  match op with
  | OpOnMessage handler => (WebSocketRoute.onMessage this handler, [], None)
  | OpOnClose handler => (WebSocketRoute.onClose this handler, [], None)
  | OpServerOnMessage handler => (WebSocketRoute.server_onMessage this handler, [], None)
  | OpServerOnClose handler => (WebSocketRoute.server_onClose this handler, [], None)
  | OpConnectToServer =>
      match WebSocketRoute.connectToServer this with
      | Ok (this', effects) => (this', effects, None)
      | Throw e => (this, [], Some e)
      end
  | OpSend m => (this, WebSocketRoute.send this m, None)
  | OpServerSend m => (this, WebSocketRoute.server_send this m, None)
  | OpClose options => (this, WebSocketRoute.close this options, None)
  | OpServerClose options => (this, WebSocketRoute.server_close this options, None)
  | OpAfterHandle => (this, WebSocketRoute._afterHandle this, None)
  | EvMessageFromPage f => (this, WebSocketRoute.on_messageFromPage this f, None)
  | EvMessageFromServer f => (this, WebSocketRoute.on_messageFromServer this f, None)
  | EvClosePage c => (this, WebSocketRoute.on_closePage this c, None)
  | EvCloseServer c => (this, WebSocketRoute.on_closeServer this c, None)
  end.

(** The route after a sequence of operations and all the effects of the
    sequence, in order. *)
Definition websocket_ops (this : WebSocketRoute.t) (ops : list WebSocketRouteOp)
    : WebSocketRoute.t * list WebSocketRoute.Effect :=
  fold_left (fun '(this, effects) op =>
               let '(this', more, _) := websocket_op this op in (this', effects ++ more))
            ops (this, []).

(** The number of [connect] commands among effects. *)
Definition connects (effects : list WebSocketRoute.Effect) : nat :=
  length (List.filter (fun e => match e with
                                | WebSocketRoute.Issue WebSocketRoute.connect => true
                                | _ => false
                                end) effects).

(** ** Request: the headers fetched over the channel *)

Module ActualHeaders.
(** The methods that go through [_actualHeaders()]. *)
Inductive Call : Type :=
| headerValue (name : string)
| allHeaders
| headersArray.

Inductive Answer : Type :=
| Value (v : option string)
| All (h : Headers)
| Array (h : HeadersArray).

(** What [_actualHeaders] keeps and causes: whether [_actualHeadersPromise]
    is set, and the number of [rawRequestHeaders] requests made on the
    channel. *)
Record State : Type := {
  _actualHeadersPromise : bool;
  rawRequestHeaders : nat
}.

Definition initial : State := {| _actualHeadersPromise := false; rawRequestHeaders := 0 |}.

(** [_actualHeaders()]: [reply] is the way the promise of the one request
    settles, with the headers the channel returns or with a rejection. *)
Definition _actualHeaders (this : Request.t) (reply : Result HeadersArray) (st : State)
    : State * Result RawHeaders.t :=
  match Request.headers_override (Request._fallbackOverrides this) with
  | Some h => (st, Ok (RawHeaders._fromHeadersObjectLossy h))
  | None =>
      (if _actualHeadersPromise st then st
       else {| _actualHeadersPromise := true; rawRequestHeaders := S (rawRequestHeaders st) |},
       match reply with
       | Ok headers => Ok (RawHeaders.new headers)
       | Throw e => Throw e
       end)
  end.

Definition answer (headers : RawHeaders.t) (c : Call) : Answer :=
  match c with
  | headerValue name => Value (RawHeaders.get headers name)
  | allHeaders => All (RawHeaders.headers headers)
  | headersArray => Array (RawHeaders.headersArray headers)
  end.

Definition call (this : Request.t) (reply : Result HeadersArray) (st : State) (c : Call)
    : State * Result Answer :=
  let '(st', r) := _actualHeaders this reply st in
  (st', match r with
        | Ok headers => Ok (answer headers c)
        | Throw e => Throw e
        end).

(** A sequence of calls on a request, and what each returns. *)
Fixpoint calls (this : Request.t) (reply : Result HeadersArray) (st : State) (cs : list Call)
    : State * list (Result Answer) :=
  match cs with
  | [] => (st, [])
  | c :: rest =>
      let '(st1, r) := call this reply st c in
      let '(st2, rs) := calls this reply st1 rest in
      (st2, r :: rs)
  end.
End ActualHeaders.

(** ** Vocabulary of the further properties *)

(** The pattern a handler's [url] stands for, when it is not a predicate. *)
Definition pattern_of (url : URLMatch) : option InterceptionPattern :=
  match url with
  | MatchString glob => Some (PatternGlob glob)
  | MatchRegExp source flags => Some (PatternRegex source flags)
  | MatchPredicate _ => None
  end.

Definition is_predicate (url : URLMatch) : bool :=
  match url with MatchPredicate _ => true | _ => false end.

Definition is_close (ev : WebSocket.ChannelEvent) : bool :=
  match ev with WebSocket.close => true | _ => false end.

Definition is_connect (op : WebSocketRouteOp) : bool :=
  match op with OpConnectToServer => true | _ => false end.

(** The message [validateHeaders] throws for the header [key] of value [v]. *)
Definition invalid_header_message (key : string) (v : JSON) : string :=
  "Expected value of header " +:+ dquote +:+ key +:+ dquote
  +:+ " to be String, but " +:+ dquote +:+ typeof v +:+ dquote +:+ " is found.".

(** A value that is not a string. *)
Definition not_a_string (v : JSON) : Prop :=
  match v with JString _ => False | _ => True end.

(** The handler an operation installs in a slot, for each of the four slots. *)
Definition installs_onPageMessage (op : WebSocketRouteOp) : option WebSocketRoute.Callback :=
  match op with OpOnMessage h => Some h | _ => None end.

Definition installs_onPageClose (op : WebSocketRouteOp) : option WebSocketRoute.Callback :=
  match op with OpOnClose h => Some h | _ => None end.

Definition installs_onServerMessage (op : WebSocketRouteOp) : option WebSocketRoute.Callback :=
  match op with OpServerOnMessage h => Some h | _ => None end.

Definition installs_onServerClose (op : WebSocketRouteOp) : option WebSocketRoute.Callback :=
  match op with OpServerOnClose h => Some h | _ => None end.

(** The handler in a slot after the operations [ops], when [before] was in
    the slot: the one the last installing operation installed. *)
Fixpoint slot_after (installs : WebSocketRouteOp -> option WebSocketRoute.Callback)
    (before : option WebSocketRoute.Callback) (ops : list WebSocketRouteOp)
    : option WebSocketRoute.Callback :=
  match ops with
  | [] => before
  | op :: rest =>
      slot_after installs (match installs op with Some h => Some h | None => before end) rest
  end.

(** A ping frame, a binary frame and a close, as the channel reports them. *)
Definition websocket_events : list WebSocket.ChannelEvent :=
  [ WebSocket.frameReceived 9 "";
    WebSocket.frameReceived 2 "AAEC";
    WebSocket.close;
    WebSocket.frameSent 1 "late" ].

(** A handler script: claim the page messages, connect, send, connect
    again, and return. *)
Definition websocket_script : list WebSocketRouteOp :=
  [ OpOnMessage 7; OpConnectToServer; OpSend (WebSocketRoute.Text "hello");
    OpConnectToServer; OpAfterHandle; EvMessageFromPage text_frame ].

(** [{}] as the overrides of [continue] or [fallback]. *)
Definition no_overrides_given : Request.FallbackOverrides :=
  {| Request.fo_url := None; Request.fo_method := None;
     Request.fo_headers := None; Request.fo_postData := None |}.

(** [continue({ postData: '' })], [continue({ postData: 0 })] and
    [continue({ postData: {a: 1} })]. *)
Definition post_data_override (v : JSON) : Request.FallbackOverrides :=
  {| Request.fo_url := None; Request.fo_method := None;
     Request.fo_headers := None; Request.fo_postData := Some (Request.PostValue v) |}.

(** The values a headers object gives to the header [n]: those of the keys
    that are [n] but for the case, in the order of the object, the
    undefined ones left out. *)
Definition object_values (n : string) (headers : Headers) : list string :=
  omap (fun kv => if String.eqb (toLowerCase (fst kv)) (toLowerCase n) then snd kv else None)
       headers.

(** The request with the form body, with overriding headers. *)
Definition reheadered_request : Request.t :=
  Request._applyFallbackOverrides form_request
    {| Request.fo_url := None; Request.fo_method := None;
       Request.fo_headers := Some [("X-Token", Some "t"); ("Accept", None)];
       Request.fo_postData := None |}.

(** The schedule of a request that goes through the handlers that fall
    back with the overrides [os], each followed by the dispatcher starting
    the next handler, and then through a handler that continues with [o],
    whose command is answered. *)
Definition fallbacks_then_continue (os : list Request.FallbackOverrides)
    (o : Request.FallbackOverrides) : list Route.Event :=
  flat_map (fun oi => [Route.InvokeFallback oi; Route.StartHandling]) os
  ++ [Route.Invoke (Route.continue o); Route.Reply (length os) (Ok tt)].

(** The parameters of the [continue] command for a request. *)
Definition continue_params (env : Route.Environment) (r : Request.t) : Route.ContinueParams :=
  {| Route.continue_url := Request.url_override (Request._fallbackOverrides r);
     Route.continue_method := Request.method_override (Request._fallbackOverrides r);
     Route.continue_headers :=
       Route.headersObjectToArray env <$> Request.headers_override (Request._fallbackOverrides r);
     Route.continue_postData := Request.postDataBuffer_override (Request._fallbackOverrides r);
     Route.continue_isFallback := false |}.

(** The request after the overrides [os] were merged into it, in order. *)
Definition merged (r : Request.t) (os : list Request.FallbackOverrides) : Request.t :=
  fold_left Request._applyFallbackOverrides os r.

(** A Route that is being handled, whose handling promise is pending. *)
Definition awaiting (w : Route.World) (chain : nat) : Prop :=
  Route._handlingPromise (Route.route w) = Some chain
  /\ Route.promises w !! chain = Some None.

(** No call of a schedule is suspended: each has returned or thrown. *)
Definition all_settled (run : Route.Run) : Prop :=
  Forall (fun state => exists r, state = Route.Settled r) (Route.calls run).

(** Overrides of the URL and of the method. *)
Definition url_overrides (url : string) : Request.FallbackOverrides :=
  {| Request.fo_url := Some url; Request.fo_method := None;
     Request.fo_headers := None; Request.fo_postData := None |}.

Definition method_overrides (method : string) : Request.FallbackOverrides :=
  {| Request.fo_url := None; Request.fo_method := Some method;
     Request.fo_headers := None; Request.fo_postData := None |}.

(** A Route after [k] handlers fell back and the dispatcher started the
    next one: [k] promises resolved with false and a pending one, the
    request [r], and no command issued. *)
Definition after_fallbacks (k : nat) (r : Request.t) : Route.World :=
  {| Route.route := {| Route._handlingPromise := Some k; Route._didThrow := false |};
     Route.request := r;
     Route.promises := replicate k (Some false) ++ [None];
     Route.channel := [] |}.

(** The headers object of a [fulfill] whose body is [len] bytes long. *)
Definition sent_headers (env : Route.Environment) (options : Route.FulfillOptions) (len : nat)
    : Headers :=
  Route.fulfill_headers_object env options (headers_in_effect options) len.

(** The content-length header of a [fulfill]: the one given, and else the
    length of the body when it is not zero. *)
Definition expected_content_length (given : option string) (len : nat) : option string :=
  match given with
  | Some v => Some v
  | None => if Nat.eqb len 0 then None else Some (String_of_N (N.of_nat len))
  end.

(** The content-type header of a [fulfill]. *)
Definition expected_content_type (env : Route.Environment) (options : Route.FulfillOptions)
    : option string :=
  if truthy_string (Route.contentType options) then Route.contentType options
  else if match Route.json options with Some j => truthy j | None => false end
       then Some "application/json"
       else if truthy_string (Route.path options)
            then Some (js_or (Route.getMimeTypeForPath env (default "" (Route.path options)))
                             "application/octet-stream")
            else given_header "content-type" (headers_in_effect options).

(** The status of a [fulfill]. *)
Definition expected_status (options : Route.FulfillOptions) : Z :=
  match (match Route.status options with
         | Some s => Some s
         | None => Route.response_status <$> Route.response options
         end) with
  | Some s => if Z.eqb s 0 then 200%Z else s
  | None => 200%Z
  end.

(** [fulfill({ body })] with a buffer and with a string, [fulfill({ path })]
    and [fulfill({ response })]. *)
Definition fulfill_buffer_options : Route.FulfillOptions :=
  {| Route.response := None; Route.status := None; Route.headers := None;
     Route.contentType := None;
     Route.body := Some (Route.BodyBuffer [Init.Byte.x00; Init.Byte.x01; Init.Byte.x02]);
     Route.json := None; Route.path := None |}.

Definition fulfill_text_options : Route.FulfillOptions :=
  {| Route.response := None; Route.status := Some 404%Z;
     Route.headers := Some [("Content-Length", Some "5"); ("X-Served-By", Some "mock")];
     Route.contentType := Some "text/plain"; Route.body := Some (Route.BodyString "gone");
     Route.json := None; Route.path := None |}.

Definition fulfill_empty_options : Route.FulfillOptions :=
  {| Route.response := None; Route.status := None; Route.headers := None;
     Route.contentType := None; Route.body := None;
     Route.json := None; Route.path := None |}.

Definition fulfill_path_options : Route.FulfillOptions :=
  {| Route.response := None; Route.status := None; Route.headers := None;
     Route.contentType := None; Route.body := Some (Route.BodyString "ignored");
     Route.json := None; Route.path := Some "page.html" |}.

Definition fulfill_response_options (r : Route.APIResponse) : Route.FulfillOptions :=
  {| Route.response := Some r; Route.status := None; Route.headers := None;
     Route.contentType := None; Route.body := None;
     Route.json := None; Route.path := None |}.

(** A response received on the connection of the route. *)
Definition local_response : Route.APIResponse :=
  {| Route.response_status := 201;
     Route.response_headers := [("Content-Type", Some "text/plain")];
     Route.response_sameConnection := true;
     Route.response_fetchUid := "fetch@2";
     Route.response_body := Throw (ChannelError "disposed") |}.

(** The options that [_innerFulfill] refuses: a [json] value together with
    a [body]. *)
Definition ambiguous (options : Route.FulfillOptions) : bool :=
  match Route.json options, Route.body options with
  | Some _, Some _ => true
  | _, _ => false
  end.

(** The response whose body [_innerFulfill] reads: one passed on from
    another connection without [json], [body] or [path]. *)
Definition fetched_response (options : Route.FulfillOptions) : option Route.APIResponse :=
  match Route.response options, Route.json options, Route.body options, Route.path options with
  | Some r, None, None, None => if Route.response_sameConnection r then None else Some r
  | _, _, _, _ => None
  end.

(** ** RouteHandler: the result of an invocation *)

Module Handling.

End Handling.

(** The resolving calls that a schedule makes, in order: [true] for a
    [fallback], [false] for the others. *)
Definition calls_made (events : list Route.Event) : list bool :=
  omap (fun ev => match ev with
                  | Route.Invoke _ => Some false
                  | Route.InvokeFallback _ => Some true
                  | _ => None
                  end) events.




(** ** RouteHandler: the invocations in flight *)

Module Invocations.
(** The collaborators of [_handleImpl] that are not among the sources:
    [isTargetClosedError] of errors.ts, and [rewriteErrorMessage] of
    stackTrace.ts with the [message] of the error it is given. *)
Record Errors : Type := {
  isTargetClosedError : Error -> bool;
  message : Error -> string;
  rewriteErrorMessage : Error -> string -> Error
}.

(** The message given to a target-closed error of a route callback. *)
Definition hint (message : string) : string :=
  dquote +:+ message +:+ dquote +:+ " while running route callback." +:+ newline
  +:+ "Consider awaiting `await page.unrouteAll({ behavior: 'ignoreErrors' })`" +:+ newline
  +:+ "before the end of the test to ignore remaining routes in flight.".

(** [{ complete: new ManualPromise(), route }], with the promise and the
    Route by their numbers. *)
Record Invocation : Type := { complete : nat; route : nat }.

Inductive Behavior : Type := wait | ignoreErrors.

(** A handler with its set of invocations (in insertion order), the
    [complete] promises made so far (resolved or not), the Routes, and
    what each call of [handle] returned or threw ([None] while it is
    suspended), by the number of its [complete] promise. *)
Record State : Type := {
  this : RouteHandler.t;
  _activeInvocations : list Invocation;
  manualPromises : list bool;
  routes : list Route.Run;
  returned : list (option (Result bool))
}.

Definition init (times : option Z) (rs : list Route.World) : State :=
  {| this := RouteHandler.new times; _activeInvocations := []; manualPromises := [];
     routes := no_calls <$> rs; returned := [] |}.

Section WithEnvironment.
Variable env : Route.Environment.
Variable errors : Errors.

(** [handle] and [_handleImpl] from the call to [await
    this._handleInternal(route)]: the invocation is added to the set, and
    [_handleInternal] counts it and starts the handling of the Route. *)
Definition _handleImpl_begin (route : nat) (st : State) : State :=
  match routes st !! route with
  | None => st
  | Some run =>
      let handlerInvocation := {| complete := length (manualPromises st); route := route |} in
      let '(this', _, w') := RouteHandler._handleInternal_begin (this st) (Route.world run) in
      {| this := this';
         _activeInvocations := _activeInvocations st ++ [handlerInvocation];
         manualPromises := manualPromises st ++ [false];
         routes := <[route := {| Route.world := w'; Route.calls := Route.calls run |}]>
                     (routes st);
         returned := returned st ++ [None] |}
  end.

(** [_handleImpl] from the point where [await this._handleInternal(route)]
    settles as [outcome]: the [return], the [catch] and the [finally]. An
    invocation is resumed once: one that is not in the set is not
    suspended. *)
Definition _handleImpl_resume (invocation : nat) (outcome : Result bool) (st : State)
    : State :=
  if bool_decide (invocation ∈ complete <$> _activeInvocations st) then
    let result :=
      match outcome with
      | Ok handled => Ok handled
      | Throw e =>
          if RouteHandler._ignoreException (this st) then Ok false
          else if isTargetClosedError errors e
               then Throw (rewriteErrorMessage errors e (hint (message errors e)))
               else Throw e
      end in
    {| this := this st;
       _activeInvocations :=
         filter (fun activation => complete activation <> invocation) (_activeInvocations st);
       manualPromises := <[invocation := true]> (manualPromises st);
       routes := routes st;
       returned := <[invocation := Some result]> (returned st) |}
  else st.

(** [activation.route._didThrow], read when [stop] runs. *)
Definition didThrow (st : State) (activation : Invocation) : bool :=
  match routes st !! route activation with
  | Some run => Route._didThrow (Route.route (Route.world run))
  | None => false
  end.

(** [stop], with the promises that [await Promise.all(promises)] waits
    for. *)
Definition stop (behavior : Behavior) (st : State) : State * list nat :=
  match behavior with
  | ignoreErrors =>
      ({| this := RouteHandler.stop_ignoreErrors (this st);
          _activeInvocations := _activeInvocations st;
          manualPromises := manualPromises st;
          routes := routes st;
          returned := returned st |}, [])
  | wait =>
      (st, complete <$> filter (fun activation => didThrow st activation = false)
                               (_activeInvocations st))
  end.

(** What happens to a handler and the Routes: [handle] is called on a
    Route, the handler's run on an invocation comes to its end, [stop] is
    called, or something happens on a Route. *)
Inductive Event : Type :=
| Handle (route : nat)
| Resume (invocation : nat) (outcome : Result bool)
| Stop (behavior : Behavior)
| OnRoute (route : nat) (ev : Route.Event).

Definition step (st : State) (ev : Event) : State :=
  match ev with
  | Handle route => _handleImpl_begin route st
  | Resume invocation outcome => _handleImpl_resume invocation outcome st
  | Stop behavior => fst (stop behavior st)
  | OnRoute route ev =>
      match routes st !! route with
      | Some run =>
          {| this := this st;
             _activeInvocations := _activeInvocations st;
             manualPromises := manualPromises st;
             routes := <[route := Route.step env run ev]> (routes st);
             returned := returned st |}
      | None => st
      end
  end.

Definition exec (st : State) (events : list Event) : State := fold_left step events st.
End WithEnvironment.
End Invocations.

(** The invocations in the set of a handler, by the numbers of their
    [complete] promises. *)
Definition in_flight (st : Invocations.State) : list nat :=
  Invocations.complete <$> Invocations._activeInvocations st.

(** The invariant of a handler: the invocations in its set are distinct;
    they are those whose [complete] promise is not resolved, and those of
    which [handle] has not returned; and the handler has counted one
    invocation for each promise. *)
Definition invocations_consistent (st : Invocations.State) : Prop :=
  NoDup (in_flight st)
  /\ length (Invocations.returned st) = length (Invocations.manualPromises st)
  /\ RouteHandler.handledCount (Invocations.this st)
     = Z.of_nat (length (Invocations.manualPromises st))
  /\ (forall i, i ∈ in_flight st <-> Invocations.manualPromises st !! i = Some false)
  /\ (forall i, i ∈ in_flight st <-> Invocations.returned st !! i = Some None).

(** The schedules in which [stop('ignoreErrors')] is not called. *)
Definition never_ignored (events : list Invocations.Event) : Prop :=
  Forall (fun ev => ev <> Invocations.Stop Invocations.ignoreErrors) events.

(** What [handle] throws for a handler run that failed with [e]. *)
Definition rethrown (errors : Invocations.Errors) (e : Error) : Error :=
  if Invocations.isTargetClosedError errors e
  then Invocations.rewriteErrorMessage errors e
         (Invocations.hint (Invocations.message errors e))
  else e.

(** Errors of which the channel errors that say that the target was
    closed are the target-closed ones. *)
Definition example_errors : Invocations.Errors :=
  {| Invocations.isTargetClosedError :=
       fun e => match e with
                | ChannelError m => String.eqb m "Target closed"
                | _ => false
                end;
     Invocations.message :=
       fun e => match e with ChannelError m => m | _ => "" end;
     Invocations.rewriteErrorMessage := fun _ m => ChannelError m |}.

(** Two Routes are handled, and the handler run on the first fails. *)
Definition two_failing_invocations : list Invocations.Event :=
  [Invocations.Handle 0; Invocations.Handle 1;
   Invocations.Resume 0 (Throw (ChannelError "Target closed"))].
(** * Properties *)

(** ** RawHeaders *)

Lemma MultiMap_get_set (m : MultiMap.t) (key value k : string) :
  MultiMap.get k (MultiMap.set key value m) =
  if String.eqb key k then MultiMap.get k m ++ [value] else MultiMap.get k m.
Proof.
  induction m as [|[k' values] m IH]; simpl.
  - rewrite (String.eqb_sym key k). by destruct (String.eqb k key).
  - destruct (String.eqb k' key) eqn:E1; simpl.
    + apply String.eqb_eq in E1 as ->.
      by destruct (String.eqb key k).
    + destruct (String.eqb k' k) eqn:E2; [|done].
      apply String.eqb_eq in E2 as ->.
      by rewrite String.eqb_sym, E1.
Qed.

Lemma lower_ascii_idem (c : ascii) : lower_ascii (lower_ascii c) = lower_ascii c.
Proof. destruct c as [[] [] [] [] [] [] [] []]; reflexivity. Qed.

Lemma toLowerCase_idem (s : string) : toLowerCase (toLowerCase s) = toLowerCase s.
Proof. induction s as [|c s IH]; simpl; [done|]. by rewrite lower_ascii_idem, IH. Qed.

Lemma MultiMap_get_fold (headers : HeadersArray) (m : MultiMap.t) (k : string) :
  MultiMap.get k
    (fold_left (fun m header => MultiMap.set (toLowerCase (name header)) (value header) m)
               headers m)
  = MultiMap.get k m ++ values_named k headers.
Proof.
  revert m. induction headers as [|h headers IH]; intros m; simpl.
  - by rewrite app_nil_r.
  - rewrite IH, MultiMap_get_set. unfold values_named; simpl.
    destruct (String.eqb (toLowerCase (name h)) k); simpl; [|done].
    by rewrite <- app_assoc.
Qed.

Lemma getAll_new (headers : HeadersArray) (n : string) :
  RawHeaders.getAll (RawHeaders.new headers) n = values_named (toLowerCase n) headers.
Proof. unfold RawHeaders.getAll, RawHeaders.new; simpl. by rewrite MultiMap_get_fold. Qed.

(** C7: in a RawHeaders store whose header names are ASCII, a lookup by an
    ASCII name is case-insensitive: [getAll] returns the values of every
    header whose name is the given one but for the case, in the order of
    the original array (so X-A:1, x-a:2 gives ["1";"2"] for "X-a"), and
    the same for every other casing of the name; [get] is null exactly when
    no header has the name, and otherwise joins the values with a newline
    for set-cookie (in any case) and with ", " for other names. *)
Theorem RawHeaders_case_insensitive_ordered_lookup (headers : HeadersArray) (n : string) :
  ascii_names headers ->
  is_ascii n = true ->
  RawHeaders.getAll (RawHeaders.new headers) n
  = map value (List.filter (fun h => String.eqb (toLowerCase (name h)) (toLowerCase n)) headers)
  /\ (forall n', is_ascii n' = true -> toLowerCase n' = toLowerCase n ->
        RawHeaders.getAll (RawHeaders.new headers) n'
        = RawHeaders.getAll (RawHeaders.new headers) n
        /\ RawHeaders.get (RawHeaders.new headers) n'
           = RawHeaders.get (RawHeaders.new headers) n)
  /\ (RawHeaders.getAll (RawHeaders.new headers) (toLowerCase n)
      = RawHeaders.getAll (RawHeaders.new headers) n
      /\ RawHeaders.get (RawHeaders.new headers) (toLowerCase n)
         = RawHeaders.get (RawHeaders.new headers) n)
  /\ RawHeaders.get (RawHeaders.new headers) n
     = match RawHeaders.getAll (RawHeaders.new headers) n with
       | [] => None
       | values =>
           Some (join (if String.eqb (toLowerCase n) "set-cookie" then newline else ", ") values)
       end
  /\ RawHeaders.getAll
       (RawHeaders.new [ {| name := "X-A"; value := "1" |}; {| name := "x-a"; value := "2" |} ])
       "X-a" = ["1"; "2"]
  /\ RawHeaders.get
       (RawHeaders.new [ {| name := "set-cookie"; value := "a=1" |};
                         {| name := "Set-Cookie"; value := "b=2" |} ])
       "Set-Cookie" = Some ("a=1" +:+ newline +:+ "b=2")
  /\ RawHeaders.get
       (RawHeaders.new [ {| name := "x-a"; value := "a=1" |}; {| name := "X-A"; value := "b=2" |} ])
       "x-a" = Some "a=1, b=2"
  /\ RawHeaders.get
       (RawHeaders.new [ {| name := "x-a"; value := "a=1" |} ]) "x-b" = None.
Proof.
  intros _ _.
  split; [apply getAll_new|].
  split.
  { intros n' _ Hn'. unfold RawHeaders.get. by rewrite !getAll_new, Hn'. }
  split.
  { unfold RawHeaders.get. rewrite !getAll_new, !toLowerCase_idem. done. }
  split.
  { unfold RawHeaders.get.
    by destruct (RawHeaders.getAll (RawHeaders.new headers) n). }
  repeat split; reflexivity.
Qed.

(** The lookups of the examples: by another casing, and of an absent
    name. *)
Lemma RawHeaders_case_insensitive_ordered_lookup_witness :
  RawHeaders.getAll
    (RawHeaders.new [ {| name := "X-A"; value := "1" |}; {| name := "x-a"; value := "2" |} ])
    "x-A" = ["1"; "2"]
  /\ RawHeaders.get
       (RawHeaders.new [ {| name := "X-A"; value := "1" |}; {| name := "x-a"; value := "2" |} ])
       "X-a" = Some "1, 2".
Proof.
  destruct (RawHeaders_case_insensitive_ordered_lookup
              [ {| name := "X-A"; value := "1" |}; {| name := "x-a"; value := "2" |} ] "X-a")
    as (Hall & Hcase & _ & Hget & _).
  - by repeat constructor.
  - reflexivity.
  - split.
    + rewrite (proj1 (Hcase "x-A" eq_refl eq_refl)). exact Hall.
    + exact Hget.
Defined.

(** ** base64 *)

Lemma base64_value_char (n : N) :
  (n < 64)%N -> base64_value (base64_char n) = Some n.
Proof.
  intros Hn. destruct n as [|p]; [reflexivity|].
  do 6 (try destruct p as [p|p|]); try reflexivity; lia.
Qed.

Lemma base64_char_not_pad (n : N) :
  (n < 64)%N -> Ascii.eqb (base64_char n) "=" = false.
Proof.
  intros Hn. destruct n as [|p]; [reflexivity|].
  do 6 (try destruct p as [p|p|]); try reflexivity; lia.
Qed.

Lemma base64_sextets_char (n : N) (s : string) :
  (n < 64)%N -> base64_sextets (String (base64_char n) s) = n :: base64_sextets s.
Proof.
  intros Hn. simpl. by rewrite base64_char_not_pad, base64_value_char.
Qed.

Lemma byte_of_N_eq (n : N) (x : Init.Byte.byte) : n = Byte.to_N x -> byte_of_N n = x.
Proof. intros ->. unfold byte_of_N. by rewrite Byte.of_to_N. Qed.

(** Lists three elements at a time. *)
Lemma list_ind3 {A} (P : list A -> Prop) :
  P [] -> (forall x, P [x]) -> (forall x y, P [x; y]) ->
  (forall x y z l, P l -> P (x :: y :: z :: l)) ->
  forall l, P l.
Proof.
  intros H0 H1 H2 H3.
  fix IH 1. intros [|x [|y [|z l]]]; [exact H0 | apply H1 | apply H2 | apply H3, IH].
Qed.

Lemma base64_sextets_pad (s : string) : base64_sextets (String "=" s) = [].
Proof. reflexivity. Qed.

Lemma base64_roundtrip (b : Buffer) :
  Buffer_from_base64 (Buffer_toString_base64 b) = b.
Proof.
  unfold Buffer_from_base64.
  induction b as [|x|x y|x y z l IH] using list_ind3.
  - reflexivity.
  - pose proof (Byte.to_N_bounded x) as Hx.
    cbn [Buffer_toString_base64].
    rewrite !base64_sextets_char, base64_sextets_pad by div_lia.
    cbn [bytes_of_sextets].
    repeat f_equal; apply byte_of_N_eq; div_lia.
  - pose proof (Byte.to_N_bounded x) as Hx. pose proof (Byte.to_N_bounded y) as Hy.
    cbn [Buffer_toString_base64].
    rewrite !base64_sextets_char, base64_sextets_pad by div_lia.
    cbn [bytes_of_sextets].
    repeat f_equal; apply byte_of_N_eq; div_lia.
  - pose proof (Byte.to_N_bounded x) as Hx. pose proof (Byte.to_N_bounded y) as Hy.
    pose proof (Byte.to_N_bounded z) as Hz.
    cbn [Buffer_toString_base64].
    rewrite !base64_sextets_char by div_lia. cbn [bytes_of_sextets].
    rewrite IH.
    repeat f_equal; apply byte_of_N_eq; div_lia.
Qed.

(** ** WebSocketRoute *)

(** C9: a binary payload is sent base64-encoded with [isBase64] set, a text
    payload is sent as it is with [isBase64] unset, on the page leg as on the
    server leg; a frame is delivered to an installed message handler decoded
    according to its flag, and decoding a frame that was encoded for sending
    gives back the payload, byte for byte: in particular for the bytes
    [0; 1; 2], whose frame is "AAEC". *)
Theorem WebSocketRoute_binary_roundtrip :
  (forall b, WebSocketRoute.frame_of (WebSocketRoute.Binary b)
             = {| WebSocketRoute.message := Buffer_toString_base64 b;
                  WebSocketRoute.isBase64 := true |})
  /\ (forall s, WebSocketRoute.frame_of (WebSocketRoute.Text s)
                = {| WebSocketRoute.message := s; WebSocketRoute.isBase64 := false |})
  /\ (forall this m,
         WebSocketRoute.send this m
         = [WebSocketRoute.Issue (WebSocketRoute.sendToPage (WebSocketRoute.frame_of m))]
         /\ WebSocketRoute.server_send this m
            = [WebSocketRoute.Issue (WebSocketRoute.sendToServer (WebSocketRoute.frame_of m))])
  /\ (forall m, WebSocketRoute.payload_of (WebSocketRoute.frame_of m) = m)
  /\ (forall b, Buffer_from_base64 (Buffer_toString_base64 b) = b)
  /\ (forall this handler m,
         WebSocketRoute.on_messageFromPage
           (WebSocketRoute.onMessage this handler) (WebSocketRoute.frame_of m)
         = [WebSocketRoute.CallOnMessage handler m]
         /\ WebSocketRoute.on_messageFromServer
              (WebSocketRoute.server_onMessage this handler) (WebSocketRoute.frame_of m)
            = [WebSocketRoute.CallOnMessage handler m])
  /\ WebSocketRoute.frame_of (WebSocketRoute.Binary [Init.Byte.x00; Init.Byte.x01; Init.Byte.x02])
     = {| WebSocketRoute.message := "AAEC"; WebSocketRoute.isBase64 := true |}
  /\ WebSocketRoute.payload_of {| WebSocketRoute.message := "AAEC"; WebSocketRoute.isBase64 := true |}
     = WebSocketRoute.Binary [Init.Byte.x00; Init.Byte.x01; Init.Byte.x02].
Proof.
  assert (Hrt : forall m, WebSocketRoute.payload_of (WebSocketRoute.frame_of m) = m).
  { intros [s|b]; [reflexivity|].
    unfold WebSocketRoute.payload_of; simpl. by rewrite base64_roundtrip. }
  repeat split; try reflexivity; auto using base64_roundtrip.
  - unfold WebSocketRoute.on_messageFromPage; simpl. by rewrite Hrt.
  - unfold WebSocketRoute.on_messageFromServer; simpl. by rewrite Hrt.
Qed.

(** C5 as stated fails: on a route that was never connected to the server,
    a message from the page is not forwarded anywhere, although the page
    leg has no handler. *)
Lemma WebSocketRoute_unconnected_page_message_dropped :
  ~ (forall this f,
        page_leg_unclaimed this ->
        WebSocketRoute.on_messageFromPage this f
        = [WebSocketRoute.Issue (WebSocketRoute.sendToServer f)]).
Proof.
  intros H.
  specialize (H (WebSocketRoute.new "ws://localhost/") text_frame (conj eq_refl eq_refl)).
  discriminate H.
Qed.

(** C5 (amended): on a leg with no handler, a message from the server is
    sent to the page, a close of the page closes the server leg and a close
    of the server closes the page leg, each with the parameters of the
    event; a message from the page is sent to the server when the route is
    connected to the server, and is dropped when it is not. *)
Theorem WebSocketRoute_default_forwarding (this : WebSocketRoute.t) :
  (page_leg_unclaimed this ->
   (forall f, WebSocketRoute.on_messageFromPage this f
              = if WebSocketRoute._connected this
                then [WebSocketRoute.Issue (WebSocketRoute.sendToServer f)]
                else [])
   /\ (forall c, WebSocketRoute.on_closePage this c
                 = [WebSocketRoute.Issue (WebSocketRoute.closeServer c)]))
  /\ (server_leg_unclaimed this ->
      (forall f, WebSocketRoute.on_messageFromServer this f
                 = [WebSocketRoute.Issue (WebSocketRoute.sendToPage f)])
      /\ (forall c, WebSocketRoute.on_closeServer this c
                    = [WebSocketRoute.Issue (WebSocketRoute.closePage c)])).
Proof.
  split; intros [Hm Hc]; split; intros x.
  - unfold WebSocketRoute.on_messageFromPage. by rewrite Hm.
  - unfold WebSocketRoute.on_closePage. by rewrite Hc.
  - unfold WebSocketRoute.on_messageFromServer. by rewrite Hm.
  - unfold WebSocketRoute.on_closeServer. by rewrite Hc.
Qed.

(** The forwarding on a route connected to the server with no handler on
    either leg, and the dropped message on a route that is not connected. *)
Lemma WebSocketRoute_default_forwarding_witness :
  WebSocketRoute.on_messageFromPage connected_route text_frame
  = [WebSocketRoute.Issue (WebSocketRoute.sendToServer text_frame)]
  /\ WebSocketRoute.on_closePage connected_route normal_close
     = [WebSocketRoute.Issue (WebSocketRoute.closeServer normal_close)]
  /\ WebSocketRoute.on_messageFromServer connected_route text_frame
     = [WebSocketRoute.Issue (WebSocketRoute.sendToPage text_frame)]
  /\ WebSocketRoute.on_closeServer connected_route normal_close
     = [WebSocketRoute.Issue (WebSocketRoute.closePage normal_close)]
  /\ WebSocketRoute.on_messageFromPage (WebSocketRoute.new "ws://localhost/") text_frame = [].
Proof.
  destruct (WebSocketRoute_default_forwarding connected_route) as [Hpage Hserver].
  destruct (Hpage (conj eq_refl eq_refl)) as [Hpm Hpc].
  destruct (Hserver (conj eq_refl eq_refl)) as [Hsm Hsc].
  destruct (WebSocketRoute_default_forwarding (WebSocketRoute.new "ws://localhost/"))
    as [Hnew _].
  destruct (Hnew (conj eq_refl eq_refl)) as [Hdrop _].
  split; [apply Hpm|]. split; [apply Hpc|]. split; [apply Hsm|]. split; [apply Hsc|].
  apply Hdrop.
Defined.

(** ** RouteHandler *)

Lemma started_on_count (ws : list Route.World) (h : RouteHandler.t) :
  RouteHandler.handledCount (started_on h ws)
  = (RouteHandler.handledCount h + Z.of_nat (length ws))%Z
  /\ RouteHandler._times (started_on h ws) = RouteHandler._times h.
Proof.
  revert h. induction ws as [|w ws IH]; intros h; simpl.
  - split; [lia|done].
  - destruct (IH (fst (fst (RouteHandler._handleInternal_begin h w)))) as [E1 E2].
    split; (etransitivity; [eassumption|]); simpl; [lia|done].
Qed.

Lemma onRoutes_unregistered (ws : list Route.World) (n : nat) :
  Dispatcher.onRoutes {| Dispatcher.registered := None; Dispatcher.started := n |} ws
  = {| Dispatcher.registered := None; Dispatcher.started := n |}.
Proof. induction ws as [|w ws IH]; simpl; [done|exact IH]. Qed.

(** C4 as stated fails: with a budget of 2, [willExpire()] already returns
    true when only one invocation has started. *)
Lemma RouteHandler_budget2_true_after_first_start :
  ~ (RouteHandler.willExpire
       (fst (fst (RouteHandler._handleInternal_begin
                    (RouteHandler.new (Some 2%Z)) (Route.new form_request))))
     = false).
Proof. discriminate. Qed.

(** C4 (amended): for a handler with a budget of 2, [willExpire()] returns
    false while no invocation has started and true once the first one has
    started, and from then on; a dispatcher that checks it before each
    invocation therefore removes the handler just before the second
    invocation starts, so that the handler runs for the first two matching
    requests and never a third time. *)
Theorem RouteHandler_budget2_expiry :
  RouteHandler.willExpire (RouteHandler.new (Some 2%Z)) = false
  /\ (forall w ws,
         RouteHandler.willExpire (started_on (RouteHandler.new (Some 2%Z)) (w :: ws)) = true)
  /\ (forall ws,
         Dispatcher.started
           (Dispatcher.onRoutes (Dispatcher.register (RouteHandler.new (Some 2%Z))) ws)
         = Nat.min (length ws) 2)
  /\ (forall w,
         Dispatcher.registered
           (Dispatcher.onRoutes (Dispatcher.register (RouteHandler.new (Some 2%Z))) [w])
         = Some (started_on (RouteHandler.new (Some 2%Z)) [w]))
  /\ (forall w1 w2 ws,
         Dispatcher.registered
           (Dispatcher.onRoutes (Dispatcher.register (RouteHandler.new (Some 2%Z)))
                                (w1 :: w2 :: ws))
         = None).
Proof.
  split; [reflexivity|].
  split.
  { intros w ws. unfold RouteHandler.willExpire.
    destruct (started_on_count (w :: ws) (RouteHandler.new (Some 2%Z))) as [-> ->].
    apply Z.geb_le. simpl. lia. }
  split.
  { intros [|w1 [|w2 ws]]; [reflexivity|reflexivity|].
    unfold Dispatcher.onRoutes. simpl fold_left.
    change (fold_left Dispatcher.onRoute ws ?d) with (Dispatcher.onRoutes d ws).
    unfold Dispatcher.onRoute at 1 2; simpl.
    rewrite onRoutes_unregistered. simpl. lia. }
  split; [reflexivity|].
  intros w1 w2 ws.
  unfold Dispatcher.onRoutes. simpl fold_left.
  change (fold_left Dispatcher.onRoute ws ?d) with (Dispatcher.onRoutes d ws).
  unfold Dispatcher.onRoute at 1 2; simpl.
  by rewrite onRoutes_unregistered.
Qed.

(** ** Request: redirect chains *)

Lemma redirectedFrom_set_redirectedTo (st : Request.Store) (from : nat) (r : Request.t)
    (to : option nat) (i : nat) :
  st !! from = Some r ->
  Request.redirectedFrom (<[from := Request.set_redirectedTo r to]> st) i
  = Request.redirectedFrom st i.
Proof.
  intros Hr. unfold Request.redirectedFrom.
  rewrite list_lookup_insert. case_decide as Hd; [|done].
  destruct Hd as [-> _]. by rewrite Hr.
Qed.

Lemma redirectedTo_set_redirectedTo (st : Request.Store) (from : nat) (r : Request.t)
    (to : option nat) (i : nat) :
  st !! from = Some r ->
  Request.redirectedTo (<[from := Request.set_redirectedTo r to]> st) i
  = if decide (from = i) then to else Request.redirectedTo st i.
Proof.
  intros Hr. unfold Request.redirectedTo.
  rewrite list_lookup_insert.
  pose proof (lookup_lt_Some _ _ _ Hr).
  destruct (decide (from = i)) as [->|Hne].
  - by rewrite decide_True.
  - rewrite decide_False; [done|]. by intros [? _].
Qed.

Lemma redirectedFrom_snoc (st : Request.Store) (r : Request.t) (i : nat) :
  Request.redirectedFrom (st ++ [r]) i
  = if decide (i = length st) then Request._redirectedFrom r else Request.redirectedFrom st i.
Proof.
  unfold Request.redirectedFrom. case_decide as Hd.
  - subst i. by rewrite list_lookup_middle.
  - destruct (decide (i < length st)).
    + by rewrite lookup_app_l.
    + rewrite !lookup_ge_None_2; [done|lia|rewrite length_app; simpl; lia].
Qed.

Lemma redirectedTo_snoc (st : Request.Store) (r : Request.t) (i : nat) :
  Request.redirectedTo (st ++ [r]) i
  = if decide (i = length st) then Request._redirectedTo r else Request.redirectedTo st i.
Proof.
  unfold Request.redirectedTo. case_decide as Hd.
  - subst i. by rewrite list_lookup_middle.
  - destruct (decide (i < length st)).
    + by rewrite lookup_app_l.
    + rewrite !lookup_ge_None_2; [done|lia|rewrite length_app; simpl; lia].
Qed.

Lemma length_new (st : Request.Store) (initializer : Request.Initializer) :
  length (fst (Request.new st initializer)) = S (length st)
  /\ snd (Request.new st initializer) = length st.
Proof.
  unfold Request.new.
  destruct (Request.init_redirectedFrom initializer) as [from|]; simpl.
  - destruct ((st ++ [Request.fresh initializer]) !! from); simpl;
      rewrite ?length_insert, length_app; simpl; split; lia.
  - rewrite length_app; simpl; split; lia.
Qed.

Lemma redirectedFrom_new (st : Request.Store) (initializer : Request.Initializer) (i : nat) :
  Request.redirectedFrom (fst (Request.new st initializer)) i
  = if decide (i = length st) then Request.init_redirectedFrom initializer
    else Request.redirectedFrom st i.
Proof.
  unfold Request.new.
  destruct (Request.init_redirectedFrom initializer) as [from|] eqn:Hfrom; simpl.
  - destruct ((st ++ [Request.fresh initializer]) !! from) as [r|] eqn:Hr; simpl.
    + rewrite (redirectedFrom_set_redirectedTo _ _ _ _ _ Hr), redirectedFrom_snoc.
      simpl. by rewrite Hfrom.
    + rewrite redirectedFrom_snoc. simpl. by rewrite Hfrom.
  - rewrite redirectedFrom_snoc. simpl. by rewrite Hfrom.
Qed.

Lemma redirectedTo_new (st : Request.Store) (initializer : Request.Initializer) (i : nat) :
  (forall from, Request.init_redirectedFrom initializer = Some from -> from < length st) ->
  Request.redirectedTo (fst (Request.new st initializer)) i
  = if decide (Request.init_redirectedFrom initializer = Some i) then Some (length st)
    else Request.redirectedTo st i.
Proof.
  intros Hwf. unfold Request.new.
  destruct (Request.init_redirectedFrom initializer) as [from|] eqn:Hfrom; simpl.
  - specialize (Hwf from eq_refl).
    destruct ((st ++ [Request.fresh initializer]) !! from) as [r|] eqn:Hr; simpl.
    + rewrite (redirectedTo_set_redirectedTo _ _ _ _ _ Hr), redirectedTo_snoc. simpl.
      repeat case_decide; simplify_eq; try done; try lia.
      unfold Request.redirectedTo. by rewrite lookup_ge_None_2.
    + apply lookup_ge_None in Hr. rewrite length_app in Hr. simpl in Hr. lia.
  - rewrite redirectedTo_snoc. simpl. repeat case_decide; simplify_eq; try done.
    unfold Request.redirectedTo. by rewrite lookup_ge_None_2.
Qed.

(** In a store the constructor built, a request points forward to a request
    that exists and that points back to it. *)
Lemma created_links (st : Request.Store) :
  created st ->
  forall this to,
    Request.redirectedTo st this = Some to ->
    this < to /\ to < length st /\ Request.redirectedFrom st to = Some this.
Proof.
  induction 1 as [|st initializer Hst IH Hwf]; intros this to Hto.
  - unfold Request.redirectedTo in Hto. by rewrite lookup_nil in Hto.
  - destruct (length_new st initializer) as [Hlen _].
    rewrite redirectedTo_new in Hto by done.
    rewrite redirectedFrom_new, Hlen.
    case_decide as Hd.
    + simplify_eq. specialize (Hwf this Hd).
      rewrite decide_True by done. split_and!; [lia|lia|done].
    + destruct (IH _ _ Hto) as (? & ? & ?).
      rewrite decide_False by lia. split_and!; [lia|lia|done].
Qed.

Lemma _finalRequest_within_follows (st : Request.Store) :
  created st ->
  forall fuel this,
    this < length st -> length st - this <= fuel ->
    exists tail, Request._finalRequest_within fuel st this = Some tail /\ follows st this tail.
Proof.
  intros Hst. induction fuel as [|fuel IH]; intros this Hlt Hfuel; [lia|].
  simpl. destruct (Request.redirectedTo st this) as [to|] eqn:Hto.
  - destruct (created_links st Hst _ _ Hto) as (? & ? & _).
    destruct (IH to) as (tail & Htail & Hfollows); [lia|lia|].
    exists tail. split; [done|]. by eapply follows_redirect.
  - exists this. split; [done|]. by apply follows_end.
Qed.

Lemma follows_functional (st : Request.Store) (this tail tail' : nat) :
  follows st this tail -> follows st this tail' -> tail = tail'.
Proof.
  induction 1 as [this Hend|this to tail Hto _ IH]; inversion 1; simplify_eq; auto.
Qed.

Lemma follows_tail (st : Request.Store) (this tail : nat) :
  follows st this tail -> Request.redirectedTo st tail = None.
Proof. induction 1; auto. Qed.

(** C8: in every store of requests built by the constructor,
    [_finalRequest()] of a request returns the request at which following
    [redirectedTo] ends, and the request a request is redirected to has
    that request as its [redirectedFrom()]; a request made with no
    predecessor has a null [redirectedFrom()]. For the chain A -> B -> C:
    the final request of A, of B and of C is C, C is redirected from B, B
    from A, and A from nothing. *)
Theorem Request_redirect_chain :
  (forall st, created st ->
     (forall this, this < length st ->
        exists tail,
          Request._finalRequest st this = Some tail
          /\ follows st this tail
          /\ Request.redirectedTo st tail = None
          /\ (forall tail', follows st this tail' -> tail' = tail))
     /\ (forall this to,
           Request.redirectedTo st this = Some to ->
           Request.redirectedFrom st to = Some this))
  /\ (forall st initializer,
        Request.init_redirectedFrom initializer = None ->
        Request.redirectedFrom (fst (Request.new st initializer))
                               (snd (Request.new st initializer)) = None)
  /\ (forall st initializer from,
        Request.init_redirectedFrom initializer = Some from ->
        Request.redirectedFrom (fst (Request.new st initializer))
                               (snd (Request.new st initializer)) = Some from)
  /\ (Request._finalRequest chain_ABC 0 = Some 2
      /\ Request._finalRequest chain_ABC 1 = Some 2
      /\ Request._finalRequest chain_ABC 2 = Some 2
      /\ Request.redirectedFrom chain_ABC 2 = Some 1
      /\ Request.redirectedFrom chain_ABC 1 = Some 0
      /\ Request.redirectedFrom chain_ABC 0 = None).
Proof.
  split; [|split; [|split]].
  - intros st Hst. split.
    + intros this Hlt.
      destruct (_finalRequest_within_follows st Hst (length st) this) as (tail & Hfin & Hfol);
        [done|lia|].
      exists tail. split_and!; [done|done| |].
      * by eapply follows_tail.
      * intros tail' Hfol'. by eapply follows_functional.
    + intros this to Hto. by destruct (created_links st Hst _ _ Hto) as (_ & _ & ?).
  - intros st initializer Hnone.
    destruct (length_new st initializer) as [_ ->].
    rewrite redirectedFrom_new. by rewrite decide_True.
  - intros st initializer from Hfrom.
    destruct (length_new st initializer) as [_ ->].
    rewrite redirectedFrom_new. by rewrite decide_True.
  - repeat split; reflexivity.
Qed.

Lemma created_chain_ABC : created chain_ABC.
Proof.
  change chain_ABC with
    (fst (Request.new
            (fst (Request.new
                    (fst (Request.new [] (redirect_initializer "http://localhost/a" None)))
                    (redirect_initializer "http://localhost/b" (Some 0))))
            (redirect_initializer "http://localhost/c" (Some 1)))).
  apply (created_new _ (redirect_initializer "http://localhost/c" (Some 1))).
  - apply (created_new _ (redirect_initializer "http://localhost/b" (Some 0))).
    + apply (created_new [] (redirect_initializer "http://localhost/a" None)).
      * apply created_empty.
      * intros from Hfrom. discriminate Hfrom.
    + intros from Hfrom. injection Hfrom as <-. simpl. lia.
  - intros from Hfrom. injection Hfrom as <-. simpl. lia.
Defined.

(** The chain A -> B -> C as an instance of the general statement. *)
Lemma Request_redirect_chain_witness :
  created chain_ABC
  /\ (exists tail, Request._finalRequest chain_ABC 0 = Some tail /\ follows chain_ABC 0 tail)
  /\ Request.redirectedFrom chain_ABC 1 = Some 0
  /\ Request.redirectedFrom (fst (Request.new [] (redirect_initializer "http://localhost/a" None)))
       (snd (Request.new [] (redirect_initializer "http://localhost/a" None))) = None.
Proof.
  destruct Request_redirect_chain as (Hgen & Hhead & _ & _).
  destruct (Hgen chain_ABC created_chain_ABC) as [Hfinal Hback].
  split; [exact created_chain_ABC|].
  split.
  - destruct (Hfinal 0) as (tail & ? & ? & _); [simpl; lia|]. by exists tail.
  - split; [apply Hback; reflexivity|apply Hhead; reflexivity].
Defined.

(** ** Request: overrides *)






(** ** Objects *)

Lemma obj_get_update (key k : string) (v : option string) (o : Headers) :
  obj_get k (obj_update key v o) = if String.eqb key k then v else obj_get k o.
Proof.
  induction o as [|[k' w] o IH]; simpl; [done|].
  destruct (String.eqb k' key) eqn:E1; simpl.
  - apply String.eqb_eq in E1 as ->. by destruct (String.eqb key k).
  - rewrite IH. destruct (String.eqb k' k) eqn:E2; [|done].
    apply String.eqb_eq in E2 as ->. by rewrite String.eqb_sym, E1.
Qed.

Lemma obj_lookup_update {V} (key k : string) (v : V) (o : JSObject V) :
  obj_lookup k (obj_update key v o) = if String.eqb key k then Some v else obj_lookup k o.
Proof.
  induction o as [|[k' w] o IH]; simpl; [done|].
  destruct (String.eqb k' key) eqn:E1; simpl.
  - apply String.eqb_eq in E1 as ->. by destruct (String.eqb key k).
  - rewrite IH. destruct (String.eqb k' k) eqn:E2; [|done].
    apply String.eqb_eq in E2 as ->. by rewrite String.eqb_sym, E1.
Qed.

Lemma obj_has_update {V} (key k : string) (v : V) (o : JSObject V) :
  obj_has k (obj_update key v o) = if String.eqb key k then true else obj_has k o.
Proof.
  induction o as [|[k' w] o IH]; simpl; [done|].
  destruct (String.eqb k' key) eqn:E1; simpl.
  - apply String.eqb_eq in E1 as ->. by destruct (String.eqb key k).
  - rewrite IH. destruct (String.eqb k' k) eqn:E2; [|done].
    apply String.eqb_eq in E2 as ->. by rewrite String.eqb_sym, E1.
Qed.

Lemma obj_keys_update {V} (key : string) (v : V) (o : JSObject V) :
  obj_keys (obj_update key v o) = if obj_has key o then obj_keys o else obj_keys o ++ [key].
Proof.
  unfold obj_keys. induction o as [|[k' w] o IH]; simpl; [done|].
  destruct (String.eqb k' key) eqn:E1; simpl; [done|].
  rewrite IH. by destruct (obj_has key o).
Qed.

Lemma obj_has_keys {V} (key : string) (o : JSObject V) :
  obj_has key o = true <-> key ∈ obj_keys o.
Proof.
  induction o as [|[k' w] o IH]; simpl.
  - split; [done|]. by intros ?%elem_of_nil.
  - rewrite elem_of_cons. destruct (String.eqb k' key) eqn:E1.
    + apply String.eqb_eq in E1. split; [by left|done].
    + apply String.eqb_neq in E1. rewrite IH. split; [by right|]. by intros [?|?].
Qed.

Lemma obj_keys_update_NoDup {V} (key : string) (v : V) (o : JSObject V) :
  NoDup (obj_keys o) -> NoDup (obj_keys (obj_update key v o)).
Proof.
  intros Hnd. rewrite obj_keys_update.
  destruct (obj_has key o) eqn:E; [done|].
  apply NoDup_app. split_and!; [done| |apply NoDup_singleton].
  intros k Hk ->%list_elem_of_singleton.
  apply obj_has_keys in Hk. congruence.
Qed.

Lemma obj_set_NoDup {V} (key : string) (v : V) (o : JSObject V) :
  NoDup (obj_keys o) -> NoDup (obj_keys (obj_set key v o)).
Proof.
  unfold obj_set. destruct (String.eqb key "__proto__"); [done|].
  apply obj_keys_update_NoDup.
Qed.

(** ** Request: postDataJSON *)

Lemma MultiMap_get_absent (m : MultiMap.t) (k : string) :
  k ∉ MultiMap.keys m -> MultiMap.get k m = [].
Proof.
  induction m as [|[k' values] m IH]; simpl; [done|].
  rewrite not_elem_of_cons. intros [Hne Hnotin].
  destruct (String.eqb k' k) eqn:E; [|by apply IH].
  apply String.eqb_eq in E. congruence.
Qed.

Lemma headers_fold_get (this : RawHeaders.t) (k : string) (names : list string) (acc : Headers) :
  k <> "__proto__" ->
  obj_get k (fold_left (fun result name => obj_set name (RawHeaders.get this name) result)
                       names acc)
  = if decide (k ∈ names) then RawHeaders.get this k else obj_get k acc.
Proof.
  intros Hk. revert acc. induction names as [|n names IH]; intros acc; cbn [fold_left].
  - by rewrite decide_False by apply not_elem_of_nil.
  - rewrite IH. destruct (decide (k ∈ names)) as [Hin|Hnotin].
    + by rewrite decide_True by (by right).
    + unfold obj_set. destruct (String.eqb n "__proto__") eqn:Ep.
      * apply String.eqb_eq in Ep. subst n.
        rewrite decide_False; [done|]. rewrite not_elem_of_cons. done.
      * rewrite obj_get_update. destruct (String.eqb n k) eqn:E.
        -- apply String.eqb_eq in E as ->. by rewrite decide_True by (by left).
        -- apply String.eqb_neq in E. rewrite decide_False; [done|].
           rewrite not_elem_of_cons. done.
Qed.

(** [headers()] maps a lower-case name to what [get] returns for it. *)
Lemma headers_get (this : RawHeaders.t) (k : string) :
  k <> "__proto__" -> toLowerCase k = k ->
  obj_get k (RawHeaders.headers this) = RawHeaders.get this k.
Proof.
  intros Hk Hlow. unfold RawHeaders.headers. rewrite headers_fold_get by done.
  case_decide as Hin; [done|]. simpl.
  unfold RawHeaders.get, RawHeaders.getAll. rewrite Hlow.
  by rewrite (MultiMap_get_absent _ _ Hin).
Qed.

Lemma Request_content_type (this : Request.t) :
  obj_get "content-type" (Request.headers this)
  = RawHeaders.get (effective_headers this) "content-type".
Proof.
  unfold Request.headers, effective_headers.
  destruct (Request.headers_override (Request._fallbackOverrides this));
    by apply headers_get.
Qed.

Lemma entries_fold_lookup (k : string) (pairs : list (string * string))
    (acc : JSObject string) :
  k <> "__proto__" ->
  obj_lookup k (fold_left (fun entries kv => obj_set (fst kv) (snd kv) entries) pairs acc)
  = match last_value k pairs with
    | Some v => Some v
    | None => obj_lookup k acc
    end.
Proof.
  intros Hk. revert acc. induction pairs as [|[k' v] pairs IH]; intros acc; simpl; [done|].
  rewrite IH. destruct (last_value k pairs); [done|].
  unfold obj_set; simpl. destruct (String.eqb k' "__proto__") eqn:Ep.
  - apply String.eqb_eq in Ep. subst k'.
    destruct (String.eqb "__proto__" k) eqn:E; [|done].
    apply String.eqb_eq in E. congruence.
  - rewrite obj_lookup_update. by destruct (String.eqb k' k).
Qed.

Lemma entries_fold_NoDup (pairs : list (string * string)) (acc : JSObject string) :
  NoDup (obj_keys acc) ->
  NoDup (obj_keys (fold_left (fun entries kv => obj_set (fst kv) (snd kv) entries) pairs acc)).
Proof.
  revert acc. induction pairs as [|kv pairs IH]; intros acc Hnd; simpl; [done|].
  apply IH. by apply obj_set_NoDup.
Qed.

Lemma obj_lookup_map {V W} (f : V -> W) (k : string) (o : JSObject V) :
  obj_lookup k (map (fun kv => (fst kv, f (snd kv))) o) = f <$> obj_lookup k o.
Proof.
  induction o as [|[k' v] o IH]; simpl; [done|].
  by destruct (String.eqb k' k).
Qed.

Lemma Buffer_toString_utf8_empty (b : Buffer) :
  Buffer_toString_utf8 b = "" <-> b = [].
Proof. destruct b; unfold Buffer_toString_utf8; simpl; split; intros H; done. Qed.

Lemma entries_fold_proto (pairs : list (string * string)) (acc : JSObject string) :
  obj_lookup "__proto__"
    (fold_left (fun entries kv => obj_set (fst kv) (snd kv) entries) pairs acc)
  = obj_lookup "__proto__" acc.
Proof.
  revert acc. induction pairs as [|[k' v] pairs IH]; intros acc; simpl; [done|].
  rewrite IH. unfold obj_set; simpl.
  destruct (String.eqb k' "__proto__") eqn:Ep; [done|].
  rewrite obj_lookup_update. by rewrite Ep.
Qed.

Lemma postData_of_buffer (this : Request.t) (b : Buffer) :
  Request.postDataBuffer this = Some b -> b <> [] ->
  Request.postData this = Some (Buffer_toString_utf8 b).
Proof.
  intros Hb Hne. unfold Request.postData. rewrite Hb.
  destruct (String.eqb (Buffer_toString_utf8 b) "") eqn:E; [|done].
  apply String.eqb_eq, Buffer_toString_utf8_empty in E. done.
Qed.

(** C6: [postDataJSON()] returns null when the request has no body or an
    empty one. For a non-empty body that is UTF-8 text: when the
    content-type header includes application/x-www-form-urlencoded and the
    decoded names and values of the form are UTF-8 texts, the result is an
    object with one member per name of the form-decoded body, holding as a
    string the last value given to the name (a name [__proto__] gives no
    member); when the header does not include it, the result is what
    [JSON.parse] returns for the body, and the MalformedPostData error when
    [JSON.parse] throws. The form body "a=1&b=2" gives [{a: "1", b: "2"}]. *)
Theorem Request_postDataJSON (JSON_parse : string -> option JSON) (this : Request.t) :
  (Request.postDataBuffer this = None \/ Request.postDataBuffer this = Some [] ->
   Request.postDataJSON JSON_parse this = Ok JNull)
  /\ (forall b,
        Request.postDataBuffer this = Some b -> b <> [] -> utf8_buffer b = true ->
        (form_urlencoded this = true ->
         utf8_form (URLSearchParams (Buffer_toString_utf8 b)) ->
         exists members,
           Request.postDataJSON JSON_parse this = Ok (JObject members)
           /\ NoDup (obj_keys members)
           /\ obj_lookup "__proto__" members = None
           /\ forall k, k <> "__proto__" ->
                obj_lookup k members
                = JString <$> last_value k (URLSearchParams (Buffer_toString_utf8 b)))
        /\ (form_urlencoded this = false ->
            Request.postDataJSON JSON_parse this
            = match JSON_parse (Buffer_toString_utf8 b) with
              | Some v => Ok v
              | None => Throw (MalformedPostData (Buffer_toString_utf8 b))
              end))
  /\ Request.postDataJSON JSON_parse form_request
     = Ok (JObject [("a", JString "1"); ("b", JString "2")]).
Proof.
  split; [|split; [|reflexivity]].
  - unfold Request.postDataJSON, Request.postData. by intros [-> | ->].
  - intros b Hb Hne _. unfold Request.postDataJSON.
    rewrite (postData_of_buffer _ _ Hb Hne), Request_content_type.
    unfold form_urlencoded.
    split; [intros -> _|by intros ->].
    eexists. split; [reflexivity|].
    split_and!.
    + unfold obj_keys. rewrite map_map. simpl.
      apply (entries_fold_NoDup _ []), NoDup_nil_2.
    + rewrite obj_lookup_map, entries_fold_proto. done.
    + intros k Hk. rewrite obj_lookup_map, entries_fold_lookup by done.
      by destruct (last_value k _).
Qed.

(** [postDataJSON()] on the examples: a form body, a JSON body, a body that
    is not JSON, and no body. *)
Lemma Request_postDataJSON_witness :
  (exists members,
      Request.postDataJSON JSON_parse_examples form_request = Ok (JObject members)
      /\ obj_lookup "a" members = Some (JString "1")
      /\ obj_lookup "b" members = Some (JString "2"))
  /\ Request.postDataJSON JSON_parse_examples (plain_request json_body)
     = Ok (JObject [("a", JNumber 1)])
  /\ Request.postDataJSON JSON_parse_examples (plain_request "not json")
     = Throw (MalformedPostData "not json")
  /\ Request.postDataJSON JSON_parse_examples bodiless_request = Ok JNull.
Proof.
  split; [|split; [|split]].
  - destruct (Request_postDataJSON JSON_parse_examples form_request) as (_ & Hbody & _).
    destruct (Hbody (Buffer_from_utf8 "a=1&b=2") eq_refl ltac:(discriminate) eq_refl)
      as [Hform _].
    destruct (Hform eq_refl ltac:(by repeat constructor)) as (members & Hm & _ & _ & Hk).
    exists members. split; [exact Hm|].
    split; [apply (Hk "a"); discriminate|apply (Hk "b"); discriminate].
  - destruct (Request_postDataJSON JSON_parse_examples (plain_request json_body))
      as (_ & Hbody & _).
    destruct (Hbody (Buffer_from_utf8 json_body) eq_refl ltac:(discriminate) eq_refl)
      as [_ Hjson].
    exact (Hjson eq_refl).
  - destruct (Request_postDataJSON JSON_parse_examples (plain_request "not json"))
      as (_ & Hbody & _).
    destruct (Hbody (Buffer_from_utf8 "not json") eq_refl ltac:(discriminate) eq_refl)
      as [_ Hjson].
    exact (Hjson eq_refl).
  - destruct (Request_postDataJSON JSON_parse_examples bodiless_request) as (Hnull & _).
    apply Hnull. right. reflexivity.
Defined.

(** ** Route: fulfill *)

Lemma obj_get_set (key k : string) (v : option string) (o : Headers) :
  obj_get k (obj_set key v o)
  = if String.eqb key "__proto__" then obj_get k o
    else if String.eqb key k then v else obj_get k o.
Proof.
  unfold obj_set. destruct (String.eqb key "__proto__"); [done|apply obj_get_update].
Qed.

Lemma obj_has_set {V} (key k : string) (v : V) (o : JSObject V) :
  obj_has k (obj_set key v o)
  = if String.eqb key "__proto__" then obj_has k o
    else if String.eqb key k then true else obj_has k o.
Proof.
  unfold obj_set. destruct (String.eqb key "__proto__"); [done|apply obj_has_update].
Qed.

Lemma obj_keys_set {V} (key k : string) (v : V) (o : JSObject V) :
  k ∈ obj_keys (obj_set key v o) -> k = key \/ k ∈ obj_keys o.
Proof.
  unfold obj_set. destruct (String.eqb key "__proto__"); [by right|].
  rewrite obj_keys_update. destruct (obj_has key o); [by right|].
  rewrite elem_of_app, list_elem_of_singleton. tauto.
Qed.

Section GivenHeaders.
Variable given : Headers.

Lemma given_fold_get (k : string) (names : list string) (acc : Headers) :
  k <> "__proto__" ->
  obj_get k (fold_left (Route.set_given_header given) names acc)
  = match last_named k names with
    | Some n => Some (default "undefined" (obj_get n given))
    | None => obj_get k acc
    end.
Proof.
  intros Hk. revert acc. induction names as [|n names IH]; intros acc; simpl; [done|].
  rewrite IH. destruct (last_named k names); [done|].
  unfold Route.set_given_header. rewrite obj_get_set.
  destruct (String.eqb (toLowerCase n) k) eqn:E.
  - apply String.eqb_eq in E. rewrite E.
    apply String.eqb_neq in Hk. by rewrite Hk.
  - by destruct (String.eqb (toLowerCase n) "__proto__").
Qed.

Lemma given_fold_has (k : string) (names : list string) (acc : Headers) :
  k <> "__proto__" ->
  obj_has k (fold_left (Route.set_given_header given) names acc)
  = match last_named k names with
    | Some n => true
    | None => obj_has k acc
    end.
Proof.
  intros Hk. revert acc. induction names as [|n names IH]; intros acc; simpl; [done|].
  rewrite IH. destruct (last_named k names); [done|].
  unfold Route.set_given_header. rewrite obj_has_set.
  destruct (String.eqb (toLowerCase n) k) eqn:E.
  - apply String.eqb_eq in E. rewrite E.
    apply String.eqb_neq in Hk. by rewrite Hk.
  - by destruct (String.eqb (toLowerCase n) "__proto__").
Qed.

Lemma given_fold_keys (k : string) (names : list string) (acc : Headers) :
  k ∈ obj_keys (fold_left (Route.set_given_header given) names acc) ->
  toLowerCase k = k \/ k ∈ obj_keys acc.
Proof.
  revert acc. induction names as [|n names IH]; intros acc; simpl; [by right|].
  intros [Hlow|Hin]%IH; [by left|].
  apply obj_keys_set in Hin as [->|Hin]; [left; apply toLowerCase_idem|by right].
Qed.
End GivenHeaders.

Lemma JSON_stringify_nonempty (v : JSON) : String.length (JSON_stringify v) <> 0.
Proof.
  destruct v as [|[]|[|p|p]|s|items|members]; simpl; try done.
  unfold String_of_N, NilZero.string_of_uint.
  by destruct (N.to_uint (N.pos p)).
Qed.

Lemma fulfill_headers_object_lowercase (env : Route.Environment)
    (options : Route.FulfillOptions) (headersOption : option Headers) (length : nat) (k : string) :
  k ∈ obj_keys (Route.fulfill_headers_object env options headersOption length) ->
  toLowerCase k = k.
Proof.
  unfold Route.fulfill_headers_object.
  set (headers0 := fold_left _ _ _).
  assert (H0 : forall k, k ∈ obj_keys headers0 -> toLowerCase k = k).
  { intros k' [?|Hin]%given_fold_keys; [done|]. by apply elem_of_nil in Hin. }
  set (headers1 := if truthy_string (Route.contentType options) then _ else _).
  assert (H1 : forall k, k ∈ obj_keys headers1 -> toLowerCase k = k).
  { intros k'. unfold headers1.
    repeat case_match; try apply H0; intros [->|Hin]%obj_keys_set; auto. }
  case_match; [|apply H1].
  intros [->|Hin]%obj_keys_set; auto.
Qed.

Lemma fulfill_headers_object_content_type (env : Route.Environment)
    (options : Route.FulfillOptions) (headersOption : option Headers) (length : nat) :
  obj_get "content-type" (Route.fulfill_headers_object env options headersOption length)
  = if truthy_string (Route.contentType options) then Route.contentType options
    else if match Route.json options with Some j => truthy j | None => false end
         then Some "application/json"
         else if truthy_string (Route.path options)
              then Some (js_or (Route.getMimeTypeForPath env (default "" (Route.path options)))
                               "application/octet-stream")
              else given_header "content-type" headersOption.
Proof.
  unfold Route.fulfill_headers_object.
  set (headers0 := fold_left _ _ _).
  assert (H0 : obj_get "content-type" headers0 = given_header "content-type" headersOption).
  { unfold headers0, given_header. rewrite given_fold_get by done.
    by destruct (last_named _ _). }
  set (headers1 := if truthy_string (Route.contentType options) then _ else _).
  assert (H1 : obj_get "content-type"
                 (if negb (Nat.eqb length 0) && negb (obj_has "content-length" headers1)
                  then obj_set "content-length" (Some (String_of_N (N.of_nat length))) headers1
                  else headers1) = obj_get "content-type" headers1).
  { case_match; [|done]. by rewrite obj_get_set. }
  rewrite H1. unfold headers1.
  destruct (Route.contentType options) as [ct|]; simpl.
  - destruct (String.eqb ct ""); simpl; [|by rewrite obj_get_set].
    repeat case_match; rewrite ?obj_get_set; done.
  - repeat case_match; rewrite ?obj_get_set; done.
Qed.



(** With a path the body sent is the content of the file in base64 and not
    the serialized value. *)
Example Route_fulfill_json_with_path :
  exists params,
    Route.fulfill_params page_env fulfill_json_path_options = Ok params
    /\ Route.fulfill_body params = Some "aGk="
    /\ Route.fulfill_isBase64 params = true.
Proof. eexists. split; [reflexivity|]. split; reflexivity. Qed.

(** With a value that is falsy no content-type is set. *)
Example Route_fulfill_json_zero :
  exists params,
    Route.fulfill_params example_env fulfill_json_zero_options = Ok params
    /\ Route.fulfill_body params = Some "0"
    /\ Route.fulfill_headers params = [ {| name := "content-length"; value := "1" |} ].
Proof. eexists. split; [reflexivity|]. split; reflexivity. Qed.



(** ** Route: the resolving calls *)

Lemma callback_route (env : Route.Environment) (c : Route.Call) (w : Route.World) :
  Route.route (snd (Route.callback env c w)) = Route.route w
  /\ Route.promises (snd (Route.callback env c w)) = Route.promises w.
Proof.
  destruct c as [errorCode|url|options|options]; simpl; try done.
  unfold Route._innerFulfill, Route.bind, Route.of_result.
  by destruct (Route.fulfill_params env options).
Qed.

(** A call on a Route that is not being handled fails with AlreadyHandled
    and changes nothing. *)
Lemma await_one_handled (env : Route.Environment) (a : Route.Awaited) (w : Route.World) :
  Route._handlingPromise (Route.route w) = None ->
  await_one env a w = (Throw AlreadyHandled, w).
Proof.
  intros Hnone. destruct a as [c reply|options]; simpl.
  - unfold Route._handleRoute_begin, Route._checkNotHandled. by rewrite Hnone.
  - unfold Route.fallback, Route.bind, Route._checkNotHandled. by rewrite Hnone.
Qed.

(** A call that succeeds leaves the Route handled. *)
Lemma await_one_success (env : Route.Environment) (a : Route.Awaited) (w w' : Route.World) :
  await_one env a w = (Ok tt, w') ->
  Route._handlingPromise (Route.route w') = None.
Proof.
  destruct a as [c reply|options]; simpl.
  - unfold Route._handleRoute_begin, Route._checkNotHandled.
    destruct (Route._handlingPromise (Route.route w)) as [chain|] eqn:Hchain; [|done].
    destruct (callback_route env c w) as [Hroute _].
    destruct (Route.callback env c w) as [[[]|e] w1]; simpl in Hroute.
    + unfold Route._handleRoute_resume, Route.try_catch, Route.bind, Route.of_result.
      destruct reply as [[]|e]; simpl.
      * unfold Route._reportHandled. rewrite Hroute, Hchain. by intros [= <-].
      * done.
    + unfold Route._handleRoute_resume, Route.try_catch, Route.bind, Route.of_result.
      done.
  - unfold Route.fallback, Route.bind, Route._checkNotHandled.
    destruct (Route._handlingPromise (Route.route w)) as [chain|] eqn:Hchain; [|done].
    simpl. unfold Route._reportHandled; simpl. rewrite Hchain. by intros [= <-].
Qed.

(** A call whose command does not fail succeeds on a Route being handled. *)
Lemma await_one_first (env : Route.Environment) (a : Route.Awaited) (w : Route.World)
    (chain : nat) :
  Route._handlingPromise (Route.route w) = Some chain ->
  command_succeeds env a w ->
  fst (await_one env a w) = Ok tt.
Proof.
  intros Hchain Hok. destruct a as [c reply|options]; simpl in *.
  - destruct Hok as [Hcb ->].
    unfold Route._handleRoute_begin, Route._checkNotHandled. rewrite Hchain.
    destruct (callback_route env c w) as [Hroute _].
    destruct (Route.callback env c w) as [[[]|e] w1]; simpl in *; [|done].
    unfold Route._handleRoute_resume, Route.try_catch, Route.bind, Route.of_result,
      Route._reportHandled.
    by rewrite Hroute, Hchain.
  - unfold Route.fallback, Route.bind, Route._checkNotHandled. rewrite Hchain. simpl.
    unfold Route._reportHandled; simpl. by rewrite Hchain.
Qed.

Lemma await_all_handled (env : Route.Environment) (script : list Route.Awaited)
    (w : Route.World) :
  Route._handlingPromise (Route.route w) = None ->
  await_all env script w = (replicate (length script) (Throw AlreadyHandled), w).
Proof.
  intros Hnone. induction script as [|a script IH]; simpl; [done|].
  by rewrite (await_one_handled env a w Hnone), IH.
Qed.

Lemma await_all_length (env : Route.Environment) (script : list Route.Awaited)
    (w : Route.World) :
  length (fst (await_all env script w)) = length script.
Proof.
  revert w. induction script as [|a script IH]; intros w; simpl; [done|].
  destruct (await_one env a w) as [r w1]. specialize (IH w1).
  destruct (await_all env script w1) as [rs w2]. simpl in *. by rewrite IH.
Qed.

(** Once a call of a script has succeeded, the later ones fail with
    AlreadyHandled. *)
Lemma await_all_after_success (env : Route.Environment) (script : list Route.Awaited)
    (w : Route.World) (i j : nat) :
  fst (await_all env script w) !! i = Some (Ok tt) ->
  i < j -> j < length script ->
  fst (await_all env script w) !! j = Some (Throw AlreadyHandled).
Proof.
  revert w i j. induction script as [|a script IH]; intros w i j Hi Hij Hj; simpl in *; [lia|].
  destruct (await_one env a w) as [r w1] eqn:Hone.
  destruct (await_all env script w1) as [rs w2] eqn:Hall. simpl in *.
  destruct j as [|j]; [lia|]. simpl.
  destruct i as [|i]; simpl in Hi.
  - injection Hi as ->.
    apply await_one_success in Hone.
    rewrite (await_all_handled env script w1 Hone) in Hall. injection Hall as <- _.
    apply lookup_replicate_2. lia.
  - specialize (IH w1 i j). rewrite Hall in IH. simpl in IH. apply IH; [done|lia|lia].
Qed.

(** A script of awaited calls, as a schedule, runs the calls one by one. *)
Lemma exec_sequential (env : Route.Environment) (script : list Route.Awaited) (run : Route.Run) :
  Route.exec env run (Route.sequential (length (Route.calls run)) script)
  = {| Route.world := snd (await_all env script (Route.world run));
       Route.calls := Route.calls run
                      ++ map Route.Settled (fst (await_all env script (Route.world run))) |}.
Proof.
  revert run. induction script as [|a script IH]; intros [w calls]; simpl.
  - by rewrite app_nil_r.
  - destruct a as [c reply|options]; simpl.
    + destruct (Route._handleRoute_begin env c w) as [[failed|r] w1] eqn:Hbegin; simpl.
      * rewrite list_lookup_middle by done.
        destruct (Route._handleRoute_resume _ w1) as [res w2] eqn:Hresume.
        rewrite insert_app_r_alt by lia. rewrite Nat.sub_diag. simpl.
        specialize (IH {| Route.world := w2; Route.calls := calls ++ [Route.Settled res] |}).
        simpl in IH. rewrite length_app in IH. simpl in IH.
        rewrite Nat.add_1_r in IH. rewrite IH.
        destruct (await_all env script w2) as [rs w3]. simpl.
        by rewrite <- app_assoc.
      * rewrite list_lookup_middle by done.
        specialize (IH {| Route.world := w1; Route.calls := calls ++ [Route.Settled r] |}).
        simpl in IH. rewrite length_app in IH. simpl in IH.
        rewrite Nat.add_1_r in IH. rewrite IH.
        destruct (await_all env script w1) as [rs w3]. simpl.
        by rewrite <- app_assoc.
    + destruct (Route.fallback options w) as [r w1] eqn:Hfb.
      specialize (IH {| Route.world := w1; Route.calls := calls ++ [Route.Settled r] |}).
      simpl in IH. rewrite length_app in IH. simpl in IH.
      rewrite Nat.add_1_r in IH. rewrite IH.
      destruct (await_all env script w1) as [rs w3]. simpl.
      by rewrite <- app_assoc.
Qed.

(** *** Any schedule *)

Lemma _handleRoute_begin_spec (env : Route.Environment) (c : Route.Call) (w : Route.World) :
  match Route._handlingPromise (Route.route w) with
  | None => Route._handleRoute_begin env c w = (Route.Settled (Throw AlreadyHandled), w)
  | Some _ =>
      exists failed w1,
        Route._handleRoute_begin env c w = (Route.Pending failed, w1)
        /\ Route.route w1 = Route.route w
  end.
Proof.
  unfold Route._handleRoute_begin, Route._checkNotHandled.
  destruct (Route._handlingPromise (Route.route w)); [|done].
  destruct (callback_route env c w) as [Hroute _].
  destruct (Route.callback env c w) as [[[]|e] w1]; simpl in *; eauto.
Qed.

Lemma _handleRoute_resume_spec (outcome : Result unit) (w : Route.World) :
  exists res w',
    Route._handleRoute_resume outcome w = (res, w')
    /\ (res = Ok tt ->
        Route._handlingPromise (Route.route w) <> None
        /\ Route._handlingPromise (Route.route w') = None)
    /\ (Route._handlingPromise (Route.route w) = None ->
        Route._handlingPromise (Route.route w') = None).
Proof.
  unfold Route._handleRoute_resume, Route.try_catch, Route.bind, Route.of_result,
    Route._reportHandled.
  destruct outcome as [[]|e]; simpl.
  - destruct (Route._handlingPromise (Route.route w)) eqn:Hhp; simpl.
    + eexists _, _. split; [reflexivity|]. split; [done|]. done.
    + eexists _, _. split; [reflexivity|]. split; [done|]. done.
  - eexists _, _. split; [reflexivity|]. split; [done|]. done.
Qed.

Lemma fallback_spec (options : Request.FallbackOverrides) (w : Route.World) :
  match Route._handlingPromise (Route.route w) with
  | None => Route.fallback options w = (Throw AlreadyHandled, w)
  | Some _ =>
      exists w', Route.fallback options w = (Ok tt, w')
                 /\ Route._handlingPromise (Route.route w') = None
  end.
Proof.
  unfold Route.fallback, Route.bind, Route._checkNotHandled.
  destruct (Route._handlingPromise (Route.route w)) eqn:Hhp; [|done].
  simpl. unfold Route._reportHandled; simpl. rewrite Hhp. eauto.
Qed.

(** A call that has returned or thrown stays as it is. *)
Lemma step_settled (env : Route.Environment) (run : Route.Run) (ev : Route.Event)
    (i : nat) (r : Result unit) :
  Route.calls run !! i = Some (Route.Settled r) ->
  Route.calls (Route.step env run ev) !! i = Some (Route.Settled r).
Proof.
  intros Hi. destruct ev as [c|options|k reply|]; simpl.
  - destruct (Route._handleRoute_begin env c (Route.world run)) as [state w1]. simpl.
    by apply lookup_app_l_Some.
  - destruct (Route.fallback options (Route.world run)) as [res w1]. simpl.
    by apply lookup_app_l_Some.
  - destruct (Route.calls run !! k) as [[failed|r']|] eqn:Hk; try done.
    destruct (Route._handleRoute_resume _ _) as [res w1]. simpl.
    rewrite list_lookup_insert_ne; [done|]. intros ->. congruence.
  - done.
Qed.

Lemma succeeded_snoc (w w' : Route.World) (calls : list Route.CallState)
    (state : Route.CallState) (i : nat) :
  succeeded {| Route.world := w'; Route.calls := calls ++ [state] |} i
  <-> succeeded {| Route.world := w; Route.calls := calls |} i
      \/ (i = length calls /\ state = Route.Settled (Ok tt)).
Proof.
  unfold succeeded; simpl. rewrite lookup_snoc_Some. split.
  - intros [[_ ?]|[-> ->]]; [by left|by right].
  - intros [Hi|[-> ->]]; [left|by right].
    split; [by eapply lookup_lt_Some|done].
Qed.

Lemma succeeded_insert (w w' : Route.World) (calls : list Route.CallState)
    (k : nat) (failed : option Error) (res : Result unit) (i : nat) :
  calls !! k = Some (Route.Pending failed) ->
  succeeded {| Route.world := w'; Route.calls := <[k := Route.Settled res]> calls |} i
  <-> succeeded {| Route.world := w; Route.calls := calls |} i \/ (i = k /\ res = Ok tt).
Proof.
  intros Hk. unfold succeeded; simpl. rewrite list_lookup_insert.
  pose proof (lookup_lt_Some _ _ _ Hk) as Hlt.
  case_decide as Hd.
  - destruct Hd as [-> _]. rewrite Hk. split.
    + intros [= ->]. by right.
    + intros [?|[_ ->]]; done.
  - split; [by left|]. intros [?|[-> _]]; [done|]. by destruct Hd.
Qed.

Lemma step_resolved_once (env : Route.Environment) (run : Route.Run) (ev : Route.Event) :
  ev <> Route.StartHandling ->
  resolved_once run -> resolved_once (Route.step env run ev).
Proof.
  intros Hev [Hhandled Hunique]. destruct run as [w calls].
  destruct ev as [c|options|k reply|]; simpl in *; [| | |done].
  - pose proof (_handleRoute_begin_spec env c w) as Hbegin.
    destruct (Route._handlingPromise (Route.route w)) as [chain|] eqn:Hhp.
    + destruct Hbegin as (failed & w1 & -> & Hroute).
      split.
      * intros [i [Hi|[_ ?]]%(succeeded_snoc w)]; [|done].
        specialize (Hhandled ltac:(eauto)). done.
      * intros i j [Hi|[_ ?]]%(succeeded_snoc w) [Hj|[_ ?]]%(succeeded_snoc w); try done.
        by apply Hunique.
    + rewrite Hbegin. split; [done|].
      intros i j [Hi|[_ ?]]%(succeeded_snoc w) [Hj|[_ ?]]%(succeeded_snoc w); try done.
      by apply Hunique.
  - pose proof (fallback_spec options w) as Hfb.
    destruct (Route._handlingPromise (Route.route w)) as [chain|] eqn:Hhp.
    + destruct Hfb as (w' & -> & Hnone). split; [done|].
      intros i j [Hi|[-> _]]%(succeeded_snoc w) [Hj|[-> _]]%(succeeded_snoc w); try done.
      * specialize (Hhandled ltac:(eauto)). done.
      * specialize (Hhandled ltac:(eauto)). done.
      * specialize (Hhandled ltac:(eauto)). done.
    + rewrite Hfb. split; [done|].
      intros i j [Hi|[_ ?]]%(succeeded_snoc w) [Hj|[_ ?]]%(succeeded_snoc w); try done.
      by apply Hunique.
  - destruct (calls !! k) as [[failed|r']|] eqn:Hk; simpl; [|done|done].
    destruct (_handleRoute_resume_spec
                (match failed with Some e => Throw e | None => reply end) w)
      as (res & w' & -> & Hok & Hnone).
    pose proof (fun i => succeeded_insert w w' calls k failed res i Hk) as Hins.
    split.
    + intros [i [Hi|[-> ->]]%Hins]; [|by apply Hok].
      apply Hnone, Hhandled. eauto.
    + intros i j [Hi|[-> ->]]%Hins [Hj|[-> Hres]]%Hins; try done.
      * by apply Hunique.
      * subst res. destruct (Hok eq_refl) as [Hsome _]. destruct Hsome. apply Hhandled. eauto.
      * destruct (Hok eq_refl) as [Hsome _]. destruct Hsome. apply Hhandled. eauto.
Qed.

Lemma exec_resolved_once (env : Route.Environment) (events : list Route.Event)
    (run : Route.Run) :
  no_restart events -> resolved_once run -> resolved_once (Route.exec env run events).
Proof.
  intros Hev. revert run. induction Hev as [|ev events Hne _ IH]; intros run Hrun; [done|].
  simpl. by apply IH, step_resolved_once.
Qed.

Lemma step_refused_from (env : Route.Environment) (n : nat) (run : Route.Run)
    (ev : Route.Event) :
  ev <> Route.StartHandling ->
  refused_from n run -> refused_from n (Route.step env run ev).
Proof.
  intros Hev (Hnone & Hn & Hrefused). destruct run as [w calls].
  destruct ev as [c|options|k reply|]; simpl in *; [| | |done].
  - pose proof (_handleRoute_begin_spec env c w) as Hbegin. rewrite Hnone in Hbegin.
    rewrite Hbegin. unfold refused_from; simpl. rewrite length_app; simpl.
    split_and!; [done|lia|].
    intros j Hj Hlt. destruct (decide (j = length calls)) as [->|].
    + by rewrite list_lookup_middle.
    + rewrite lookup_app_l by lia. apply Hrefused; lia.
  - pose proof (fallback_spec options w) as Hfb. rewrite Hnone in Hfb.
    rewrite Hfb. unfold refused_from; simpl. rewrite length_app; simpl.
    split_and!; [done|lia|].
    intros j Hj Hlt. destruct (decide (j = length calls)) as [->|].
    + by rewrite list_lookup_middle.
    + rewrite lookup_app_l by lia. apply Hrefused; lia.
  - destruct (calls !! k) as [[failed|r']|] eqn:Hk; simpl; [|done|done].
    destruct (_handleRoute_resume_spec
                (match failed with Some e => Throw e | None => reply end) w)
      as (res & w' & -> & _ & Hstays).
    unfold refused_from; simpl. rewrite length_insert.
    split_and!; [by apply Hstays|done|].
    intros j Hj Hlt. rewrite list_lookup_insert_ne; [by apply Hrefused|].
    intros ->. rewrite Hrefused in Hk by done. done.
Qed.

Lemma exec_refused_from (env : Route.Environment) (n : nat) (events : list Route.Event)
    (run : Route.Run) :
  no_restart events -> refused_from n run -> refused_from n (Route.exec env run events).
Proof.
  intros Hev. revert run. induction Hev as [|ev events Hne _ IH]; intros run Hrun; [done|].
  simpl. by apply IH, step_refused_from.
Qed.

(** C1 as stated fails: of two [abort()] made before any reply, both pass
    the check and issue their command, and the second one does not fail
    with AlreadyHandled. *)
Lemma Route_concurrent_calls_both_pass :
  ~ (Route.calls (Route.exec example_env (no_calls (Route.handed_over form_request))
                             concurrent_aborts) !! 1
     = Some (Route.Settled (Throw AlreadyHandled))).
Proof. discriminate. Qed.

(** What the two concurrent calls do: two commands, and a TypeError for the
    second call. *)
Example Route_concurrent_calls_trace :
  let run := Route.exec example_env (no_calls (Route.handed_over form_request))
                        concurrent_aborts in
  Route.calls run = [Route.Settled (Ok tt); Route.Settled (Throw TypeError)]
  /\ Route.channel (Route.world run) = [Route.CmdAbort None; Route.CmdAbort None]
  /\ Route.promises (Route.world run) = [Some true].
Proof. repeat split; reflexivity. Qed.

(** C1 (amended): on a Route that is being handled, in every schedule of
    resolving calls (continue, fulfill, abort, fallback) and of replies to
    their commands in which the Route is not handed to a handler again,
    concurrent calls included, at most one call succeeds, and every call
    made after a call has succeeded fails with AlreadyHandled. When the
    calls are made one after the other, each awaited before the next is
    made, every call returns or throws, the first call succeeds when its
    command does not fail, and every call after a successful one fails with
    AlreadyHandled. The Route is marked as handled when the command of the
    call has been answered, not when the call is made: after the call of a
    method other than [fallback] and before its reply, the Route is still
    unhandled. *)
Theorem Route_resolves_once (env : Route.Environment) (w : Route.World) (chain : nat) :
  Route._handlingPromise (Route.route w) = Some chain ->
  (forall events, no_restart events ->
     (forall i j,
         succeeded (Route.exec env (no_calls w) events) i ->
         succeeded (Route.exec env (no_calls w) events) j -> i = j)
     /\ (forall i later j,
           succeeded (Route.exec env (no_calls w) events) i ->
           no_restart later ->
           length (Route.calls (Route.exec env (no_calls w) events)) <= j ->
           j < length (Route.calls (Route.exec env (no_calls w) (events ++ later))) ->
           Route.calls (Route.exec env (no_calls w) (events ++ later)) !! j
           = Some (Route.Settled (Throw AlreadyHandled))))
  /\ (forall script,
        (exists results,
            Route.calls (Route.exec env (no_calls w) (Route.sequential 0 script))
            = map Route.Settled results
            /\ length results = length script)
        /\ (forall a, script !! 0 = Some a -> command_succeeds env a w ->
              succeeded (Route.exec env (no_calls w) (Route.sequential 0 script)) 0)
        /\ (forall i j,
              succeeded (Route.exec env (no_calls w) (Route.sequential 0 script)) i ->
              i < j -> j < length script ->
              Route.calls (Route.exec env (no_calls w) (Route.sequential 0 script)) !! j
              = Some (Route.Settled (Throw AlreadyHandled))))
  /\ (forall c,
        Route._handlingPromise
          (Route.route (Route.world (Route.step env (no_calls w) (Route.Invoke c))))
        = Some chain).
Proof.
  intros Hchain. split; [|split].
  - intros events Hev.
    assert (Hinv : resolved_once (Route.exec env (no_calls w) events)).
    { apply exec_resolved_once; [done|]. split.
      - intros [i Hi]. unfold succeeded in Hi. simpl in Hi. by rewrite lookup_nil in Hi.
      - intros i j Hi. unfold succeeded in Hi. simpl in Hi. by rewrite lookup_nil in Hi. }
    destruct Hinv as [Hhandled Hunique]. split; [exact Hunique|].
    intros i later j Hi Hlater Hle Hlt.
    unfold Route.exec in *. rewrite fold_left_app in Hlt |- *.
    set (run := fold_left (Route.step env) events (no_calls w)) in *.
    destruct (exec_refused_from env (length (Route.calls run)) later run Hlater)
      as (_ & _ & Hrefused).
    { split_and!; [apply Hhandled; eauto|done|]. intros j' ? ?. lia. }
    by apply Hrefused.
  - intros script.
    pose proof (exec_sequential env script (no_calls w)) as Hexec. simpl in Hexec.
    unfold succeeded. rewrite Hexec. simpl.
    split; [|split].
    + eexists. split; [reflexivity|]. apply await_all_length.
    + intros a Ha Hok. destruct script as [|a' script]; [done|].
      injection Ha as ->. simpl.
      pose proof (await_one_first env a w chain Hchain Hok) as Hfirst.
      destruct (await_one env a w) as [r w1]. simpl in Hfirst. subst r.
      by destruct (await_all env script w1).
    + intros i j Hi Hij Hj.
      rewrite list_lookup_fmap in Hi |- *.
      destruct (fst (await_all env script w) !! i) as [ri|] eqn:Hri; [|done].
      injection Hi as ->.
      by rewrite (await_all_after_success env script w i j Hri Hij Hj).
  - intros c. simpl. unfold Route._handleRoute_begin, Route._checkNotHandled. rewrite Hchain.
    destruct (callback_route env c w) as [Hroute _].
    destruct (Route.callback env c w) as [[[]|e] w1]; simpl in *; by rewrite Hroute.
Qed.

Lemma no_restart_concurrent_aborts : no_restart concurrent_aborts.
Proof. repeat constructor; discriminate. Defined.

(** Three awaited calls on a Route handed to a handler: the first succeeds,
    the two others fail with AlreadyHandled. And after the two concurrent
    [abort()], of which the first succeeded, a third one fails with
    AlreadyHandled. *)
Lemma Route_resolves_once_witness :
  succeeded (Route.exec example_env (no_calls (Route.handed_over form_request))
                        (Route.sequential 0 three_awaited_calls)) 0
  /\ Route.calls (Route.exec example_env (no_calls (Route.handed_over form_request))
                             (Route.sequential 0 three_awaited_calls)) !! 1
     = Some (Route.Settled (Throw AlreadyHandled))
  /\ Route.calls (Route.exec example_env (no_calls (Route.handed_over form_request))
                             (Route.sequential 0 three_awaited_calls)) !! 2
     = Some (Route.Settled (Throw AlreadyHandled))
  /\ Route.calls (Route.exec example_env (no_calls (Route.handed_over form_request))
                             (concurrent_aborts ++ [Route.Invoke (Route.abort None)])) !! 2
     = Some (Route.Settled (Throw AlreadyHandled)).
Proof.
  destruct (Route_resolves_once example_env (Route.handed_over form_request) 0 eq_refl)
    as (Hany & Hseq & _).
  destruct (Hseq three_awaited_calls) as (_ & Hfirst & Hlater).
  assert (H0 : succeeded (Route.exec example_env (no_calls (Route.handed_over form_request))
                                     (Route.sequential 0 three_awaited_calls)) 0).
  { apply (Hfirst (Route.AwaitCall (Route.abort None) (Ok tt))); [reflexivity|].
    split; reflexivity. }
  split; [exact H0|].
  split; [apply (Hlater 0); [exact H0|lia|simpl; lia]|].
  split; [apply (Hlater 0); [exact H0|lia|simpl; lia]|].
  destruct (Hany concurrent_aborts no_restart_concurrent_aborts) as [_ Hrefused].
  apply (Hrefused 0 [Route.Invoke (Route.abort None)] 2).
  - reflexivity.
  - repeat constructor; discriminate.
  - simpl; lia.
  - simpl; lia.
Defined.

(** C2 as stated fails: after an [abort()] whose command was rejected, a
    second [abort()] is not refused with AlreadyHandled: it passes the check
    and issues its command. *)
Lemma Route_rejected_call_reopens :
  ~ (Route.calls (Route.exec example_env (no_calls (Route.handed_over form_request))
                             abort_after_rejected_abort) !! 1
     = Some (Route.Settled (Throw AlreadyHandled))).
Proof. discriminate. Qed.

(** What the rejected call and the call after it do. *)
Example Route_rejected_call_trace :
  let run := Route.exec example_env (no_calls (Route.handed_over form_request))
                        abort_after_rejected_abort in
  Route.calls run
  = [Route.Settled (Throw (ChannelError "net::ERR_FAILED")); Route.Pending None]
  /\ Route.route (Route.world run)
     = {| Route._handlingPromise := Some 0; Route._didThrow := true |}
  /\ Route.channel (Route.world run) = [Route.CmdAbort None; Route.CmdAbort None]
  /\ Route.promises (Route.world run) = [None].
Proof. repeat split; reflexivity. Qed.

(** C2 (amended): when a resolving call (continue, fulfill, abort) on a
    Route that is being handled rejects because its command fails, the call
    throws the error of the command, the Route stays unhandled (its handling
    promise is still the pending one, and no promise was resolved) with
    [_didThrow] set, and a resolving call made afterwards is not refused:
    it passes the check and runs its callback. *)
Theorem Route_rejected_call_leaves_unhandled (env : Route.Environment) (w : Route.World)
    (c : Route.Call) (reply : Result unit) (chain : nat) (e : Error) :
  Route._handlingPromise (Route.route w) = Some chain ->
  command_failure env c reply w = Some e ->
  Route.calls (Route.exec env (no_calls w) [Route.Invoke c; Route.Reply 0 reply])
  = [Route.Settled (Throw e)]
  /\ Route.route (Route.world (Route.exec env (no_calls w) [Route.Invoke c; Route.Reply 0 reply]))
     = {| Route._handlingPromise := Some chain; Route._didThrow := true |}
  /\ Route.promises (Route.world (Route.exec env (no_calls w)
                                            [Route.Invoke c; Route.Reply 0 reply]))
     = Route.promises w
  /\ (forall c',
        exists failed,
          Route.calls (Route.exec env (no_calls w)
                                  [Route.Invoke c; Route.Reply 0 reply; Route.Invoke c']) !! 1
          = Some (Route.Pending failed)).
Proof.
  intros Hchain Hfail. unfold command_failure in Hfail.
  assert (Hrun : Route.exec env (no_calls w) [Route.Invoke c; Route.Reply 0 reply]
                 = {| Route.world := Route.set_didThrow true (snd (Route.callback env c w));
                      Route.calls := [Route.Settled (Throw e)] |}).
  { simpl. unfold Route._handleRoute_begin, Route._checkNotHandled. rewrite Hchain.
    destruct (Route.callback env c w) as [[[]|e0] w1]; simpl in *.
    - destruct reply as [[]|e1]; [done|]. by injection Hfail as ->.
    - by injection Hfail as ->. }
  destruct (callback_route env c w) as [Hroute Hpromises].
  split; [by rewrite Hrun|].
  split; [rewrite Hrun; simpl; unfold Route.set_didThrow; simpl; by rewrite Hroute, Hchain|].
  split; [rewrite Hrun; simpl; by rewrite Hpromises|].
  intros c'.
  change (Route.exec env (no_calls w) [Route.Invoke c; Route.Reply 0 reply; Route.Invoke c'])
    with (Route.step env (Route.exec env (no_calls w) [Route.Invoke c; Route.Reply 0 reply])
                     (Route.Invoke c')).
  rewrite Hrun. simpl.
  unfold Route._handleRoute_begin, Route._checkNotHandled. simpl. rewrite Hroute, Hchain.
  destruct (Route.callback env c' _) as [[[]|e'] w2]; simpl; eauto.
Qed.

(** An [abort()] whose command is rejected, on a Route handed to a handler. *)
Lemma Route_rejected_call_leaves_unhandled_witness :
  Route.calls (Route.exec example_env (no_calls (Route.handed_over form_request))
                 [Route.Invoke (Route.abort None);
                  Route.Reply 0 (Throw (ChannelError "net::ERR_FAILED"))])
  = [Route.Settled (Throw (ChannelError "net::ERR_FAILED"))]
  /\ Route.route (Route.world
       (Route.exec example_env (no_calls (Route.handed_over form_request))
          [Route.Invoke (Route.abort None);
           Route.Reply 0 (Throw (ChannelError "net::ERR_FAILED"))]))
     = {| Route._handlingPromise := Some 0; Route._didThrow := true |}.
Proof.
  destruct (Route_rejected_call_leaves_unhandled example_env (Route.handed_over form_request)
              (Route.abort None) (Throw (ChannelError "net::ERR_FAILED")) 0
              (ChannelError "net::ERR_FAILED") eq_refl eq_refl) as (Hcalls & Hroute & _).
  split; [exact Hcalls|exact Hroute].
Defined.

(** * Further properties *)

(** ** Interception patterns *)

Lemma prepareInterceptionPatterns_fold (urls : list URLMatch)
    (patterns : list InterceptionPattern) (all : bool) :
  fold_left (fun '(patterns, all) url =>
               match url with
               | MatchString glob => (patterns ++ [PatternGlob glob], all)
               | MatchRegExp source flags => (patterns ++ [PatternRegex source flags], all)
               | MatchPredicate _ => (patterns, true)
               end)
            urls (patterns, all)
  = (patterns ++ omap pattern_of urls, all || existsb is_predicate urls).
Proof.
  revert patterns all. induction urls as [|url urls IH]; intros patterns all; simpl.
  - by rewrite app_nil_r, orb_false_r.
  - destruct url as [glob|source flags|p]; rewrite IH; simpl.
    + by rewrite <- app_assoc.
    + by rewrite <- app_assoc.
    + by rewrite orb_true_r.
Qed.

Lemma omap_pattern_of (urls : list URLMatch) :
  existsb is_predicate urls = false ->
  length (omap pattern_of urls) = length urls
  /\ forall i url, urls !! i = Some url -> omap pattern_of urls !! i = pattern_of url.
Proof.
  induction urls as [|url urls IH]; simpl; [done|].
  intros [Hurl Hrest]%orb_false_elim. destruct (IH Hrest) as [Hlen Hlookup].
  destruct url as [glob|source flags|p]; [| |done]; simpl.
  - split; [by f_equal|]. intros [|i] url' Hi; simpl in *; [by injection Hi as <-|auto].
  - split; [by f_equal|]. intros [|i] url' Hi; simpl in *; [by injection Hi as <-|auto].
Qed.

(** X1: the interception patterns of a list of handlers are the single
    catch-all glob when a handler matches by a predicate, and otherwise one
    pattern per handler, in the order of the handlers: the glob of a string
    and the source and flags of a regular expression. *)
Theorem prepareInterceptionPatterns_catch_all (urls : list URLMatch) :
  (existsb is_predicate urls = true ->
   prepareInterceptionPatterns urls = [PatternGlob "**/*"])
  /\ (existsb is_predicate urls = false ->
      length (prepareInterceptionPatterns urls) = length urls
      /\ forall i url, urls !! i = Some url ->
           prepareInterceptionPatterns urls !! i = pattern_of url).
Proof.
  unfold prepareInterceptionPatterns. rewrite prepareInterceptionPatterns_fold. simpl.
  split; intros Hall; rewrite Hall; [done|].
  by apply omap_pattern_of.
Qed.

(** Two handlers with a glob and a regular expression, and the same with a
    handler that matches by a predicate. *)
Lemma prepareInterceptionPatterns_catch_all_witness :
  prepareInterceptionPatterns [MatchString "**/api/*"; MatchPredicate 0; MatchRegExp "png$" "i"]
  = [PatternGlob "**/*"]
  /\ prepareInterceptionPatterns [MatchString "**/api/*"; MatchRegExp "png$" "i"] !! 1
     = Some (PatternRegex "png$" "i").
Proof.
  split.
  - apply (proj1 (prepareInterceptionPatterns_catch_all
                    [MatchString "**/api/*"; MatchPredicate 0; MatchRegExp "png$" "i"])).
    reflexivity.
  - destruct (proj2 (prepareInterceptionPatterns_catch_all
                       [MatchString "**/api/*"; MatchRegExp "png$" "i"]) eq_refl) as [_ H].
    apply (H 1 (MatchRegExp "png$" "i")). reflexivity.
Defined.

(** ** validateHeaders *)

Lemma obj_lookup_elem {V} (o : JSObject V) (k : string) (v : V) :
  NoDup (obj_keys o) -> (k, v) ∈ o <-> obj_lookup k o = Some v.
Proof.
  unfold obj_keys. induction o as [|[k' w] o IH]; simpl.
  - intros _. split; [by intros ?%elem_of_nil|done].
  - intros [Hnotin Hnd]%NoDup_cons. rewrite elem_of_cons, (IH Hnd).
    destruct (String.eqb k' k) eqn:E.
    + apply String.eqb_eq in E as ->. split.
      * intros [Heq|Hin]; [by simplify_eq|].
        destruct Hnotin. apply (IH Hnd) in Hin.
        apply list_elem_of_fmap. by exists (k, v).
      * intros [= ->]. by left.
    + apply String.eqb_neq in E. split.
      * intros [Heq|Hin]; [by simplify_eq|done].
      * by right.
Qed.

Lemma validateHeaders_keys_None (headers : JSObject (option JSON)) (keys : list string) :
  validateHeaders_keys headers keys = None
  <-> forall key v, key ∈ keys -> obj_lookup key headers = Some (Some v) ->
        exists s, v = JString s.
Proof.
  induction keys as [|key keys IH]; simpl.
  - split; [|done]. by intros _ key v ?%elem_of_nil.
  - destruct (obj_lookup key headers) as [[v|]|] eqn:Hkey; simpl.
    + destruct v as [|b|z|s|items|members];
        try (split; [done|]; intros H;
             destruct (H key _ ltac:(by left) Hkey) as [s Hs]; discriminate Hs).
      rewrite IH. split.
      * intros H key' v' [ -> |Hin]%elem_of_cons Hv'; [|by eapply H].
        rewrite Hkey in Hv'. injection Hv' as <-. by exists s.
      * intros H key' v' Hin. apply H. by right.
    + rewrite IH. split.
      * intros H key' v' [ -> |Hin]%elem_of_cons Hv'; [congruence|by eapply H].
      * intros H key' v' Hin. apply H. by right.
    + rewrite IH. split.
      * intros H key' v' [ -> |Hin]%elem_of_cons Hv'; [congruence|by eapply H].
      * intros H key' v' Hin. apply H. by right.
Qed.

Lemma validateHeaders_keys_Some (headers : JSObject (option JSON)) (keys : list string)
    (msg : string) :
  validateHeaders_keys headers keys = Some msg ->
  exists key v, key ∈ keys /\ obj_lookup key headers = Some (Some v)
                /\ not_a_string v /\ msg = invalid_header_message key v.
Proof.
  induction keys as [|key keys IH]; simpl; [done|].
  destruct (obj_lookup key headers) as [[v|]|] eqn:Hkey; simpl.
  - destruct v as [|b|z|s|items|members];
      try (intros [= <-]; eexists key, _; split; [by left|]; split; [done|]; by split).
    intros (key' & v' & Hin & H)%IH. exists key', v'. split; [by right|done].
  - intros (key' & v' & Hin & H)%IH. exists key', v'. split; [by right|done].
  - intros (key' & v' & Hin & H)%IH. exists key', v'. split; [by right|done].
Qed.

(** X2: [validateHeaders] returns normally exactly when every value of the
    object that is not undefined is a string, and otherwise throws the
    message that names a header whose value is not a string and the type of
    that value; it accepts every headers object of string values. *)
Theorem validateHeaders_accepts_strings_only :
  (forall headers : JSObject (option JSON),
      NoDup (obj_keys headers) ->
      (validateHeaders headers = None
       <-> forall key v, (key, Some v) ∈ headers -> exists s, v = JString s)
      /\ (forall msg, validateHeaders headers = Some msg ->
            exists key v, (key, Some v) ∈ headers /\ not_a_string v
                          /\ msg = invalid_header_message key v))
  /\ (forall headers : Headers, validateHeaders (as_values headers) = None).
Proof.
  split.
  - intros headers Hnd. unfold validateHeaders. split.
    + rewrite validateHeaders_keys_None. split.
      * intros H key v Hin. apply (H key v); [|by apply obj_lookup_elem].
        unfold obj_keys. apply list_elem_of_fmap. by exists (key, Some v).
      * intros H key v _ Hv. apply (H key v). by apply obj_lookup_elem.
    + intros msg (key & v & _ & Hv & Hns & ->)%validateHeaders_keys_Some.
      exists key, v. split; [by apply obj_lookup_elem|done].
  - intros headers. unfold validateHeaders. apply validateHeaders_keys_None.
    intros key v _. unfold as_values. rewrite obj_lookup_map.
    destruct (obj_lookup key headers) as [[s|]|]; simpl; [|done|done].
    intros [= <-]. by exists s.
Qed.

(** A headers object with a number for a value is refused, with the header
    and the type named in the message; one with string values only is
    accepted. *)
Lemma validateHeaders_accepts_strings_only_witness :
  validateHeaders [("accept", Some (JString "*/*")); ("x-unset", None)] = None
  /\ exists key v,
       (key, Some v) ∈ [("accept", Some (JString "*/*")); ("content-length", Some (JNumber 3))]
       /\ validateHeaders [("accept", Some (JString "*/*")); ("content-length", Some (JNumber 3))]
          = Some (invalid_header_message key v).
Proof.
  destruct validateHeaders_accepts_strings_only as [Hobj _].
  split.
  - apply (Hobj [("accept", Some (JString "*/*")); ("x-unset", None)]).
    + by apply (bool_decide_unpack _).
    + intros key v Hin. exists "*/*".
      repeat (apply elem_of_cons in Hin as [Heq|Hin]; [by simplify_eq|]).
      by apply elem_of_nil in Hin.
  - destruct (Hobj [("accept", Some (JString "*/*")); ("content-length", Some (JNumber 3))])
      as [_ Hmsg].
    + by apply (bool_decide_unpack _).
    + destruct (Hmsg _ eq_refl) as (key & v & Hin & _ & Hm).
      exists key, v. split; [exact Hin|]. by rewrite <- Hm.
Defined.

(** ** WebSocket *)

Lemma WebSocket_on_events_fold (events : list WebSocket.ChannelEvent) (this : WebSocket.t)
    (emitted : list WebSocket.Emitted) :
  WebSocket.isClosed
    (fst (fold_left (fun '(this, emitted) ev =>
                       let '(this', more) := WebSocket.on_event this ev in
                       (this', emitted ++ more))
                    events (this, emitted)))
  = WebSocket.isClosed this || existsb is_close events.
Proof.
  revert this emitted. induction events as [|ev events IH]; intros this emitted; simpl.
  - by rewrite orb_false_r.
  - destruct ev as [opcode data|opcode data|error|]; simpl; rewrite IH; simpl; try done.
    by rewrite orb_true_r.
Qed.

(** X3: a WebSocket is closed after a sequence of channel events exactly
    when it was closed before or a close is among the events, so that it
    never reopens. A frame of opcode 1 is emitted with its text, a frame of
    opcode 2 with the bytes its base64 data decodes to (the bytes that were
    encoded), and a frame of another opcode is not emitted. *)
Theorem WebSocket_events :
  (forall this events,
      WebSocket.isClosed (fst (WebSocket.on_events this events))
      = WebSocket.isClosed this || existsb is_close events)
  /\ (forall this b,
        WebSocket.on_event this (WebSocket.frameSent 2 (Buffer_toString_base64 b))
        = (this, [WebSocket.FrameSent (WebSocketRoute.Binary b)])
        /\ WebSocket.on_event this (WebSocket.frameReceived 2 (Buffer_toString_base64 b))
           = (this, [WebSocket.FrameReceived (WebSocketRoute.Binary b)]))
  /\ (forall this data,
        WebSocket.on_event this (WebSocket.frameSent 1 data)
        = (this, [WebSocket.FrameSent (WebSocketRoute.Text data)])
        /\ WebSocket.on_event this (WebSocket.frameReceived 1 data)
           = (this, [WebSocket.FrameReceived (WebSocketRoute.Text data)]))
  /\ (forall this opcode data,
        opcode <> 1%Z -> opcode <> 2%Z ->
        WebSocket.on_event this (WebSocket.frameSent opcode data) = (this, [])
        /\ WebSocket.on_event this (WebSocket.frameReceived opcode data) = (this, [])).
Proof.
  split; [|split; [|split]].
  - intros this events. apply WebSocket_on_events_fold.
  - intros this b. simpl. unfold WebSocket.frame_payload. simpl.
    by rewrite base64_roundtrip.
  - done.
  - intros this opcode data H1%Z.eqb_neq H2%Z.eqb_neq. simpl.
    unfold WebSocket.frame_payload. by rewrite H1, H2.
Qed.

(** A ping, a binary frame, a close and a late text frame: the ping is not
    emitted, the binary frame is emitted decoded, and the socket is closed
    at the end. *)
Lemma WebSocket_events_witness :
  WebSocket.on_events (WebSocket.new "ws://localhost/") websocket_events
  = ({| WebSocket.url := "ws://localhost/"; WebSocket._isClosed := true |},
     [ WebSocket.FrameReceived (WebSocketRoute.Binary [Init.Byte.x00; Init.Byte.x01; Init.Byte.x02]);
       WebSocket.Close;
       WebSocket.FrameSent (WebSocketRoute.Text "late") ])
  /\ WebSocket.on_event (WebSocket.new "ws://localhost/") (WebSocket.frameReceived 9 "")
     = (WebSocket.new "ws://localhost/", []).
Proof.
  destruct WebSocket_events as (_ & _ & _ & Hother).
  split; [reflexivity|].
  apply (Hother (WebSocket.new "ws://localhost/") 9%Z ""); discriminate.
Defined.

(** ** WebSocketRoute: sequences of operations *)

Lemma websocket_ops_fold (ops : list WebSocketRouteOp) (this : WebSocketRoute.t)
    (effects : list WebSocketRoute.Effect) :
  fold_left (fun '(this, effects) op =>
               let '(this', more, _) := websocket_op this op in (this', effects ++ more))
            ops (this, effects)
  = (fst (websocket_ops this ops), effects ++ snd (websocket_ops this ops)).
Proof.
  unfold websocket_ops. revert this effects.
  induction ops as [|op ops IH]; intros this effects; simpl.
  - by rewrite app_nil_r.
  - destruct (websocket_op this op) as [[this1 more] e]. simpl.
    rewrite (IH this1 (effects ++ more)), (IH this1 more). simpl.
    by rewrite app_assoc.
Qed.

Lemma websocket_ops_cons (op : WebSocketRouteOp) (ops : list WebSocketRouteOp)
    (this : WebSocketRoute.t) :
  websocket_ops this (op :: ops)
  = (fst (websocket_ops (fst (fst (websocket_op this op))) ops),
     snd (fst (websocket_op this op))
     ++ snd (websocket_ops (fst (fst (websocket_op this op))) ops)).
Proof.
  unfold websocket_ops at 1. simpl.
  destruct (websocket_op this op) as [[this1 more] e]. simpl.
  apply websocket_ops_fold.
Qed.

Lemma connects_app (l1 l2 : list WebSocketRoute.Effect) :
  connects (l1 ++ l2) = connects l1 + connects l2.
Proof. unfold connects. by rewrite List.filter_app, length_app. Qed.

Lemma websocket_op_connected (this : WebSocketRoute.t) (op : WebSocketRouteOp) :
  WebSocketRoute._connected (fst (fst (websocket_op this op)))
  = WebSocketRoute._connected this || is_connect op
  /\ connects (snd (fst (websocket_op this op)))
     = (if negb (WebSocketRoute._connected this) && is_connect op then 1 else 0)
  /\ WebSocketRoute.url (fst (fst (websocket_op this op))) = WebSocketRoute.url this.
Proof.
  destruct this as [url pm pc sm sc connected].
  destruct op; simpl; rewrite ?orb_false_r, ?andb_false_r; try done.
  - unfold WebSocketRoute.connectToServer; simpl. by destruct connected.
  - unfold WebSocketRoute._afterHandle; simpl. by destruct connected.
  - unfold WebSocketRoute.on_messageFromPage; simpl. by destruct pm, connected.
  - unfold WebSocketRoute.on_messageFromServer; simpl. by destruct sm.
  - unfold WebSocketRoute.on_closePage; simpl. by destruct pc.
  - unfold WebSocketRoute.on_closeServer; simpl. by destruct sc.
Qed.

(** X4: over every sequence of method calls and channel events on a
    WebSocketRoute, the connected flag only goes from false to true, and it
    is true at the end exactly when it was true before or
    [connectToServer] was called; the [connect] command is issued once if
    the route gets connected by the sequence and never otherwise; the URL
    does not change. On a route that is connected, [connectToServer] throws
    AlreadyConnected and [_afterHandle] issues nothing; on one that is not,
    [_afterHandle] issues [ensureOpened]. *)
Theorem WebSocketRoute_connects_once (this : WebSocketRoute.t) (ops : list WebSocketRouteOp) :
  WebSocketRoute._connected (fst (websocket_ops this ops))
  = WebSocketRoute._connected this || existsb is_connect ops
  /\ connects (snd (websocket_ops this ops))
     = (if negb (WebSocketRoute._connected this) && existsb is_connect ops then 1 else 0)
  /\ WebSocketRoute.url (fst (websocket_ops this ops)) = WebSocketRoute.url this
  /\ (WebSocketRoute._connected (fst (websocket_ops this ops)) = true ->
      WebSocketRoute.connectToServer (fst (websocket_ops this ops)) = Throw AlreadyConnected
      /\ WebSocketRoute._afterHandle (fst (websocket_ops this ops)) = [])
  /\ (WebSocketRoute._connected (fst (websocket_ops this ops)) = false ->
      WebSocketRoute._afterHandle (fst (websocket_ops this ops))
      = [WebSocketRoute.Issue WebSocketRoute.ensureOpened]).
Proof.
  assert (Hmain : WebSocketRoute._connected (fst (websocket_ops this ops))
                  = WebSocketRoute._connected this || existsb is_connect ops
                  /\ connects (snd (websocket_ops this ops))
                     = (if negb (WebSocketRoute._connected this) && existsb is_connect ops
                        then 1 else 0)
                  /\ WebSocketRoute.url (fst (websocket_ops this ops))
                     = WebSocketRoute.url this).
  { revert this. induction ops as [|op ops IH]; intros this.
    - simpl. by rewrite orb_false_r, andb_false_r.
    - rewrite websocket_ops_cons. simpl fst. simpl snd.
      destruct (websocket_op_connected this op) as (Hc & Hn & Hu).
      destruct (IH (fst (fst (websocket_op this op)))) as (-> & IHn & ->).
      rewrite connects_app, Hn, IHn, Hc, Hu. simpl existsb.
      split; [by rewrite orb_assoc|]. split; [|done].
      by destruct (WebSocketRoute._connected this), (is_connect op), (existsb is_connect ops). }
  destruct Hmain as (Hc & Hn & Hu).
  split; [done|]. split; [done|]. split; [done|].
  unfold WebSocketRoute.connectToServer, WebSocketRoute._afterHandle.
  split; by intros ->.
Qed.

Lemma websocket_op_slots (this : WebSocketRoute.t) (op : WebSocketRouteOp) :
  let this' := fst (fst (websocket_op this op)) in
  WebSocketRoute._onPageMessage this'
  = match installs_onPageMessage op with
    | Some h => Some h | None => WebSocketRoute._onPageMessage this end
  /\ WebSocketRoute._onPageClose this'
     = match installs_onPageClose op with
       | Some h => Some h | None => WebSocketRoute._onPageClose this end
  /\ WebSocketRoute._onServerMessage this'
     = match installs_onServerMessage op with
       | Some h => Some h | None => WebSocketRoute._onServerMessage this end
  /\ WebSocketRoute._onServerClose this'
     = match installs_onServerClose op with
       | Some h => Some h | None => WebSocketRoute._onServerClose this end.
Proof.
  destruct op; simpl; try done.
  unfold WebSocketRoute.connectToServer. by destruct (WebSocketRoute._connected this).
Qed.

Lemma slot_after_kept (installs : WebSocketRouteOp -> option WebSocketRoute.Callback)
    (before : option WebSocketRoute.Callback) (ops : list WebSocketRouteOp) :
  is_Some before -> is_Some (slot_after installs before ops).
Proof.
  revert before. induction ops as [|op ops IH]; intros before Hb; simpl; [done|].
  apply IH. by destruct (installs op).
Qed.

(** X5: after every sequence of method calls and channel events on a
    WebSocketRoute, each of the four handler slots holds the handler that
    the last call of its installing method gave, and what it held before
    when that method was not called: a slot is never cleared, and a method
    changes no other slot than its own. So a message from the page, once a
    handler was installed for it, is given to the handler in the slot,
    decoded, and is not forwarded, whatever happens in between. *)
Theorem WebSocketRoute_slots (this : WebSocketRoute.t) (ops : list WebSocketRouteOp) :
  (WebSocketRoute._onPageMessage (fst (websocket_ops this ops))
   = slot_after installs_onPageMessage (WebSocketRoute._onPageMessage this) ops
   /\ WebSocketRoute._onPageClose (fst (websocket_ops this ops))
      = slot_after installs_onPageClose (WebSocketRoute._onPageClose this) ops
   /\ WebSocketRoute._onServerMessage (fst (websocket_ops this ops))
      = slot_after installs_onServerMessage (WebSocketRoute._onServerMessage this) ops
   /\ WebSocketRoute._onServerClose (fst (websocket_ops this ops))
      = slot_after installs_onServerClose (WebSocketRoute._onServerClose this) ops)
  /\ (forall installs before, is_Some before -> is_Some (slot_after installs before ops))
  /\ (forall h f,
        WebSocketRoute.on_messageFromPage
          (fst (websocket_ops (WebSocketRoute.onMessage this h) ops)) f
        = [WebSocketRoute.CallOnMessage
             (default h (slot_after installs_onPageMessage (Some h) ops))
             (WebSocketRoute.payload_of f)]).
Proof.
  assert (Hslots : forall this,
    WebSocketRoute._onPageMessage (fst (websocket_ops this ops))
    = slot_after installs_onPageMessage (WebSocketRoute._onPageMessage this) ops
    /\ WebSocketRoute._onPageClose (fst (websocket_ops this ops))
       = slot_after installs_onPageClose (WebSocketRoute._onPageClose this) ops
    /\ WebSocketRoute._onServerMessage (fst (websocket_ops this ops))
       = slot_after installs_onServerMessage (WebSocketRoute._onServerMessage this) ops
    /\ WebSocketRoute._onServerClose (fst (websocket_ops this ops))
       = slot_after installs_onServerClose (WebSocketRoute._onServerClose this) ops).
  { clear this. induction ops as [|op ops IH]; intros this; [done|].
    rewrite websocket_ops_cons. simpl fst.
    destruct (websocket_op_slots this op) as (H1 & H2 & H3 & H4).
    destruct (IH (fst (fst (websocket_op this op)))) as (-> & -> & -> & ->).
    simpl. by rewrite H1, H2, H3, H4. }
  pose proof (fun installs before => slot_after_kept installs before ops) as Hkept.
  split; [apply Hslots|]. split; [exact Hkept|].
  intros h f. unfold WebSocketRoute.on_messageFromPage.
  destruct (Hslots (WebSocketRoute.onMessage this h)) as (-> & _). simpl.
  destruct (Hkept installs_onPageMessage (Some h)) as [h' ->]; [by eexists|]. done.
Qed.

(** A handler script that claims the page messages and connects twice: one
    [connect] is issued, the second [connectToServer] throws, and the page
    message that arrives at the end goes to the handler. *)
Lemma WebSocketRoute_connects_once_witness :
  connects (snd (websocket_ops (WebSocketRoute.new "ws://localhost/") websocket_script)) = 1
  /\ WebSocketRoute.connectToServer
       (fst (websocket_ops (WebSocketRoute.new "ws://localhost/") websocket_script))
     = Throw AlreadyConnected
  /\ WebSocketRoute._afterHandle (fst (websocket_ops (WebSocketRoute.new "ws://localhost/") []))
     = [WebSocketRoute.Issue WebSocketRoute.ensureOpened].
Proof.
  destruct (WebSocketRoute_connects_once (WebSocketRoute.new "ws://localhost/") websocket_script)
    as (_ & Hn & _ & Hyes & _).
  destruct (WebSocketRoute_connects_once (WebSocketRoute.new "ws://localhost/") [])
    as (_ & _ & _ & _ & Hno).
  split; [exact Hn|]. split; [apply Hyes; reflexivity|apply Hno; reflexivity].
Defined.

Lemma WebSocketRoute_slots_witness :
  is_Some (slot_after installs_onPageMessage (Some 7) websocket_script)
  /\ WebSocketRoute._onPageMessage
       (fst (websocket_ops (WebSocketRoute.new "ws://localhost/") websocket_script)) = Some 7.
Proof.
  destruct (WebSocketRoute_slots (WebSocketRoute.new "ws://localhost/") websocket_script)
    as ((Hpm & _) & Hkept & _).
  split; [apply Hkept; by eexists|exact Hpm].
Defined.

(** ** Request: merging overrides *)

(** X6: merging overrides into a request changes its URL and its method to
    the ones given when they are non-empty strings and leaves them as they
    were otherwise, so that of two merges the later one wins field by
    field; it replaces the overriding headers when headers are given; it
    never changes what the request was captured with nor its redirect
    links; and merging no overrides changes nothing. *)
Theorem Request_overrides_merge (this : Request.t) (o : Request.FallbackOverrides) :
  Request.url (Request._applyFallbackOverrides this o)
  = js_or (Request.fo_url o) (Request.url this)
  /\ Request.method (Request._applyFallbackOverrides this o)
     = js_or (Request.fo_method o) (Request.method this)
  /\ (forall o2,
        Request.url (Request._applyFallbackOverrides (Request._applyFallbackOverrides this o) o2)
        = js_or (Request.fo_url o2) (js_or (Request.fo_url o) (Request.url this))
        /\ Request.method
             (Request._applyFallbackOverrides (Request._applyFallbackOverrides this o) o2)
           = js_or (Request.fo_method o2) (js_or (Request.fo_method o) (Request.method this)))
  /\ Request.headers (Request._applyFallbackOverrides this o)
     = match Request.fo_headers o with
       | Some h => RawHeaders.headers (RawHeaders._fromHeadersObjectLossy h)
       | None => Request.headers this
       end
  /\ Request._initializer (Request._applyFallbackOverrides this o) = Request._initializer this
  /\ Request._provisionalHeaders (Request._applyFallbackOverrides this o)
     = Request._provisionalHeaders this
  /\ Request._redirectedFrom (Request._applyFallbackOverrides this o)
     = Request._redirectedFrom this
  /\ Request._redirectedTo (Request._applyFallbackOverrides this o)
     = Request._redirectedTo this
  /\ Request._applyFallbackOverrides this no_overrides_given = this.
Proof.
  assert (Hurl : forall this o,
             Request.url (Request._applyFallbackOverrides this o)
             = js_or (Request.fo_url o) (Request.url this)).
  { intros r o'. unfold Request.url; simpl.
    destruct (Request.fo_url o') as [s|]; simpl; [|done].
    destruct (String.eqb s "") eqn:E; simpl; [done|by rewrite E]. }
  assert (Hmethod : forall this o,
             Request.method (Request._applyFallbackOverrides this o)
             = js_or (Request.fo_method o) (Request.method this)).
  { intros r o'. unfold Request.method; simpl.
    destruct (Request.fo_method o') as [s|]; simpl; [|done].
    destruct (String.eqb s "") eqn:E; simpl; [done|by rewrite E]. }
  split; [apply Hurl|]. split; [apply Hmethod|].
  split; [intros o2; by rewrite !Hurl, !Hmethod|].
  split; [unfold Request.headers; simpl; by destruct (Request.fo_headers o)|].
  do 4 (split; [done|]).
  by destruct this as [i f t p []].
Qed.

Lemma postData_override_value (this : Request.t) (o : Request.FallbackOverrides) (v : JSON) :
  Request.fo_postData o = Some (Request.PostValue v) -> not_a_string v ->
  Request.postDataBuffer_override
    (Request._fallbackOverrides (Request._applyFallbackOverrides this o))
  = if truthy v then Some (Buffer_from_utf8 (JSON_stringify v))
    else Request.postDataBuffer_override (Request._fallbackOverrides this).
Proof. intros Hv Hns. simpl. rewrite Hv. by destruct v. Qed.

Lemma eqb_empty_length (s : string) : String.length s <> 0 -> String.eqb s "" = false.
Proof. by destruct s. Qed.

(** X7: merging overrides with a body. A string becomes the body as its
    UTF-8 bytes, and [postData()] returns it, or null when it is empty: the
    empty string hides the captured body. A buffer becomes the body as it
    is. Another value becomes the body as its JSON serialization when it is
    truthy (stated for a value whose numbers are safe integers), and is
    ignored, like no value, when it is falsy (0, false, null). *)
Theorem Request_overrides_body (this : Request.t) (o : Request.FallbackOverrides) :
  (forall s, Request.fo_postData o = Some (Request.PostValue (JString s)) ->
     Request.postDataBuffer (Request._applyFallbackOverrides this o) = Some (Buffer_from_utf8 s)
     /\ Request.postData (Request._applyFallbackOverrides this o)
        = if String.eqb s "" then None else Some s)
  /\ (forall b, Request.fo_postData o = Some (Request.PostBuffer b) ->
        Request.postDataBuffer (Request._applyFallbackOverrides this o) = Some b)
  /\ (forall v, Request.fo_postData o = Some (Request.PostValue v) ->
        not_a_string v -> truthy v = true -> safe_integers v = true ->
        Request.postDataBuffer (Request._applyFallbackOverrides this o)
        = Some (Buffer_from_utf8 (JSON_stringify v))
        /\ Request.postData (Request._applyFallbackOverrides this o)
           = Some (JSON_stringify v))
  /\ (forall v, Request.fo_postData o = Some (Request.PostValue v) ->
        not_a_string v -> truthy v = false ->
        Request.postDataBuffer (Request._applyFallbackOverrides this o)
        = Request.postDataBuffer this)
  /\ (Request.fo_postData o = None ->
      Request.postDataBuffer (Request._applyFallbackOverrides this o)
      = Request.postDataBuffer this).
Proof.
  split; [|split; [|split; [|split]]].
  - intros s Hs. unfold Request.postData, Request.postDataBuffer; simpl. rewrite Hs.
    split; [done|].
    unfold Buffer_toString_utf8, Buffer_from_utf8. by rewrite string_of_list_byte_of_string.
  - intros b Hb. unfold Request.postDataBuffer; simpl. by rewrite Hb.
  - intros v Hv Hns Ht _. unfold Request.postData, Request.postDataBuffer.
    rewrite (postData_override_value this o v Hv Hns), Ht.
    split; [done|].
    unfold Buffer_toString_utf8, Buffer_from_utf8. rewrite string_of_list_byte_of_string.
    by rewrite eqb_empty_length by apply JSON_stringify_nonempty.
  - intros v Hv Hns Ht. unfold Request.postDataBuffer.
    by rewrite (postData_override_value this o v Hv Hns), Ht.
  - intros Hnone. unfold Request.postDataBuffer; simpl. by rewrite Hnone.
Qed.

(** On the request with the form body: an empty string as the overriding
    body makes [postData()] null, the number 0 leaves the body as it is,
    and an object becomes the body, serialized. *)
Lemma Request_overrides_body_witness :
  Request.postData (Request._applyFallbackOverrides form_request (post_data_override (JString "")))
  = None
  /\ Request.postDataBuffer
       (Request._applyFallbackOverrides form_request (post_data_override (JNumber 0)))
     = Some (Buffer_from_utf8 "a=1&b=2")
  /\ Request.postData
       (Request._applyFallbackOverrides form_request
          (post_data_override (JObject [("a", JNumber 1)])))
     = Some json_body
  /\ Request.postDataBuffer
       (Request._applyFallbackOverrides form_request no_overrides_given)
     = Some (Buffer_from_utf8 "a=1&b=2").
Proof.
  split; [|split; [|split]].
  - destruct (Request_overrides_body form_request (post_data_override (JString "")))
      as (Hs & _).
    apply (proj2 (Hs "" eq_refl)).
  - destruct (Request_overrides_body form_request (post_data_override (JNumber 0)))
      as (_ & _ & _ & Hfalsy & _).
    apply (Hfalsy (JNumber 0)); [reflexivity|exact I|reflexivity].
  - destruct (Request_overrides_body form_request
                (post_data_override (JObject [("a", JNumber 1)])))
      as (_ & _ & Htruthy & _).
    apply (proj2 (Htruthy (JObject [("a", JNumber 1)]) eq_refl I eq_refl eq_refl)).
  - destruct (Request_overrides_body form_request no_overrides_given)
      as (_ & _ & _ & _ & Hnone).
    apply Hnone. reflexivity.
Defined.

(** ** RawHeaders: the single-valued view *)

Lemma MultiMap_keys_set (m : MultiMap.t) (key value k : string) :
  k ∈ MultiMap.keys (MultiMap.set key value m) <-> k = key \/ k ∈ MultiMap.keys m.
Proof.
  unfold MultiMap.keys. induction m as [|[k' values] m IH]; simpl.
  - rewrite list_elem_of_singleton. split; [by left|]. intros [?|?%elem_of_nil]; done.
  - destruct (String.eqb k' key) eqn:E; simpl.
    + apply String.eqb_eq in E as ->. rewrite elem_of_cons. tauto.
    + rewrite !elem_of_cons, IH. tauto.
Qed.

Lemma MultiMap_keys_new (headers : HeadersArray) (k : string) :
  k ∈ MultiMap.keys (RawHeaders._headersMap (RawHeaders.new headers))
  <-> exists h, h ∈ headers /\ toLowerCase (name h) = k.
Proof.
  unfold RawHeaders.new; simpl.
  assert (H : forall m,
    k ∈ MultiMap.keys
          (fold_left (fun m header => MultiMap.set (toLowerCase (name header)) (value header) m)
                     headers m)
    <-> k ∈ MultiMap.keys m \/ exists h, h ∈ headers /\ toLowerCase (name h) = k).
  { induction headers as [|h headers IH]; intros m; simpl.
    - split; [by left|]. intros [?|(h & ?%elem_of_nil & _)]; done.
    - rewrite IH, MultiMap_keys_set. split.
      + intros [[ -> |?]|(h' & ? & ?)]; [right; exists h; split; [by left|done]|by left|].
        right. exists h'. split; [by right|done].
      + intros [?|(h' & [ -> |?]%elem_of_cons & ?)]; [left; by right|left; by left|].
        right. by exists h'. }
  rewrite H. split; [|by right]. intros [?%elem_of_nil|?]; done.
Qed.

Lemma headers_fold_keys (this : RawHeaders.t) (names : list string) (acc : Headers) (k : string) :
  k ∈ obj_keys (fold_left (fun result name => obj_set name (RawHeaders.get this name) result)
                          names acc)
  <-> k ∈ obj_keys acc \/ (k ∈ names /\ k <> "__proto__").
Proof.
  revert acc. induction names as [|n names IH]; intros acc; cbn [fold_left].
  - split; [by left|]. intros [?|[?%elem_of_nil _]]; done.
  - rewrite IH. unfold obj_set. destruct (String.eqb n "__proto__") eqn:Ep.
    + apply String.eqb_eq in Ep as ->. rewrite elem_of_cons. split.
      * intros [?|[? ?]]; [by left|right; split; [by right|done]].
      * intros [?|[[ -> |?] ?]]; [by left|done|by right].
    + apply String.eqb_neq in Ep. rewrite obj_keys_update, elem_of_cons.
      destruct (obj_has n acc) eqn:Hhas.
      * apply obj_has_keys in Hhas. split.
        -- intros [?|[? ?]]; [by left|right; split; [by right|done]].
        -- intros [?|[[ -> |?] ?]]; [by left|by left|by right].
      * rewrite elem_of_app, list_elem_of_singleton. split.
        -- intros [[?| -> ]|[? ?]]; [by left|right; split; [by left|done]|].
           right; split; [by right|done].
        -- intros [?|[[ -> |?] ?]]; [left; by left|left; by right|by right].
Qed.

Lemma headers_fold_NoDup (this : RawHeaders.t) (names : list string) (acc : Headers) :
  NoDup (obj_keys acc) ->
  NoDup (obj_keys (fold_left (fun result name => obj_set name (RawHeaders.get this name) result)
                             names acc)).
Proof.
  revert acc. induction names as [|n names IH]; intros acc Hnd; cbn [fold_left]; [done|].
  apply IH. by apply obj_set_NoDup.
Qed.

Lemma obj_get_absent (o : Headers) (k : string) : k ∉ obj_keys o -> obj_get k o = None.
Proof.
  unfold obj_keys. induction o as [|[k' v] o IH]; simpl; [done|].
  rewrite not_elem_of_cons. intros [Hne Hnotin].
  destruct (String.eqb k' k) eqn:E; [|by apply IH].
  apply String.eqb_eq in E. congruence.
Qed.

Lemma RawHeaders_get_lower (this : RawHeaders.t) (n : string) :
  RawHeaders.get this (toLowerCase n) = RawHeaders.get this n.
Proof. unfold RawHeaders.get, RawHeaders.getAll. by rewrite !toLowerCase_idem. Qed.

(** X8: [headers()] of a RawHeaders store whose header names are ASCII is
    an object with one entry per lower-cased header name, without
    repetition: its keys are exactly the lower-cased names of the headers
    (but for a header named [__proto__], which a plain object cannot hold),
    the value under the lower-cased form of an ASCII name is what [get]
    returns for the name, and a key that is not in lower case is not in the
    object. *)
Theorem RawHeaders_headers_view (headers : HeadersArray) :
  ascii_names headers ->
  NoDup (obj_keys (RawHeaders.headers (RawHeaders.new headers)))
  /\ (forall k, k ∈ obj_keys (RawHeaders.headers (RawHeaders.new headers))
                <-> k <> "__proto__" /\ exists h, h ∈ headers /\ toLowerCase (name h) = k)
  /\ (forall n, is_ascii n = true -> toLowerCase n <> "__proto__" ->
        obj_get (toLowerCase n) (RawHeaders.headers (RawHeaders.new headers))
        = RawHeaders.get (RawHeaders.new headers) n)
  /\ (forall k, toLowerCase k <> k ->
        obj_get k (RawHeaders.headers (RawHeaders.new headers)) = None).
Proof.
  intros _.
  assert (Hkeys : forall k, k ∈ obj_keys (RawHeaders.headers (RawHeaders.new headers))
                <-> k <> "__proto__" /\ exists h, h ∈ headers /\ toLowerCase (name h) = k).
  { intros k. unfold RawHeaders.headers. rewrite headers_fold_keys, MultiMap_keys_new.
    split; [|intros [? ?]; by right]. intros [?%elem_of_nil|[? ?]]; done. }
  split; [apply headers_fold_NoDup, NoDup_nil_2|]. split; [exact Hkeys|]. split.
  - intros n _ Hn. rewrite headers_get by (done || apply toLowerCase_idem).
    apply RawHeaders_get_lower.
  - intros k Hk. apply obj_get_absent. rewrite Hkeys. intros [_ (h & _ & Hh)].
    apply Hk. rewrite <- Hh. apply toLowerCase_idem.
Qed.

(** The view of two set-cookie headers and a content type: the cookies are
    joined under one lower-case key, and the key as the server wrote it is
    not in the object. *)
Lemma RawHeaders_headers_view_witness :
  obj_get "set-cookie"
    (RawHeaders.headers
       (RawHeaders.new [ {| name := "Set-Cookie"; value := "a=1" |};
                         {| name := "Content-Type"; value := "text/html" |};
                         {| name := "set-cookie"; value := "b=2" |} ]))
  = Some ("a=1" +:+ newline +:+ "b=2")
  /\ obj_get "Content-Type"
       (RawHeaders.headers
          (RawHeaders.new [ {| name := "Set-Cookie"; value := "a=1" |};
                            {| name := "Content-Type"; value := "text/html" |};
                            {| name := "set-cookie"; value := "b=2" |} ]))
     = None.
Proof.
  destruct (RawHeaders_headers_view
              [ {| name := "Set-Cookie"; value := "a=1" |};
                {| name := "Content-Type"; value := "text/html" |};
                {| name := "set-cookie"; value := "b=2" |} ]) as (_ & _ & Hget & Hmiss).
  { by repeat constructor. }
  split.
  - etransitivity; [apply (Hget "Set-Cookie"); [reflexivity|discriminate]|reflexivity].
  - apply Hmiss. discriminate.
Defined.

(** ** Request: the headers fetched over the channel *)

Lemma getAll_fromHeadersObjectLossy (headers : Headers) (n : string) :
  RawHeaders.getAll (RawHeaders._fromHeadersObjectLossy headers) n = object_values n headers.
Proof.
  unfold RawHeaders._fromHeadersObjectLossy. rewrite getAll_new.
  unfold values_named, object_values.
  induction headers as [|[k [v|]] headers IH]; simpl; [done|..];
    destruct (String.eqb (toLowerCase k) (toLowerCase n)) eqn:E; simpl;
    rewrite ?E; simpl; first [exact IH | f_equal; exact IH].
Qed.

Lemma ActualHeaders_calls_requested (this : Request.t) (reply : Result HeadersArray)
    (st : ActualHeaders.State) (cs : list ActualHeaders.Call) :
  Request.headers_override (Request._fallbackOverrides this) = None ->
  ActualHeaders._actualHeadersPromise st = true ->
  ActualHeaders.calls this reply st cs
  = (st, map (fun c => match reply with
                       | Ok headers => Ok (ActualHeaders.answer (RawHeaders.new headers) c)
                       | Throw e => Throw e
                       end) cs).
Proof.
  intros Hnone Hp. induction cs as [|c cs IH]; simpl; [done|].
  unfold ActualHeaders.call, ActualHeaders._actualHeaders. rewrite Hnone, Hp, IH.
  by destruct reply.
Qed.

(** X9: on a request with no overriding headers, however many times
    [headerValue], [allHeaders] and [headersArray] are called, the raw
    headers are requested on the channel once, at the first call, and every
    call answers from the headers of that one reply, or rejects if it was a
    rejection. On a request with overriding headers nothing is requested
    and every call answers from the overriding headers alone; when the keys
    of these are ASCII, a lookup by an ASCII name gives the values of the
    keys that are the name but for the case, an undefined value left
    out. *)
Theorem Request_actualHeaders_memoized (this : Request.t) (reply : Result HeadersArray)
    (cs : list ActualHeaders.Call) :
  (Request.headers_override (Request._fallbackOverrides this) = None ->
   ActualHeaders.rawRequestHeaders (fst (ActualHeaders.calls this reply ActualHeaders.initial cs))
   = Nat.min 1 (length cs)
   /\ snd (ActualHeaders.calls this reply ActualHeaders.initial cs)
      = map (fun c => match reply with
                      | Ok headers => Ok (ActualHeaders.answer (RawHeaders.new headers) c)
                      | Throw e => Throw e
                      end) cs)
  /\ (forall h, Request.headers_override (Request._fallbackOverrides this) = Some h ->
        fst (ActualHeaders.calls this reply ActualHeaders.initial cs) = ActualHeaders.initial
        /\ snd (ActualHeaders.calls this reply ActualHeaders.initial cs)
           = map (fun c => Ok (ActualHeaders.answer (RawHeaders._fromHeadersObjectLossy h) c)) cs
        /\ forall n, ascii_keys h -> is_ascii n = true ->
                     RawHeaders.getAll (RawHeaders._fromHeadersObjectLossy h) n
                     = object_values n h).
Proof.
  split.
  - intros Hnone. destruct cs as [|c cs]; [done|]. simpl.
    unfold ActualHeaders.call, ActualHeaders._actualHeaders. rewrite Hnone. simpl.
    rewrite ActualHeaders_calls_requested by done. simpl.
    split; [done|]. by destruct reply.
  - intros h Hh. split_and!; [| |intros n _ _; apply getAll_fromHeadersObjectLossy].
    + induction cs as [|c cs IH]; simpl; [done|].
      unfold ActualHeaders.call, ActualHeaders._actualHeaders. rewrite Hh.
      destruct (ActualHeaders.calls this reply ActualHeaders.initial cs) as [st rs].
      simpl in IH. by subst st.
    + induction cs as [|c cs IH]; simpl; [done|].
      unfold ActualHeaders.call, ActualHeaders._actualHeaders. rewrite Hh.
      destruct (ActualHeaders.calls this reply ActualHeaders.initial cs) as [st rs].
      simpl in IH |- *. by subst rs.
Qed.

(** Three calls on the request with the form body: one request on the
    channel. And on the request with overriding headers: none, and the
    header of the override is found under another case. *)
Lemma Request_actualHeaders_memoized_witness :
  ActualHeaders.rawRequestHeaders
    (fst (ActualHeaders.calls form_request (Ok [ {| name := "Host"; value := "localhost" |} ])
            ActualHeaders.initial
            [ActualHeaders.headerValue "host"; ActualHeaders.allHeaders;
             ActualHeaders.headerValue "HOST"])) = 1
  /\ snd (ActualHeaders.calls reheadered_request
            (Ok [ {| name := "Host"; value := "localhost" |} ])
            ActualHeaders.initial
            [ActualHeaders.headerValue "x-token"; ActualHeaders.headerValue "host"])
     = [Ok (ActualHeaders.Value (Some "t")); Ok (ActualHeaders.Value None)]
  /\ RawHeaders.getAll
       (RawHeaders._fromHeadersObjectLossy [("X-Token", Some "t"); ("Accept", None)]) "x-token"
     = ["t"].
Proof.
  split.
  - destruct (Request_actualHeaders_memoized form_request
                (Ok [ {| name := "Host"; value := "localhost" |} ])
                [ActualHeaders.headerValue "host"; ActualHeaders.allHeaders;
                 ActualHeaders.headerValue "HOST"]) as [Hfetch _].
    apply (proj1 (Hfetch eq_refl)).
  - destruct (Request_actualHeaders_memoized reheadered_request
                (Ok [ {| name := "Host"; value := "localhost" |} ])
                [ActualHeaders.headerValue "x-token"; ActualHeaders.headerValue "host"])
      as [_ Hover].
    destruct (Hover [("X-Token", Some "t"); ("Accept", None)] eq_refl) as (_ & Hans & Hall).
    split; [etransitivity; [exact Hans|reflexivity]|].
    etransitivity; [apply Hall; [by repeat constructor|reflexivity]|reflexivity].
Defined.

(** ** Route: what a handled Route no longer does *)

Lemma step_handled_world (env : Route.Environment) (run : Route.Run) (ev : Route.Event) :
  ev <> Route.StartHandling ->
  Route._handlingPromise (Route.route (Route.world run)) = None ->
  Route._handlingPromise (Route.route (Route.world (Route.step env run ev))) = None
  /\ Route.channel (Route.world (Route.step env run ev)) = Route.channel (Route.world run)
  /\ Route.request (Route.world (Route.step env run ev)) = Route.request (Route.world run)
  /\ Route.promises (Route.world (Route.step env run ev)) = Route.promises (Route.world run).
Proof.
  intros Hev Hnone. destruct run as [w calls].
  destruct ev as [c|options|k reply|]; simpl in *; [| | |done].
  - pose proof (_handleRoute_begin_spec env c w) as Hbegin. rewrite Hnone in Hbegin.
    by rewrite Hbegin.
  - pose proof (fallback_spec options w) as Hfb. rewrite Hnone in Hfb. by rewrite Hfb.
  - destruct (calls !! k) as [[failed|r']|]; simpl; [|done|done].
    unfold Route._handleRoute_resume, Route.try_catch, Route.bind, Route.of_result,
      Route._reportHandled.
    destruct failed as [e|]; simpl; [by rewrite Hnone|].
    destruct reply as [[]|e]; simpl; by rewrite Hnone.
Qed.

Lemma step_all_settled (env : Route.Environment) (run : Route.Run) (ev : Route.Event) :
  ev <> Route.StartHandling ->
  Route._handlingPromise (Route.route (Route.world run)) = None ->
  all_settled run -> all_settled (Route.step env run ev).
Proof.
  intros Hev Hnone Hsettled. destruct run as [w calls]. unfold all_settled in *.
  destruct ev as [c|options|k reply|]; simpl in *; [| | |done].
  - pose proof (_handleRoute_begin_spec env c w) as Hbegin. rewrite Hnone in Hbegin.
    rewrite Hbegin. simpl. apply Forall_app. split; [done|]. repeat constructor. eauto.
  - pose proof (fallback_spec options w) as Hfb. rewrite Hnone in Hfb.
    rewrite Hfb. simpl. apply Forall_app. split; [done|]. repeat constructor. eauto.
  - destruct (calls !! k) as [[failed|r']|] eqn:Hk; [|done|done].
    apply (Forall_lookup_1 _ _ _ _ Hsettled) in Hk as [r ?]. done.
Qed.

(** X10: once a Route is handled, and short of the dispatcher handing it
    to a handler again, whatever resolving calls are made and whatever
    replies arrive afterwards, the Route stays handled, the overrides of
    the request are not changed, no promise is resolved, and every call
    made afterwards fails with AlreadyHandled. When moreover no earlier
    call is still suspended, nothing reaches the browser any more: no
    command is issued on the channel. *)
Theorem Route_handled_is_final (env : Route.Environment) (run : Route.Run)
    (events : list Route.Event) :
  no_restart events ->
  Route._handlingPromise (Route.route (Route.world run)) = None ->
  Route._handlingPromise (Route.route (Route.world (Route.exec env run events))) = None
  /\ Route.request (Route.world (Route.exec env run events)) = Route.request (Route.world run)
  /\ Route.promises (Route.world (Route.exec env run events))
     = Route.promises (Route.world run)
  /\ (forall j, length (Route.calls run) <= j ->
        j < length (Route.calls (Route.exec env run events)) ->
        Route.calls (Route.exec env run events) !! j
        = Some (Route.Settled (Throw AlreadyHandled)))
  /\ (all_settled run ->
      Route.channel (Route.world (Route.exec env run events))
      = Route.channel (Route.world run)
      /\ all_settled (Route.exec env run events)).
Proof.
  intros Hev Hnone.
  assert (Hworld :
    Route._handlingPromise (Route.route (Route.world (Route.exec env run events))) = None
    /\ Route.channel (Route.world (Route.exec env run events))
       = Route.channel (Route.world run)
    /\ Route.request (Route.world (Route.exec env run events))
       = Route.request (Route.world run)
    /\ Route.promises (Route.world (Route.exec env run events))
       = Route.promises (Route.world run)
    /\ (all_settled run -> all_settled (Route.exec env run events))).
  { clear -Hev Hnone. revert run Hnone.
    induction Hev as [|ev events Hne _ IH]; intros run Hnone; [done|].
    simpl. destruct (step_handled_world env run ev Hne Hnone) as (H1 & H2 & H3 & H4).
    destruct (IH _ H1) as (-> & -> & -> & -> & Hsettled).
    split_and!; try done. intros Hrun. by apply Hsettled, step_all_settled. }
  destruct Hworld as (H1 & H2 & H3 & H4 & H5).
  split_and!; [done|done|done| |by split; [|apply H5]].
  destruct (exec_refused_from env (length (Route.calls run)) events run Hev)
    as (_ & _ & Hrefused).
  { split_and!; [done|done|]. intros j ? ?. lia. }
  exact Hrefused.
Qed.

(** After an awaited [abort()], a [continue()] with a new URL and a
    [fallback()] with a new method change nothing: both fail, the only
    command remains the abort, and the request keeps its URL and method. *)
Lemma Route_handled_is_final_witness :
  Route.channel
    (Route.world
       (Route.exec example_env
          (Route.exec example_env (no_calls (Route.handed_over form_request))
             [Route.Invoke (Route.abort None); Route.Reply 0 (Ok tt)])
          [Route.Invoke (Route.continue (url_overrides "http://localhost/other"));
           Route.Reply 1 (Ok tt);
           Route.InvokeFallback (method_overrides "PUT")]))
  = [Route.CmdAbort None]
  /\ Route.request
       (Route.world
          (Route.exec example_env
             (Route.exec example_env (no_calls (Route.handed_over form_request))
                [Route.Invoke (Route.abort None); Route.Reply 0 (Ok tt)])
             [Route.Invoke (Route.continue (url_overrides "http://localhost/other"));
              Route.Reply 1 (Ok tt);
              Route.InvokeFallback (method_overrides "PUT")]))
     = form_request
  /\ Route.calls
       (Route.exec example_env
          (Route.exec example_env (no_calls (Route.handed_over form_request))
             [Route.Invoke (Route.abort None); Route.Reply 0 (Ok tt)])
          [Route.Invoke (Route.continue (url_overrides "http://localhost/other"));
           Route.Reply 1 (Ok tt);
           Route.InvokeFallback (method_overrides "PUT")]) !! 2
     = Some (Route.Settled (Throw AlreadyHandled)).
Proof.
  destruct (Route_handled_is_final example_env
              (Route.exec example_env (no_calls (Route.handed_over form_request))
                 [Route.Invoke (Route.abort None); Route.Reply 0 (Ok tt)])
              [Route.Invoke (Route.continue (url_overrides "http://localhost/other"));
               Route.Reply 1 (Ok tt);
               Route.InvokeFallback (method_overrides "PUT")])
    as (_ & Hreq & _ & Hrefused & Hsettled).
  - repeat constructor; discriminate.
  - reflexivity.
  - split; [|split; [exact Hreq|]].
    + apply Hsettled. repeat constructor. by exists (Ok tt).
    + apply Hrefused; simpl; lia.
Defined.

(** ** Route: a request that goes through several handlers *)

Lemma replicate_snoc {A} (k : nat) (x : A) : replicate k x ++ [x] = replicate (S k) x.
Proof. induction k as [|k IH]; simpl; [done|]. by rewrite IH. Qed.

Lemma insert_replicate_snoc {A} (k : nat) (x y z : A) :
  <[k := z]> (replicate k x ++ [y]) = replicate k x ++ [z].
Proof.
  rewrite insert_app_r_alt by (rewrite length_replicate; lia).
  by rewrite length_replicate, Nat.sub_diag.
Qed.

Lemma lookup_replicate_snoc {A} (k : nat) (x y : A) : (replicate k x ++ [y]) !! k = Some y.
Proof. apply list_lookup_middle. by rewrite length_replicate. Qed.

Lemma fallback_and_restart (env : Route.Environment) (k : nat) (r : Request.t)
    (o : Request.FallbackOverrides) :
  Route.exec env {| Route.world := after_fallbacks k r;
                    Route.calls := replicate k (Route.Settled (Ok tt)) |}
             [Route.InvokeFallback o; Route.StartHandling]
  = {| Route.world := after_fallbacks (S k) (Request._applyFallbackOverrides r o);
       Route.calls := replicate (S k) (Route.Settled (Ok tt)) |}.
Proof.
  simpl. unfold Route.fallback, Route.bind, Route._checkNotHandled, Route._reportHandled,
    Route.resolve, Route._startHandling, after_fallbacks. simpl.
  rewrite lookup_replicate_snoc, insert_replicate_snoc. simpl.
  rewrite length_app, length_replicate. simpl.
  rewrite !replicate_snoc, Nat.add_1_r. done.
Qed.

Lemma fallbacks_exec (env : Route.Environment) (os : list Request.FallbackOverrides)
    (k : nat) (r : Request.t) (rest : list Route.Event) :
  Route.exec env {| Route.world := after_fallbacks k r;
                    Route.calls := replicate k (Route.Settled (Ok tt)) |}
             (flat_map (fun oi => [Route.InvokeFallback oi; Route.StartHandling]) os ++ rest)
  = Route.exec env {| Route.world := after_fallbacks (k + length os) (merged r os);
                      Route.calls := replicate (k + length os) (Route.Settled (Ok tt)) |}
               rest.
Proof.
  revert k r. induction os as [|o os IH]; intros k r.
  - simpl. by rewrite Nat.add_0_r.
  - change (flat_map _ (o :: os) ++ rest)
      with ([Route.InvokeFallback o; Route.StartHandling]
            ++ (flat_map (fun oi => [Route.InvokeFallback oi; Route.StartHandling]) os ++ rest)).
    unfold Route.exec. rewrite fold_left_app.
    change (fold_left (Route.step env) [Route.InvokeFallback o; Route.StartHandling] ?run)
      with (Route.exec env run [Route.InvokeFallback o; Route.StartHandling]).
    rewrite fallback_and_restart.
    change (fold_left (Route.step env) ?evs ?run) with (Route.exec env run evs).
    rewrite IH. simpl length. unfold merged. simpl fold_left.
    by replace (S k + length os) with (k + S (length os)) by lia.
Qed.

(** X11: when a request goes through handlers that each fall back, with
    overrides, and then through a handler that continues, with overrides,
    every one of these calls succeeds, the dispatcher is told false for
    each fallback and true for the continue, and the one command that
    reaches the browser is the [continue], which carries the overrides of
    all the handlers merged in the order of the calls; no fallback issues a
    command. *)
Theorem Route_fallbacks_then_continue (env : Route.Environment) (r : Request.t)
    (os : list Request.FallbackOverrides) (o : Request.FallbackOverrides) :
  Route.calls (Route.exec env (no_calls (Route.handed_over r)) (fallbacks_then_continue os o))
  = replicate (S (length os)) (Route.Settled (Ok tt))
  /\ Route.channel
       (Route.world (Route.exec env (no_calls (Route.handed_over r))
                                (fallbacks_then_continue os o)))
     = [Route.CmdContinue
          (continue_params env (Request._applyFallbackOverrides (merged r os) o))]
  /\ Route.request
       (Route.world (Route.exec env (no_calls (Route.handed_over r))
                                (fallbacks_then_continue os o)))
     = Request._applyFallbackOverrides (merged r os) o
  /\ Route.promises
       (Route.world (Route.exec env (no_calls (Route.handed_over r))
                                (fallbacks_then_continue os o)))
     = replicate (length os) (Some false) ++ [Some true]
  /\ Route._handlingPromise
       (Route.route (Route.world (Route.exec env (no_calls (Route.handed_over r))
                                             (fallbacks_then_continue os o))))
     = None.
Proof.
  unfold fallbacks_then_continue.
  change (no_calls (Route.handed_over r))
    with {| Route.world := after_fallbacks 0 r;
            Route.calls := replicate 0 (Route.Settled (Ok tt)) |}.
  rewrite fallbacks_exec. simpl Nat.add.
  set (n := length os). set (r' := merged r os).
  simpl. unfold Route._handleRoute_begin, Route._checkNotHandled. simpl.
  rewrite list_lookup_middle by (by rewrite length_replicate).
  unfold Route._handleRoute_resume, Route.try_catch, Route.bind, Route.of_result,
    Route._reportHandled, Route.resolve. simpl.
  rewrite lookup_replicate_snoc, !insert_replicate_snoc, replicate_snoc.
  unfold continue_params. simpl.
  split_and!; done.
Qed.

(** ** Route: fulfill, the other ways to give a body *)

Lemma fulfill_headers_object_get (env : Route.Environment)
    (options : Route.FulfillOptions) (headersOption : option Headers) (len : nat) (k : string) :
  k <> "__proto__" ->
  obj_get k (Route.fulfill_headers_object env options headersOption len)
  = if String.eqb k "content-length"
    then expected_content_length (given_header "content-length" headersOption) len
    else if String.eqb k "content-type"
         then obj_get "content-type"
                (Route.fulfill_headers_object env options headersOption len)
         else given_header k headersOption.
Proof.
  intros Hk. unfold Route.fulfill_headers_object.
  set (headers0 := fold_left _ _ _).
  assert (Hget : forall k, k <> "__proto__" -> obj_get k headers0 = given_header k headersOption).
  { intros k' Hk'. unfold headers0, given_header. rewrite given_fold_get by done.
    by destruct (last_named _ _). }
  assert (Hhas : obj_has "content-length" headers0
                 = match given_header "content-length" headersOption with
                   | Some _ => true
                   | None => false
                   end).
  { unfold headers0, given_header. rewrite given_fold_has by done.
    by destruct (last_named _ _). }
  set (headers1 := if truthy_string (Route.contentType options) then _ else _).
  assert (H1 : (forall k, String.eqb k "content-type" = false ->
                  obj_get k headers1 = obj_get k headers0)
               /\ obj_has "content-length" headers1 = obj_has "content-length" headers0).
  { unfold headers1. split.
    - intros k' Hk'. rewrite String.eqb_sym in Hk'.
      repeat case_match; rewrite ?obj_get_set, ?Hk'; done.
    - repeat case_match; rewrite ?obj_has_set; done. }
  destruct H1 as [Hget1 Hhas1].
  destruct (String.eqb k "content-length") eqn:Ecl.
  - apply String.eqb_eq in Ecl. subst k. rewrite Hhas1, Hhas.
    unfold expected_content_length.
    destruct (given_header "content-length" headersOption) as [v|] eqn:Hgiven.
    + rewrite andb_false_r, Hget1 by done. rewrite Hget by done. done.
    + rewrite andb_true_r. destruct (Nat.eqb len 0); simpl.
      * rewrite Hget1 by done. by rewrite Hget.
      * by rewrite obj_get_set.
  - destruct (String.eqb k "content-type") eqn:Ect.
    + apply String.eqb_eq in Ect. subst k. reflexivity.
    + assert (Hout : obj_get k
                       (if negb (Nat.eqb len 0) && negb (obj_has "content-length" headers1)
                        then obj_set "content-length" (Some (String_of_N (N.of_nat len))) headers1
                        else headers1) = obj_get k headers1).
      { destruct (negb (Nat.eqb len 0) && negb (obj_has "content-length" headers1));
          [|done].
        rewrite obj_get_set, (String.eqb_sym "content-length" k), Ecl. done. }
      rewrite Hout, Hget1 by done. by apply Hget.
Qed.

Lemma sent_headers_get (env : Route.Environment) (options : Route.FulfillOptions) (len : nat)
    (k : string) :
  k <> "__proto__" ->
  obj_get k (sent_headers env options len)
  = if String.eqb k "content-length"
    then expected_content_length (given_header "content-length" (headers_in_effect options)) len
    else if String.eqb k "content-type" then expected_content_type env options
         else given_header k (headers_in_effect options).
Proof.
  intros Hk. unfold sent_headers. rewrite fulfill_headers_object_get by done.
  by rewrite fulfill_headers_object_content_type.
Qed.

(** X12: whatever the options, when the names of the headers given are
    ASCII, the headers object of [fulfill] holds, under any name other than
    [__proto__]: for content-length the header given
    (by the caller, else by the response passed on), else the length of the
    body when it is not zero, else nothing; for content-type the
    [contentType] option when it is truthy, else application/json for a
    truthy [json], else for a truthy [path] the mime type of the path or
    application/octet-stream, else the header given; for any other name
    the header given, looked up without regard to case, the last one
    winning. All its names are lower-case. *)
Theorem Route_fulfill_sent_headers (env : Route.Environment) (options : Route.FulfillOptions)
    (len : nat) (k : string) :
  ascii_keys (default [] (headers_in_effect options)) ->
  k <> "__proto__" ->
  obj_get k (sent_headers env options len)
  = (if String.eqb k "content-length"
     then expected_content_length
            (given_header "content-length" (headers_in_effect options)) len
     else if String.eqb k "content-type" then expected_content_type env options
          else given_header k (headers_in_effect options))
  /\ (k ∈ obj_keys (sent_headers env options len) -> toLowerCase k = k).
Proof.
  intros _ Hk. split; [by apply sent_headers_get|].
  apply fulfill_headers_object_lowercase.
Qed.

Lemma Route_fulfill_sent_headers_witness :
  obj_get "x-served-by" (sent_headers page_env fulfill_text_options 4) = Some "mock"
  /\ obj_get "content-length" (sent_headers page_env fulfill_text_options 4) = Some "5"
  /\ obj_get "content-type" (sent_headers page_env fulfill_text_options 4) = Some "text/plain"
  /\ obj_get "content-length" (sent_headers page_env fulfill_buffer_options 3) = Some "3"
  /\ obj_get "content-length" (sent_headers page_env fulfill_empty_options 0) = None.
Proof.
  split_and!.
  - by rewrite (proj1 (Route_fulfill_sent_headers page_env fulfill_text_options 4
                         "x-served-by" ltac:(by repeat constructor) ltac:(done))).
  - by rewrite (proj1 (Route_fulfill_sent_headers page_env fulfill_text_options 4
                         "content-length" ltac:(by repeat constructor) ltac:(done))).
  - by rewrite (proj1 (Route_fulfill_sent_headers page_env fulfill_text_options 4
                         "content-type" ltac:(by repeat constructor) ltac:(done))).
  - by rewrite (proj1 (Route_fulfill_sent_headers page_env fulfill_buffer_options 3
                         "content-length" ltac:(by repeat constructor) ltac:(done))).
  - by rewrite (proj1 (Route_fulfill_sent_headers page_env fulfill_empty_options 0
                         "content-length" ltac:(by repeat constructor) ltac:(done))).
Defined.

(** X13: a [fulfill] with a [body] and neither [json] nor a truthy [path]
    succeeds; it sends a string as it is, and a buffer in base64 (which
    decodes to the buffer) with [isBase64] set; the body of a response
    passed on is neither read nor referred to; the headers are those for the
    byte length of the body, and the status is the one given, else the one
    of the response, and 200 in place of none or zero. *)
Theorem Route_fulfill_body (env : Route.Environment) (options : Route.FulfillOptions)
    (given : Route.Body) :
  Route.json options = None ->
  truthy_string (Route.path options) = false ->
  Route.body options = Some given ->
  exists params,
    Route.fulfill_params env options = Ok params
    /\ Route.fulfill_status params = expected_status options
    /\ Route.fulfill_fetchResponseUid params = None
    /\ match given with
       | Route.BodyString s =>
           Route.fulfill_body params = Some s
           /\ Route.fulfill_isBase64 params = false
           /\ Route.fulfill_headers params
              = Route.headersObjectToArray env (sent_headers env options (String.length s))
       | Route.BodyBuffer b =>
           Route.fulfill_body params = Some (Buffer_toString_base64 b)
           /\ Buffer_from_base64 (Buffer_toString_base64 b) = b
           /\ Route.fulfill_isBase64 params = true
           /\ Route.fulfill_headers params
              = Route.headersObjectToArray env (sent_headers env options (length b))
       end.
Proof.
  intros Hjson Hpath Hbody.
  unfold Route.fulfill_params, expected_status, sent_headers, headers_in_effect.
  rewrite Hjson, Hbody, Hpath.
  destruct (Route.response options) as [r|]; simpl.
  - destruct given as [s|b]; simpl; eexists; (split; [reflexivity|]); simpl;
      split_and!; try done; try apply base64_roundtrip;
      by destruct (Route.status options), (Route.headers options).
  - destruct given as [s|b]; simpl; eexists; (split; [reflexivity|]); simpl;
      split_and!; try done; try apply base64_roundtrip;
      by destruct (Route.status options), (Route.headers options).
Qed.

Lemma Route_fulfill_body_witness :
  exists params,
    Route.fulfill_params page_env fulfill_buffer_options = Ok params
    /\ Route.fulfill_status params = 200%Z
    /\ Route.fulfill_body params = Some "AAEC"
    /\ Route.fulfill_isBase64 params = true.
Proof.
  destruct (Route_fulfill_body page_env fulfill_buffer_options
              (Route.BodyBuffer [Init.Byte.x00; Init.Byte.x01; Init.Byte.x02])
              eq_refl eq_refl eq_refl)
    as (params & Hparams & Hstatus & _ & Hbody & _ & Hbase64 & _).
  exists params. split_and!; [exact Hparams|exact Hstatus|exact Hbody|exact Hbase64].
Defined.

(** X14: a [fulfill] with a truthy [path], unless it has both [json] and
    [body], reads the file: a failed read is the failure of the call, and
    otherwise the body sent is the content of the file in base64 (which
    decodes to it) with [isBase64] set, whatever [body], [json] or
    [response] were given; the headers are those for the length of the
    file. *)
Theorem Route_fulfill_path (env : Route.Environment) (options : Route.FulfillOptions)
    (p : string) :
  Route.path options = Some p ->
  p <> "" ->
  ambiguous options = false ->
  match Route.readFile env p with
  | Throw e => Route.fulfill_params env options = Throw e
  | Ok buffer =>
      exists params,
        Route.fulfill_params env options = Ok params
        /\ Route.fulfill_status params = expected_status options
        /\ Route.fulfill_fetchResponseUid params = None
        /\ Route.fulfill_body params = Some (Buffer_toString_base64 buffer)
        /\ Buffer_from_base64 (Buffer_toString_base64 buffer) = buffer
        /\ Route.fulfill_isBase64 params = true
        /\ Route.fulfill_headers params
           = Route.headersObjectToArray env (sent_headers env options (length buffer))
  end.
Proof.
  intros Hpath Hp Hambiguous.
  assert (Htruthy : truthy_string (Route.path options) = true).
  { rewrite Hpath. simpl. apply negb_true_iff, String.eqb_neq, Hp. }
  unfold Route.fulfill_params, expected_status, sent_headers, headers_in_effect.
  unfold ambiguous in Hambiguous.
  rewrite Htruthy. rewrite Hpath in *. simpl.
  destruct (Route.json options) as [j|], (Route.body options) as [b|]; try done;
    destruct (Route.response options) as [r|]; simpl;
    destruct (Route.readFile env p) as [buffer|e]; try done;
    eexists; (split; [reflexivity|]); simpl;
    split_and!; try done; try apply base64_roundtrip;
    by destruct (Route.status options), (Route.headers options).
Qed.

Lemma Route_fulfill_path_witness :
  (exists params,
     Route.fulfill_params page_env fulfill_path_options = Ok params
     /\ Route.fulfill_body params = Some "aGk="
     /\ Route.fulfill_isBase64 params = true)
  /\ Route.fulfill_params example_env fulfill_path_options = Throw (ChannelError "ENOENT").
Proof.
  split.
  - destruct (Route_fulfill_path page_env fulfill_path_options "page.html"
                eq_refl ltac:(done) eq_refl)
      as (params & Hparams & _ & _ & Hbody & _ & Hbase64 & _).
    exists params. split_and!; [exact Hparams|exact Hbody|exact Hbase64].
  - exact (Route_fulfill_path example_env fulfill_path_options "page.html"
             eq_refl ltac:(done) eq_refl).
Defined.

(** X15: a [fulfill] that passes a response on, with no [json], [body] or
    [path]: for a response of the route's own connection the command
    refers to the response by its fetch uid and carries no body; for a
    response of another connection the body of the response is read, a
    failed read being the failure of the call, and is sent in base64 with
    [isBase64] set. The headers are those for the length of what is sent.
    With no response either, the command carries no body and no fetch uid,
    and the headers for length zero. *)
Theorem Route_fulfill_response (env : Route.Environment) (options : Route.FulfillOptions) :
  Route.json options = None ->
  Route.body options = None ->
  Route.path options = None ->
  match Route.response options with
  | Some r =>
      if Route.response_sameConnection r then
        exists params,
          Route.fulfill_params env options = Ok params
          /\ Route.fulfill_status params = expected_status options
          /\ Route.fulfill_fetchResponseUid params = Some (Route.response_fetchUid r)
          /\ Route.fulfill_body params = None
          /\ Route.fulfill_isBase64 params = false
          /\ Route.fulfill_headers params
             = Route.headersObjectToArray env (sent_headers env options 0)
      else
        match Route.response_body r with
        | Throw e => Route.fulfill_params env options = Throw e
        | Ok b =>
            exists params,
              Route.fulfill_params env options = Ok params
              /\ Route.fulfill_status params = expected_status options
              /\ Route.fulfill_fetchResponseUid params = None
              /\ Route.fulfill_body params = Some (Buffer_toString_base64 b)
              /\ Buffer_from_base64 (Buffer_toString_base64 b) = b
              /\ Route.fulfill_isBase64 params = true
              /\ Route.fulfill_headers params
                 = Route.headersObjectToArray env (sent_headers env options (length b))
        end
  | None =>
      exists params,
        Route.fulfill_params env options = Ok params
        /\ Route.fulfill_status params = expected_status options
        /\ Route.fulfill_fetchResponseUid params = None
        /\ Route.fulfill_body params = None
        /\ Route.fulfill_isBase64 params = false
        /\ Route.fulfill_headers params
           = Route.headersObjectToArray env (sent_headers env options 0)
  end.
Proof.
  intros Hjson Hbody Hpath.
  unfold Route.fulfill_params, expected_status, sent_headers, headers_in_effect.
  rewrite Hjson, Hbody, Hpath. simpl.
  destruct (Route.response options) as [r|]; simpl.
  - destruct (Route.response_sameConnection r).
    + eexists; (split; [reflexivity|]); simpl; split_and!; try done;
        by destruct (Route.status options), (Route.headers options).
    + destruct (Route.response_body r) as [b|e]; [|done].
      eexists; (split; [reflexivity|]); simpl;
        split_and!; try done; try apply base64_roundtrip;
        by destruct (Route.status options), (Route.headers options).
  - eexists; (split; [reflexivity|]); simpl; split_and!; try done;
      by destruct (Route.status options), (Route.headers options).
Qed.

Lemma Route_fulfill_response_witness :
  (exists params,
     Route.fulfill_params page_env (fulfill_response_options local_response) = Ok params
     /\ Route.fulfill_status params = 201%Z
     /\ Route.fulfill_fetchResponseUid params = Some "fetch@2"
     /\ Route.fulfill_body params = None)
  /\ (exists params,
        Route.fulfill_params page_env (fulfill_response_options not_found_response) = Ok params
        /\ Route.fulfill_status params = 404%Z
        /\ Route.fulfill_fetchResponseUid params = None
        /\ Route.fulfill_body params = Some "Tm90IEZvdW5k"
        /\ Route.fulfill_isBase64 params = true).
Proof.
  split.
  - destruct (Route_fulfill_response page_env (fulfill_response_options local_response)
                eq_refl eq_refl eq_refl)
      as (params & Hparams & Hstatus & Huid & Hbody & _).
    exists params. split_and!; [exact Hparams|exact Hstatus|exact Huid|exact Hbody].
  - destruct (Route_fulfill_response page_env (fulfill_response_options not_found_response)
                eq_refl eq_refl eq_refl)
      as (params & Hparams & Hstatus & Huid & Hbody & _ & Hbase64 & _).
    exists params.
    split_and!; [exact Hparams|exact Hstatus|exact Huid|exact Hbody|exact Hbase64].
Defined.

(** X16: [fulfill] fails before its command is sent in three cases only:
    with both [json] and [body], by the assertion; else when it reads the
    body of a response passed on from another connection (no [json],
    [body] or [path] given) and the read fails; else when it reads the
    file of a truthy [path] and the read fails. *)
Theorem Route_fulfill_failures (env : Route.Environment) (options : Route.FulfillOptions)
    (e : Error) :
  Route.fulfill_params env options = Throw e
  <-> (ambiguous options = true /\ e = AmbiguousFulfillOptions)
      \/ (ambiguous options = false
          /\ exists r, fetched_response options = Some r /\ Route.response_body r = Throw e)
      \/ (ambiguous options = false
          /\ fetched_response options = None
          /\ truthy_string (Route.path options) = true
          /\ Route.readFile env (default "" (Route.path options)) = Throw e).
Proof.
  unfold Route.fulfill_params, ambiguous, fetched_response.
  destruct (Route.json options) as [j|], (Route.body options) as [b|]; simpl.
  - split; [intros [= <-]; by left|]. by intros [[_ ->]|[[? _]|[? _]]].
  - destruct (Route.response options) as [r|], (Route.path options) as [p|]; simpl;
      try destruct (negb (String.eqb p "")); simpl;
      try destruct (Route.readFile env p) as [content|e'']; simpl;
      (split;
       [ intros H; try discriminate H; injection H as <-; right; right; done
       | intros [[? _]|[[_ (r' & ? & _)]|(_ & _ & ? & ?)]]; congruence ]).
  - destruct (Route.response options) as [r|], (Route.path options) as [p|]; simpl;
      try destruct (negb (String.eqb p "")); simpl;
      try destruct (Route.readFile env p) as [content|e'']; simpl;
      try destruct b; simpl;
      (split;
       [ intros H; try discriminate H; injection H as <-; right; right; done
       | intros [[? _]|[[_ (r' & ? & _)]|(_ & _ & ? & ?)]]; congruence ]).
  - destruct (Route.response options) as [r|], (Route.path options) as [p|]; simpl;
      try destruct (Route.response_sameConnection r); simpl;
      try destruct (Route.response_body r) as [buffer|e'] eqn:Hbody; simpl;
      try destruct (negb (String.eqb p "")); simpl;
      try destruct (Route.readFile env p) as [content|e'']; simpl;
      (split;
       [ intros H; try discriminate H; injection H as <-;
         first [ right; right; done
               | right; left; split; [done|]; eexists; split; [done|exact Hbody] ]
       | intros [[? _]|[[_ (r' & Hr & Hb)]|(_ & _ & ? & ?)]];
         try discriminate; try (injection Hr as <-); congruence ]).
Qed.

(** ** RouteHandler: expiry and the result of an invocation *)

(** X17: a handler made for [times] invocations (all of them when [times]
    is left out) counts the invocations started on it, and is about to
    expire exactly when one more than the count reaches [times]; so it
    is about to expire from the start when [times] is 1 or less, and once
    it is, it stays so whatever is started on it. *)
Theorem RouteHandler_willExpire_count (times : option Z) (ws ws' : list Route.World) :
  RouteHandler.handledCount (started_on (RouteHandler.new times) ws) = Z.of_nat (length ws)
  /\ RouteHandler.willExpire (started_on (RouteHandler.new times) ws)
     = (Z.of_nat (length ws) + 1 >=? default RouteHandler.MAX_SAFE_INTEGER times)%Z
  /\ (RouteHandler.willExpire (started_on (RouteHandler.new times) ws) = true ->
      RouteHandler.willExpire (started_on (RouteHandler.new times) (ws ++ ws')) = true).
Proof.
  assert (Hexp : forall l, RouteHandler.willExpire (started_on (RouteHandler.new times) l)
                 = (Z.of_nat (length l) + 1 >=? default RouteHandler.MAX_SAFE_INTEGER times)%Z).
  { intros l. unfold RouteHandler.willExpire.
    by destruct (started_on_count l (RouteHandler.new times)) as [-> ->]. }
  split_and!.
  - by destruct (started_on_count ws (RouteHandler.new times)) as [-> _].
  - apply Hexp.
  - rewrite !Hexp, length_app, !Z.geb_leb, !Z.leb_le. lia.
Qed.

Lemma RouteHandler_willExpire_count_witness :
  RouteHandler.willExpire
    (started_on (RouteHandler.new (Some 3%Z))
                ([Route.new form_request; Route.new form_request] ++ [Route.new form_request]))
  = true.
Proof.
  apply (RouteHandler_willExpire_count (Some 3%Z)
           [Route.new form_request; Route.new form_request] [Route.new form_request]).
  reflexivity.
Defined.


Lemma calls_made_snoc (events : list Route.Event) (ev : Route.Event) :
  calls_made (events ++ [ev]) = calls_made events ++ calls_made [ev].
Proof. unfold calls_made. by rewrite omap_app. Qed.





(** ** RouteHandler: the invocations in flight *)

Lemma in_flight_filter (invocation : nat) (l : list Invocations.Invocation) (i : nat) :
  i ∈ Invocations.complete
        <$> filter (fun activation => Invocations.complete activation <> invocation) l
  <-> i <> invocation /\ i ∈ Invocations.complete <$> l.
Proof.
  rewrite !list_elem_of_fmap. split.
  - intros (a & -> & [Hne Hin]%list_elem_of_filter). eauto.
  - intros (Hne & a & -> & Hin). exists a. split; [done|].
    by apply list_elem_of_filter.
Qed.

Lemma step_invocations_consistent (env : Route.Environment) (errors : Invocations.Errors)
    (st : Invocations.State) (ev : Invocations.Event) :
  invocations_consistent st -> invocations_consistent (Invocations.step env errors st ev).
Proof.
  intros (Hdistinct & Hlen & Hcount & Hpromise & Hreturned).
  destruct ev as [route|invocation outcome|behavior|route ev]; simpl.
  - unfold Invocations._handleImpl_begin.
    destruct (Invocations.routes st !! route) as [run|]; [|done].
    unfold invocations_consistent, in_flight in *; simpl.
    rewrite fmap_app, !length_app; simpl.
    assert (Hfresh : length (Invocations.manualPromises st)
                     ∉ Invocations.complete <$> Invocations._activeInvocations st).
    { intros Hin%Hpromise%lookup_lt_Some. lia. }
    split_and!.
    + apply NoDup_app. split_and!; [done| |apply NoDup_singleton].
      intros i Hi ->%list_elem_of_singleton. done.
    + lia.
    + lia.
    + intros i. rewrite elem_of_app, list_elem_of_singleton, lookup_snoc_Some, Hpromise.
      split.
      * intros [Hi| ->]; [left|by right]. split; [by eapply lookup_lt_Some|done].
      * intros [[_ Hi]|[-> _]]; [by left|by right].
    + intros i. rewrite elem_of_app, list_elem_of_singleton, lookup_snoc_Some, Hreturned.
      rewrite Hlen. split.
      * intros [Hi| ->]; [left|by right].
        split; [rewrite <- Hlen; by eapply lookup_lt_Some|done].
      * intros [[_ Hi]|[-> _]]; [by left|by right].
  - unfold Invocations._handleImpl_resume. case_bool_decide as Hactive; [|done].
    unfold invocations_consistent, in_flight in *; simpl.
    rewrite !length_insert.
    split_and!; [|done|done| |].
    + eapply sublist_NoDup; [exact Hdistinct|]. apply fmap_sublist, sublist_filter.
    + intros i. rewrite in_flight_filter, list_lookup_insert_Some, Hpromise.
      split; [intros [Hne Hi]; by right|].
      intros [(_ & ? & _)|[Hne Hi]]; done.
    + intros i. rewrite in_flight_filter, list_lookup_insert_Some, Hreturned.
      split; [intros [Hne Hi]; by right|].
      intros [(_ & ? & _)|[Hne Hi]]; done.
  - by destruct behavior.
  - by destruct (Invocations.routes st !! route).
Qed.

Lemma exec_invocations_consistent (env : Route.Environment) (errors : Invocations.Errors)
    (events : list Invocations.Event) (st : Invocations.State) :
  invocations_consistent st -> invocations_consistent (Invocations.exec env errors st events).
Proof.
  revert st. induction events as [|ev events IH]; intros st Hst; [done|].
  simpl. by apply IH, step_invocations_consistent.
Qed.

Lemma init_invocations_consistent (times : option Z) (rs : list Route.World) :
  invocations_consistent (Invocations.init times rs).
Proof.
  unfold invocations_consistent, in_flight; simpl.
  split_and!; [apply NoDup_nil_2|done|done| |]; intros i;
    (split; [by intros ?%elem_of_nil|done]).
Qed.


Lemma step_ignoreException (env : Route.Environment) (errors : Invocations.Errors)
    (st : Invocations.State) (ev : Invocations.Event) :
  RouteHandler._ignoreException (Invocations.this (Invocations.step env errors st ev))
  = match ev with
    | Invocations.Stop Invocations.ignoreErrors => true
    | _ => RouteHandler._ignoreException (Invocations.this st)
    end.
Proof.
  destruct ev as [route|invocation outcome|behavior|route ev]; simpl.
  - unfold Invocations._handleImpl_begin. by destruct (Invocations.routes st !! route).
  - unfold Invocations._handleImpl_resume. by case_bool_decide.
  - by destruct behavior.
  - by destruct (Invocations.routes st !! route).
Qed.

Lemma step_returned_ignored (env : Route.Environment) (errors : Invocations.Errors)
    (st : Invocations.State) (ev : Invocations.Event) (i : nat) (e : Error) :
  RouteHandler._ignoreException (Invocations.this st) = true ->
  Invocations.returned (Invocations.step env errors st ev) !! i = Some (Some (Throw e)) ->
  Invocations.returned st !! i = Some (Some (Throw e)).
Proof.
  intros Hflag. destruct ev as [route|invocation outcome|behavior|route ev]; simpl.
  - unfold Invocations._handleImpl_begin.
    destruct (Invocations.routes st !! route); [|done]. simpl.
    by intros [[_ ?]|[_ ?]]%lookup_snoc_Some.
  - unfold Invocations._handleImpl_resume. case_bool_decide; [|done]. simpl.
    rewrite Hflag. intros [(_ & Hres & _)|[_ ?]]%list_lookup_insert_Some; [|done].
    by destruct outcome.
  - by destruct behavior.
  - by destruct (Invocations.routes st !! route).
Qed.

(** X20: after [stop('ignoreErrors')] no call of [handle] throws any more,
    whatever happens next: a call that has thrown by some later time had
    thrown before the [stop]. A handler run that fails after the [stop]
    makes its call of [handle] return [false]. *)
Theorem RouteHandler_stop_ignoreErrors (env : Route.Environment) (errors : Invocations.Errors)
    (st : Invocations.State) (events : list Invocations.Event) :
  let stopped := Invocations.step env errors st (Invocations.Stop Invocations.ignoreErrors) in
  let st' := Invocations.exec env errors stopped events in
  RouteHandler._ignoreException (Invocations.this st') = true
  /\ (forall i e, Invocations.returned st' !! i = Some (Some (Throw e)) ->
        Invocations.returned st !! i = Some (Some (Throw e)))
  /\ (forall i e, i ∈ in_flight st' -> i < length (Invocations.returned st') ->
        Invocations.returned
          (Invocations.step env errors st' (Invocations.Resume i (Throw e))) !! i
        = Some (Some (Ok false))).
Proof.
  simpl.
  set (stopped := {| Invocations.this := RouteHandler.stop_ignoreErrors (Invocations.this st);
                     Invocations._activeInvocations := _; Invocations.manualPromises := _;
                     Invocations.routes := _; Invocations.returned := _ |}).
  assert (Hinv : forall events s,
            RouteHandler._ignoreException (Invocations.this s) = true ->
            RouteHandler._ignoreException
              (Invocations.this (Invocations.exec env errors s events)) = true
            /\ forall i e,
                 Invocations.returned (Invocations.exec env errors s events) !! i
                 = Some (Some (Throw e)) ->
                 Invocations.returned s !! i = Some (Some (Throw e))).
  { clear. intros events. induction events as [|ev events IH]; intros s Hflag; [done|].
    simpl. destruct (IH (Invocations.step env errors s ev)) as [Hflag' Hkept].
    { rewrite step_ignoreException. destruct ev as [| |[]|]; done. }
    split; [done|]. intros i e Hi. eapply step_returned_ignored; [done|]. by apply Hkept. }
  destruct (Hinv events stopped eq_refl) as [Hflag Hkept].
  split_and!; [done|exact Hkept|].
  intros i e Hi Hlt. unfold Invocations._handleImpl_resume.
  rewrite bool_decide_eq_true_2 by done. simpl. rewrite Hflag.
  by apply list_lookup_insert_eq.
Qed.

(** X21: as long as [stop('ignoreErrors')] was not called, a handler run
    that fails makes its call of [handle] throw: the error of the run, and
    for a target-closed error that error with its message rewritten to the
    hint; a run that gives a value makes the call return it. *)
Theorem RouteHandler_rethrows (env : Route.Environment) (errors : Invocations.Errors)
    (times : option Z) (rs : list Route.World) (events : list Invocations.Event)
    (i : nat) (outcome : Result bool) :
  never_ignored events ->
  let st := Invocations.exec env errors (Invocations.init times rs) events in
  i ∈ in_flight st ->
  Invocations.returned (Invocations.step env errors st (Invocations.Resume i outcome)) !! i
  = Some (Some match outcome with
               | Ok handled => Ok handled
               | Throw e => Throw (rethrown errors e)
               end).
Proof.
  intros Hev st Hi.
  assert (Hflag : RouteHandler._ignoreException (Invocations.this st) = false).
  { unfold st. clear Hi st.
    assert (Hgen : forall s, RouteHandler._ignoreException (Invocations.this s) = false ->
              RouteHandler._ignoreException
                (Invocations.this (Invocations.exec env errors s events)) = false).
    { induction Hev as [|ev events Hne _ IH]; intros s Hs; [done|].
      simpl. apply IH. rewrite step_ignoreException. by destruct ev as [| |[]|]. }
    by apply Hgen. }
  destruct (exec_invocations_consistent env errors events _
              (init_invocations_consistent times rs))
    as (_ & Hlen & _ & _ & Hreturned).
  pose proof (Hi) as Hlt%Hreturned%lookup_lt_Some.
  simpl. unfold Invocations._handleImpl_resume.
  rewrite bool_decide_eq_true_2 by done. simpl. rewrite Hflag.
  rewrite list_lookup_insert_eq by done. unfold rethrown.
  destruct outcome as [handled|e]; [done|].
  by destruct (Invocations.isTargetClosedError errors e).
Qed.

Lemma RouteHandler_rethrows_witness :
  Invocations.returned
    (Invocations.exec page_env example_errors
       (Invocations.init None [Route.new form_request; Route.new form_request])
       two_failing_invocations) !! 0
  = Some (Some (Throw (ChannelError (Invocations.hint "Target closed")))).
Proof.
  apply (RouteHandler_rethrows page_env example_errors None
           [Route.new form_request; Route.new form_request]
           [Invocations.Handle 0; Invocations.Handle 1] 0
           (Throw (ChannelError "Target closed"))).
  - by repeat constructor.
  - by apply (bool_decide_unpack _).
Defined.
